(** * c64image: the colour-matching engine of [internal/c64image/converter.go]

    A shallow embedding of the converter and the properties of its
    specification.

    Numbers.  A Go [float64] is an IEEE 754 binary64 number: Rocq's primitive
    [float], whose [+ - * / sqrt] and comparisons are the IEEE operations with
    round-to-nearest-even (what Go computes on amd64, where no operations are
    fused).  A Go [int] is a 64-bit two's complement integer, a [Z] with the
    wrap-around written out; a [uint8] is a [Z] in [0, 255].

    The functions of Go's [math] package that are not IEEE operations
    ([Pow], [Sin], [Cos], [Exp], [Atan2]) and the conversions that the Go
    specification leaves implementation-dependent are fields of a [Platform];
    every theorem holds for all platforms, or names the documented special
    cases of [math.Pow] and [math.Sin] it relies on.

    The distance functions are transcribed once, over the interface [Arith],
    whose instance [binary64] is the arithmetic of the program. *)

From Stdlib Require Import ZArith QArith List Bool Lia Floats Reals Lra.
Import ListNotations.

#[local] Set Warnings "-inexact-float".
#[local] Open Scope Z_scope.

(** ** Go's [int] and [uint8] *)

Module GoInt.

Definition minInt : Z := - 2 ^ 63.
Definition maxInt : Z := 2 ^ 63 - 1.

  (** Two's complement wrap-around of an [int] result. *)
Definition wrap (z : Z) : Z := (z + 2 ^ 63) mod 2 ^ 64 - 2 ^ 63.

Definition add (a b : Z) : Z := wrap (a + b).
Definition sub (a b : Z) : Z := wrap (a - b).
Definition mul (a b : Z) : Z := wrap (a * b).

Definition in_range (z : Z) : bool := (minInt <=? z) && (z <=? maxInt).

Lemma wrap_small z : minInt <= z <= maxInt -> wrap z = z.
Proof.
    unfold wrap, minInt, maxInt. intros Hz.
    rewrite Z.mod_small; lia.
Qed.

End GoInt.

(** ** binary64 *)

Module F64.

  (** [float64(i)] for an [int] [i]: the nearest binary64, ties to even. *)
Definition of_int (z : Z) : float :=
    SF2Prim (binary_normalize prec emax z 0 false).

  (** A decimal constant of the source: Go converts the exact constant to the
      nearest binary64; numerator and denominator are exact here, so the IEEE
      quotient is that number. *)
Definition of_Q (q : Q) : float :=
    (of_int (Qnum q) / of_int (Z.pos (Qden q)))%float.

Definition is_nan (x : float) : bool :=
    match Prim2SF x with S754_nan => true | _ => false end.

Definition is_finite (x : float) : bool :=
    match Prim2SF x with
    | S754_zero _ | S754_finite _ _ _ => true
    | _ => false
    end.

  (** The integer part of a finite number, rounded toward zero and toward
      plus infinity. *)
Definition trunc_SF (s : bool) (m : positive) (e : Z) : Z :=
    let a := match e with
             | Zneg p => Z.pos m / Z.pow_pos 2 p
             | _ => Z.pos m * 2 ^ e
             end in
    if s then - a else a.

Definition ceil_SF (s : bool) (m : positive) (e : Z) : Z :=
    match e with
    | Zneg p =>
        let d := Z.pow_pos 2 p in
        if s then - (Z.pos m / d) else (Z.pos m + d - 1) / d
    | _ => (if s then Z.neg m else Z.pos m) * 2 ^ e
    end.

  (** [math.Ceil]: the least integer value not below [x]; zeros, infinities
      and NaN are returned as they are, and a negative [x] above -1 gives -0. *)
Definition Ceil (x : float) : float :=
    match Prim2SF x with
    | S754_finite s m e =>
        let z := ceil_SF s m e in
        if z =? 0 then (if s then (-0)%float else 0%float) else of_int z
    | _ => x
    end.

  (** The value of a conversion [int(x)] or [uint8(x)] when [x] has an
      integer part at all. *)
Definition to_Z (x : float) : option Z :=
    match Prim2SF x with
    | S754_zero _ => Some 0
    | S754_finite s m e => Some (trunc_SF s m e)
    | _ => None
    end.

End F64.

(** ** The platform: [math] functions and implementation-dependent conversions *)

Record Platform := {
  Pow : float -> float -> float;
  Sin : float -> float;
  Cos : float -> float;
  Exp : float -> float;
  Atan2 : float -> float -> float;
  (** [int(x)] and [uint8(x)] when [x] is NaN, infinite or out of range:
      "the result value is implementation-dependent". *)
  int_unrepresentable : float -> Z;
  uint8_unrepresentable : float -> Z
}.

Section Conversions.
Context (P : Platform).

  (** [int(x)] *)
Definition int_of_float64 (x : float) : Z :=
    match F64.to_Z x with
    | Some z => if GoInt.in_range z then z
                else GoInt.wrap (int_unrepresentable P x)
    | None => GoInt.wrap (int_unrepresentable P x)
    end.

  (** [uint8(x)] *)
Definition uint8_of_float64 (x : float) : Z :=
    match F64.to_Z x with
    | Some z => if (0 <=? z) && (z <=? 255) then z
                else uint8_unrepresentable P x mod 256
    | None => uint8_unrepresentable P x mod 256
    end.
End Conversions.

(** ** The arithmetic interface of the distance functions *)

Class Arith (F : Type) := {
  add : F -> F -> F;
  sub : F -> F -> F;
  mul : F -> F -> F;
  div : F -> F -> F;
  opp : F -> F;
  ltb : F -> F -> bool;
  leb : F -> F -> bool;
  lit : Q -> F;              (* a decimal constant of the source *)
  ofZ : Z -> F;              (* float64(n) *)
  mSqrt : F -> F;            (* math.Sqrt *)
  mAbs : F -> F;             (* math.Abs *)
  mPow : F -> F -> F;        (* math.Pow *)
  mSin : F -> F;
  mCos : F -> F;
  mExp : F -> F;
  mAtan2 : F -> F -> F;
  deg2rad : F;             (* the constants math.Pi / 180 and 180 / math.Pi *)
  rad2deg : F
}.

Declare Scope arith_scope.
Delimit Scope arith_scope with A.
Notation "x + y" := (add x y) : arith_scope.
Notation "x - y" := (sub x y) : arith_scope.
Notation "x * y" := (mul x y) : arith_scope.
Notation "x / y" := (div x y) : arith_scope.
Notation "- x" := (opp x) : arith_scope.
Notation "x <? y" := (ltb x y) : arith_scope.
Notation "x <=? y" := (leb x y) : arith_scope.
Notation "x >? y" := (ltb y x) : arith_scope.
Arguments lit {F _} q%_Q.

(** binary64 with the platform's [math] functions. *)
Definition binary64 (P : Platform) : Arith float := {|
  add := PrimFloat.add;
  sub := PrimFloat.sub;
  mul := PrimFloat.mul;
  div := PrimFloat.div;
  opp := PrimFloat.opp;
  ltb := PrimFloat.ltb;
  leb := PrimFloat.leb;
  lit := F64.of_Q;
  ofZ := F64.of_int;
  mSqrt := PrimFloat.sqrt;
  mAbs := PrimFloat.abs;
  mPow := Pow P;
  mSin := Sin P;
  mCos := Cos P;
  mExp := Exp P;
  mAtan2 := Atan2 P;
  deg2rad := 0.017453292519943295769236907684886127134428718885417%float;
  rad2deg := 57.295779513082320876798154814105170332405472466564%float
|}.

(** ** Colours *)

(** [color.RGBA] of Go's [image/color]: four [uint8] channels. *)
Module color.
Record RGBA := mk { R : Z; G : Z; B : Z; A : Z }.

(** The zero value [color.RGBA{}]. *)
Definition zero : RGBA := mk 0 0 0 0.

Definition wf (c : RGBA) : Prop :=
  0 <= R c <= 255 /\ 0 <= G c <= 255 /\ 0 <= B c <= 255 /\ 0 <= A c <= 255.

Definition eqb (c d : RGBA) : bool :=
  (R c =? R d) && (G c =? G d) && (B c =? B d) && (A c =? A d).
End color.

Module cielab.
Record t (F : Type) := mk { l : F; a : F; b : F }.
Arguments mk {F}.
Arguments l {F}.
Arguments a {F}.
Arguments b {F}.
End cielab.

Module xyz.
Record t (F : Type) := mk { x : F; y : F; z : F }.
Arguments mk {F}.
Arguments x {F}.
Arguments y {F}.
Arguments z {F}.
End xyz.

Module rgb.
Record t (F : Type) := mk { r : F; g : F; b : F }.
Arguments mk {F}.
Arguments r {F}.
Arguments g {F}.
Arguments b {F}.
End rgb.

(** According to http://hitmen.c02.at/temp/palstuff/ *)
Definition C64Colors : list color.RGBA :=
  [ color.mk 0x00 0x00 0x00 0xFF   (*  0 - black *)
  ; color.mk 0xFF 0xFF 0xFF 0xFF   (*  1 - white *)
  ; color.mk 0x67 0x37 0x2B 0xFF   (*  2 - red *)
  ; color.mk 0x6F 0xA3 0xB1 0xFF   (*  3 - cyan *)
  ; color.mk 0x6F 0x3C 0x85 0xFF   (*  4 - purple *)
  ; color.mk 0x58 0x8C 0x43 0xFF   (*  5 - green *)
  ; color.mk 0x34 0x28 0x79 0xFF   (*  6 - blue *)
  ; color.mk 0xB7 0xC6 0x6E 0xFF   (*  7 - yellow *)
  ; color.mk 0x6F 0x4F 0x25 0xFF   (*  8 - orange *)
  ; color.mk 0x42 0x39 0x00 0xFF   (*  9 - brown *)
  ; color.mk 0x99 0x66 0x59 0xFF   (* 10 - light red *)
  ; color.mk 0x43 0x43 0x43 0xFF   (* 11 - dark grey *)
  ; color.mk 0x6B 0x6B 0x6B 0xFF   (* 12 - grey *)
  ; color.mk 0x9A 0xD1 0x83 0xFF   (* 13 - light green *)
  ; color.mk 0x6B 0x5E 0xB4 0xFF   (* 14 - light blue *)
  ; color.mk 0x95 0x95 0x95 0xFF   (* 15 - light grey *)
  ].

Inductive Method := RGBMethod | CIE76 | CIE94 | CIE2000.

(** ** Colour spaces and distances, over any arithmetic *)

Section Distances.
Context {F : Type} {AF : Arith F}.
#[local] Open Scope arith_scope.

Definition almostZero (x : F) : bool := mAbs x <? lit 1e-8.

Definition rgbDistance (color1 color2 : color.RGBA) : F :=
  mPow (ofZ (color.R color1) - ofZ (color.R color2)) (lit 2) +
  mPow (ofZ (color.G color1) - ofZ (color.G color2)) (lit 2) +
  mPow (ofZ (color.B color1) - ofZ (color.B color2)) (lit 2).

(** One channel of [convertRGBAtoXYZ]: normalise, expand the sRGB gamma and
    scale to [0, 100]. *)
Definition linearize (v : Z) : F :=
  let c := ofZ v / lit 255.0 in
  let c := if c >? lit 0.04045
           then mPow ((c + lit 0.055) / lit 1.055) (lit 2.4)
           else c / lit 12.92 in
  c * lit 100.0.

Definition convertRGBAtoXYZ (rgba : color.RGBA) : xyz.t F :=
  let r := linearize (color.R rgba) in
  let g := linearize (color.G rgba) in
  let b := linearize (color.B rgba) in
  {| xyz.x := lit 0.4124564 * r + lit 0.3575761 * g + lit 0.1804375 * b;
     xyz.y := lit 0.2126729 * r + lit 0.7151522 * g + lit 0.0721750 * b;
     xyz.z := lit 0.0193339 * r + lit 0.1191920 * g + lit 0.9503041 * b |}.

Definition convertRGBAtoCIELAB (rgba : color.RGBA) : cielab.t F :=
  let xyz := convertRGBAtoXYZ rgba in
  (* Using illuminant D65 with normalization for Y as reference white point. *)
  let Xn := lit 95.047 in
  let Yn := lit 100.0 in
  let Zn := lit 108.883 in
  let f := fun t : F =>
    if t >? mPow (lit (24 # 116)) (lit 3)
    then mPow t (lit (1 # 3))
    else lit (841 # 108) * t + lit (16 # 116) in
  {| cielab.l := lit 116 * f (xyz.y xyz / Yn) - lit 16;
     cielab.a := lit 500 * (f (xyz.x xyz / Xn) - f (xyz.y xyz / Yn));
     cielab.b := lit 200 * (f (xyz.y xyz / Yn) - f (xyz.z xyz / Zn)) |}.

Definition cie76distance (c1 c2 : cielab.t F) : F :=
  mPow (cielab.l c2 - cielab.l c1) (lit 2.0) +
  mPow (cielab.a c2 - cielab.a c1) (lit 2.0) +
  mPow (cielab.b c2 - cielab.b c2) (lit 2.0).

Definition cie94distance (col1 col2 : cielab.t F) : F :=
  let xC1 := mSqrt (cielab.a col1 * cielab.a col1 + cielab.b col1 * cielab.b col1) in
  let xC2 := mSqrt (cielab.a col2 * cielab.a col2 + cielab.b col2 * cielab.b col2) in
  let xDL := cielab.l col2 - cielab.l col1 in
  let xDC := xC2 - xC1 in
  let xDE := mSqrt (mPow (cielab.l col1 - cielab.l col2) (lit 2) +
                    mPow (cielab.a col1 - cielab.a col2) (lit 2) +
                    mPow (cielab.b col1 - cielab.b col2) (lit 2)) in
  let xDH := xDE * xDE - xDL * xDL - xDC * xDC in
  let xDH := if xDH >? lit 0 then mSqrt xDH else lit 0 in
  let xSC := lit 1 + (lit 0.045 * xC1) in
  let xSH := lit 1 + (lit 0.015 * xC1) in
  let xDL := xDL / lit 1 in
  let xDC := xDC / (lit 1 * xSC) in
  let xDH := xDH / (lit 1 * xSH) in
  xDL * xDL + xDC * xDC + xDH * xDH.

Definition cielab2hue (a b : F) : F := mAtan2 b a * rad2deg.

(** The weighted differences of [cie2000distance] and its rotation term: the
    values of [xDL], [xDC], [xDH] and [xRT] when the function reaches its
    [return]. *)
Record cie2000terms := { tDL : F; tDC : F; tDH : F; tRT : F }.

Definition cie2000weighted (col1 col2 : cielab.t F) : cie2000terms :=
  let xC1 := mSqrt (cielab.a col1 * cielab.a col1 + cielab.b col1 * cielab.b col1) in
  let xC2 := mSqrt (cielab.a col2 * cielab.a col2 + cielab.b col2 * cielab.b col2) in
  let xCX := (xC1 + xC2) / lit 2 in
  let xGX := lit 0.5 * (lit 1 - mSqrt (mPow xCX (lit 7) / (mPow xCX (lit 7) + mPow (lit 25) (lit 7)))) in
  let xNN := (lit 1 + xGX) * cielab.a col1 in
  let xC1 := mSqrt (xNN * xNN + cielab.b col1 * cielab.b col1) in
  let xH1 := cielab2hue xNN (cielab.b col1) in
  let xNN := (lit 1 + xGX) * cielab.a col2 in
  let xC2 := mSqrt (xNN * xNN + cielab.b col2 * cielab.b col2) in
  let xH2 := cielab2hue xNN (cielab.b col2) in
  let xDL := cielab.l col2 - cielab.l col1 in
  let xDC := xC2 - xC1 in
  let xDH :=
    if almostZero (xC1 * xC2) then lit 0
    else
      let xNN := xH2 - xH1 in (* round to 12 decimal places??? *)
      if mAbs xNN <=? lit 180 then xH2 - xH1
      else if xNN >? lit 180 then xH2 - xH1 - lit 360
      else xH2 - xH1 + lit 360 in
  let xDH := lit 2 * mSqrt (xC1 * xC2) * mSin (deg2rad * (xDH / lit 2)) in
  let xLX := (cielab.l col1 + cielab.l col2) / lit 2 in
  let xCY := (xC1 + xC2) / lit 2 in
  let xHX :=
    if almostZero (xC1 * xC2) then xH1 + xH2
    else
      let xNN := mAbs (xH1 - xH2) in (* round to 12 decimal places??? *)
      let xHX :=
        if xNN >? lit 180 then
          if (xH2 + xH1) <? lit 360 then xH1 + xH2 + lit 360
          else xH1 + xH2 - lit 360
        else xH1 + xH2 in
      xHX / lit 2 in
  let xTX := lit 1 - lit 0.17 * mCos (deg2rad * (xHX - lit 30)) +
             lit 0.24 * mCos (deg2rad * (lit 2 * xHX)) +
             lit 0.32 * mCos (deg2rad * (lit 3 * xHX + lit 6)) -
             lit 0.20 * mCos (deg2rad * (lit 4 * xHX - lit 63)) in
  let xPH := lit 30 * mExp (- ((xHX - lit 275) / lit 25) * ((xHX - lit 275) / lit 25)) in
  let xRC := lit 2 * mSqrt (mPow xCY (lit 7) / (mPow xCY (lit 7) + mPow (lit 25) (lit 7))) in
  let xSL := lit 1 + (lit 0.015 * (xLX - lit 50) * (xLX - lit 50)) /
                     mSqrt (lit 20 + (xLX - lit 50) * (xLX - lit 50)) in
  let xSC := lit 1 + lit 0.045 * xCY in
  let xSH := lit 1 + lit 0.015 * xCY * xTX in
  let xRT := - mSin (deg2rad * lit 2 * xPH) * xRC in
  {| tDL := xDL / xSL; tDC := xDC / xSC; tDH := xDH / xSH; tRT := xRT |}.

Definition cie2000distance (col1 col2 : cielab.t F) : F :=
  let t := cie2000weighted col1 col2 in
  let xDL := tDL t in
  let xDC := tDC t in
  let xDH := tDH t in
  let xRT := tRT t in
  xDL * xDL + xDC * xDC + xDH * xDH + xRT * xDC * xDH.

End Distances.

(** ** Go's [image] package: rectangles and RGBA images

    [image.RGBA] holds its pixels in [Pix], four bytes per pixel, row after
    row; indexing [Pix] outside its length panics, which the model returns as
    [None]. *)

Module image.

Record Point := { X : Z; Y : Z }.
Record Rectangle := { Min : Point; Max : Point }.

(** [image.Rect]: the returned rectangle has its minimum and maximum
    coordinates swapped if necessary so that it is well-formed. *)
Definition Rect (x0 y0 x1 y1 : Z) : Rectangle :=
  let '(x0, x1) := if x0 >? x1 then (x1, x0) else (x0, x1) in
  let '(y0, y1) := if y0 >? y1 then (y1, y0) else (y0, y1) in
  {| Min := {| X := x0; Y := y0 |}; Max := {| X := x1; Y := y1 |} |}.

Definition Dx (r : Rectangle) : Z := GoInt.sub (X (Max r)) (X (Min r)).
Definition Dy (r : Rectangle) : Z := GoInt.sub (Y (Max r)) (Y (Min r)).
Definition Size (r : Rectangle) : Point := {| X := Dx r; Y := Dy r |}.

(** [p.In(r)] *)
Definition In (p : Point) (r : Rectangle) : bool :=
  (X (Min r) <=? X p) && (X p <? X (Max r)) &&
  (Y (Min r) <=? Y p) && (Y p <? Y (Max r)).

Module RGBA.
Record t := { Pix : list Z; Stride : Z; Rect : Rectangle }.
End RGBA.

(** [image.NewRGBA]: panics when a dimension is negative or the buffer length
    [4 * w * h] overflows [int]. *)
Definition NewRGBA (r : Rectangle) : option RGBA.t :=
  let w := Dx r in
  let h := Dy r in
  if (0 <=? w) && (0 <=? h) && (4 * w * h <=? GoInt.maxInt) then
    Some {| RGBA.Pix := repeat 0 (Z.to_nat (4 * w * h));
            RGBA.Stride := GoInt.mul 4 w;
            RGBA.Rect := r |}
  else None.

Definition PixOffset (p : RGBA.t) (x y : Z) : Z :=
  GoInt.add (GoInt.mul (GoInt.sub y (Y (Min (RGBA.Rect p)))) (RGBA.Stride p))
            (GoInt.mul (GoInt.sub x (X (Min (RGBA.Rect p)))) 4).

(** The slice [Pix[i : i+4 : i+4]], read and written. *)
Definition get4 (pix : list Z) (i : Z) : option color.RGBA :=
  if i <? 0 then None
  else
    let n := Z.to_nat i in
    match nth_error pix n, nth_error pix (n + 1),
          nth_error pix (n + 2), nth_error pix (n + 3) with
    | Some r, Some g, Some b, Some a => Some (color.mk r g b a)
    | _, _, _, _ => None
    end.

Definition set4 (pix : list Z) (i : Z) (c : color.RGBA) : option (list Z) :=
  if (0 <=? i) && (i + 4 <=? Z.of_nat (length pix)) then
    Some (firstn (Z.to_nat i) pix
          ++ [color.R c; color.G c; color.B c; color.A c]
          ++ skipn (Z.to_nat i + 4) pix)
  else None.

(** [p.RGBAAt(x, y)]: the zero colour outside the image's rectangle. *)
Definition RGBAAt (p : RGBA.t) (x y : Z) : option color.RGBA :=
  if negb (In {| X := x; Y := y |} (RGBA.Rect p)) then Some color.zero
  else get4 (RGBA.Pix p) (PixOffset p x y).

(** [p.SetRGBA(x, y, c)]: nothing is written outside the rectangle. *)
Definition SetRGBA (p : RGBA.t) (x y : Z) (c : color.RGBA) : option RGBA.t :=
  if negb (In {| X := x; Y := y |} (RGBA.Rect p)) then Some p
  else match set4 (RGBA.Pix p) (PixOffset p x y) c with
       | Some pix => Some {| RGBA.Pix := pix;
                             RGBA.Stride := RGBA.Stride p;
                             RGBA.Rect := RGBA.Rect p |}
       | None => None
       end.

(** The invariant of every image that [NewRGBA] returned: the coordinates are
    [int]s, the rectangle is well-formed, and [Pix] holds [4 * w * h] bytes
    in rows of [Stride = 4 * w]. *)
Record wf (p : RGBA.t) : Prop := {
  wf_minx : GoInt.minInt <= X (Min (RGBA.Rect p));
  wf_miny : GoInt.minInt <= Y (Min (RGBA.Rect p));
  wf_maxx : X (Max (RGBA.Rect p)) <= GoInt.maxInt;
  wf_maxy : Y (Max (RGBA.Rect p)) <= GoInt.maxInt;
  wf_dx : X (Min (RGBA.Rect p)) <= X (Max (RGBA.Rect p));
  wf_dy : Y (Min (RGBA.Rect p)) <= Y (Max (RGBA.Rect p));
  wf_len : 4 * (X (Max (RGBA.Rect p)) - X (Min (RGBA.Rect p)))
             * (Y (Max (RGBA.Rect p)) - Y (Min (RGBA.Rect p))) <= GoInt.maxInt;
  wf_stride : RGBA.Stride p = 4 * (X (Max (RGBA.Rect p)) - X (Min (RGBA.Rect p)));
  wf_pix : Z.of_nat (length (RGBA.Pix p)) =
           4 * (X (Max (RGBA.Rect p)) - X (Min (RGBA.Rect p)))
             * (Y (Max (RGBA.Rect p)) - Y (Min (RGBA.Rect p)))
}.

End image.

(** ** Loops *)

(** [for i := lo; i < hi; i++ { s = body(i, s) }], a panic of the body ending
    the loop. *)
Fixpoint for_loop {S : Type} (n : nat) (i : Z) (body : Z -> S -> option S) (s : S)
  : option S :=
  match n with
  | O => Some s
  | Datatypes.S n' =>
      match body i s with
      | Some s' => for_loop n' (i + 1) body s'
      | None => None
      end
  end.

Definition for_range {S : Type} (lo hi : Z) (body : Z -> S -> option S) (s : S)
  : option S :=
  for_loop (Z.to_nat (hi - lo)) lo body s.

(** ** The converter *)

Section Converter.
Context (P : Platform).
#[local] Instance platform_arith : Arith float := binary64 P.

(** Calculate mean color of image block. *)
Definition meanBlockColor (img : image.RGBA.t) (rect : image.Rectangle)
  : option (cielab.t float * color.RGBA) :=
  let minX := image.X (image.Min rect) in
  let maxX := image.X (image.Max rect) in
  let minY := image.Y (image.Min rect) in
  let maxY := image.Y (image.Max rect) in
  let avglab := cielab.mk 0%float 0%float 0%float in
  let avgrgb := rgb.mk 0%float 0%float 0%float in
  match
    for_range minX maxX (fun x =>
      for_range minY maxY (fun y '(avglab, avgrgb) =>
        match image.RGBAAt img x y with
        | None => None
        | Some rgbColor =>
            let lab := convertRGBAtoCIELAB rgbColor in
            Some (cielab.mk (cielab.l avglab + cielab.l lab)
                            (cielab.a avglab + cielab.a lab)
                            (cielab.b avglab + cielab.b lab),
                  rgb.mk (rgb.r avgrgb + F64.of_int (color.R rgbColor))
                         (rgb.g avgrgb + F64.of_int (color.G rgbColor))
                         (rgb.b avgrgb + F64.of_int (color.B rgbColor)))
        end))
      (avglab, avgrgb)
  with
  | None => None
  | Some (avglab, avgrgb) =>
      let pixelCount :=
        F64.of_int (GoInt.mul (GoInt.sub maxX minX) (GoInt.sub maxY minY)) in
      let avglab := cielab.mk (cielab.l avglab / pixelCount)
                              (cielab.a avglab / pixelCount)
                              (cielab.b avglab / pixelCount) in
      let avgrgb := rgb.mk (rgb.r avgrgb / pixelCount)
                           (rgb.g avgrgb / pixelCount)
                           (rgb.b avgrgb / pixelCount) in
      let avgrgbColor := color.mk (uint8_of_float64 P (rgb.r avgrgb))
                                  (uint8_of_float64 P (rgb.g avgrgb))
                                  (uint8_of_float64 P (rgb.b avgrgb)) 255 in
      Some (avglab, avgrgbColor)
  end%float.

(** The distance the selected method gives, [deltaE] of [closestC64Color]. *)
Definition deltaE (method : Method) (color : cielab.t float) (rgbColor : color.RGBA)
    (c64Color : color.RGBA) : float :=
  let lab2 := convertRGBAtoCIELAB c64Color in
  match method with
  | RGBMethod => rgbDistance rgbColor c64Color
  | CIE76 => cie76distance color lab2
  | CIE94 => cie94distance color lab2
  | CIE2000 => cie2000distance color lab2
  end.

(** The body of [for i, c64Color := range C64Colors], from index [i] on. *)
Fixpoint closest_from (method : Method) (color : cielab.t float) (rgbColor : color.RGBA)
    (cs : list color.RGBA) (i : Z) (best : Z * float) : Z * float :=
  match cs with
  | [] => best
  | c64Color :: rest =>
      let d := deltaE method color rgbColor c64Color in
      let best := if (d <? snd best)%float then (i, d) else best in
      closest_from method color rgbColor rest (i + 1) best
  end.

(** Find index of closest color in C64Colors. *)
Definition closestC64Color (color : cielab.t float) (rgbColor : color.RGBA)
    (method : Method) : Z :=
  let bestIndex := 0 in
  let bestDistance := infinity in
  fst (closest_from method color rgbColor C64Colors 0 (bestIndex, bestDistance)).

(** [C64Colors[ci]]; [closestC64Color] only returns indices of the table
    (lemma [closestC64Color_range]), so the default is never taken. *)
Definition C64Color (ci : Z) : color.RGBA := nth (Z.to_nat ci) C64Colors color.zero.

Definition targetWidth : Z := 320.

Definition targetHeight (img : image.RGBA.t) : Z :=
  let size := image.Size (image.RGBA.Rect img) in
  let aspectRatio := (F64.of_int (image.X size) / F64.of_int (image.Y size))%float in
  int_of_float64 P (F64.Ceil (F64.of_int targetWidth / aspectRatio)%float).

Definition blockWidth (img : image.RGBA.t) : Z :=
  let size := image.Size (image.RGBA.Rect img) in
  int_of_float64 P (F64.of_int (image.X size) / F64.of_int (targetWidth / 2))%float.

Definition blockHeight (img : image.RGBA.t) : Z :=
  let size := image.Size (image.RGBA.Rect img) in
  int_of_float64 P (F64.of_int (image.Y size) / F64.of_int (targetHeight img))%float.

(** The rectangle of source pixels averaged for column [i] and row [j]. *)
Definition blockRect (img : image.RGBA.t) (i j : Z) : image.Rectangle :=
  image.Rect (GoInt.mul i (blockWidth img)) (GoInt.mul j (blockHeight img))
             (GoInt.sub (GoInt.mul (i + 1) (blockWidth img)) 1)
             (GoInt.sub (GoInt.mul (j + 1) (blockHeight img)) 1).

(** The body of the two loops of [ConvertImage]. *)
Definition convertBlock (img : image.RGBA.t) (method : Method) (j i : Z)
    (targetImage : image.RGBA.t) : option image.RGBA.t :=
  match meanBlockColor img (blockRect img i j) with
  | None => None
  | Some (colorEstimate, rgbEstimate) =>
      let ci := closestC64Color colorEstimate rgbEstimate method in
      match image.SetRGBA targetImage (i * 2) j (C64Color ci) with
      | None => None
      | Some targetImage => image.SetRGBA targetImage (i * 2 + 1) j (C64Color ci)
      end
  end.

(** [ConvertImage] with its column loop running over [0 <= i < columns]. *)
Definition convertColumns (columns : Z) (img : image.RGBA.t) (method : Method)
  : option image.RGBA.t :=
  match image.NewRGBA (image.Rect 0 0 targetWidth (targetHeight img)) with
  | None => None
  | Some targetImage =>
      for_range 0 (targetHeight img) (fun j =>
        for_range 0 columns (convertBlock img method j)) targetImage
  end.

(** [ConvertImage]: the column loop is [for i := 0; i <= targetWidth; i++].
    The image sent on [returnChannel] is the result; [None] is a panic. *)
Definition ConvertImage (img : image.RGBA.t) (method : Method) : option image.RGBA.t :=
  convertColumns (targetWidth + 1) img method.

End Converter.

(** * Properties *)

(** ** The pixel buffer *)

Section PixelBuffer.
Import image.

Lemma nth_error_set4 pix i c pix' k :
  set4 pix i c = Some pix' ->
  nth_error pix' k =
    if (k <? Z.to_nat i)%nat then nth_error pix k
    else if (k <? Z.to_nat i + 4)%nat
         then nth_error [color.R c; color.G c; color.B c; color.A c] (k - Z.to_nat i)
         else nth_error pix k.
Proof.
  unfold set4. destruct (_ && _) eqn:E; [|discriminate].
  intros [= <-]. apply andb_prop in E as [E1 E2].
  apply Z.leb_le in E1, E2.
  set (n := Z.to_nat i) in *.
  assert (Hn : (n + 4 <= length pix)%nat) by lia.
  assert (Hf : length (firstn n pix) = n) by (rewrite length_firstn; lia).
  destruct (Nat.ltb_spec k n) as [K1|K1].
  - rewrite nth_error_app1 by lia. rewrite nth_error_firstn.
    now destruct (Nat.ltb_spec k n); [|lia].
  - rewrite nth_error_app2 by lia. rewrite Hf.
    destruct (Nat.ltb_spec k (n + 4)) as [K2|K2].
    + destruct (k - n)%nat as [|[|[|[|d]]]] eqn:D; try reflexivity. lia.
    + replace (k - n)%nat with (4 + (k - n - 4))%nat by lia. cbn [nth_error Nat.add].
      rewrite nth_error_skipn. f_equal. lia.
Qed.

Lemma set4_length pix i c pix' :
  set4 pix i c = Some pix' -> length pix' = length pix.
Proof.
  unfold set4. destruct (_ && _) eqn:E; [|discriminate].
  intros [= <-]. apply andb_prop in E as [E1 E2].
  apply Z.leb_le in E1, E2.
  rewrite length_app, length_firstn. cbn [app length]. rewrite length_skipn. lia.
Qed.

Lemma set4_Some pix i c :
  0 <= i -> i + 4 <= Z.of_nat (length pix) -> exists pix', set4 pix i c = Some pix'.
Proof.
  intros H0 H4. unfold set4.
  destruct (0 <=? i) eqn:E1; [|apply Z.leb_gt in E1; lia].
  destruct (i + 4 <=? _) eqn:E2; [|apply Z.leb_gt in E2; lia].
  simpl. eauto.
Qed.

Lemma get4_Some pix i :
  0 <= i -> i + 4 <= Z.of_nat (length pix) -> exists c, get4 pix i = Some c.
Proof.
  intros H0 H4. unfold get4.
  destruct (i <? 0) eqn:E; [apply Z.ltb_lt in E; lia|].
  set (n := Z.to_nat i).
  assert (Hn : (n + 4 <= length pix)%nat) by lia.
  destruct (nth_error pix n) eqn:E0;
    [|apply nth_error_None in E0; lia].
  destruct (nth_error pix (n + 1)) eqn:E1;
    [|apply nth_error_None in E1; lia].
  destruct (nth_error pix (n + 2)) eqn:E2;
    [|apply nth_error_None in E2; lia].
  destruct (nth_error pix (n + 3)) eqn:E3;
    [|apply nth_error_None in E3; lia].
  eauto.
Qed.

Lemma get4_set4_same pix i c pix' :
  set4 pix i c = Some pix' -> get4 pix' i = Some c.
Proof.
  intros H. pose proof (fun k => nth_error_set4 _ _ _ _ k H) as N.
  unfold set4 in H. destruct (_ && _) eqn:E; [|discriminate].
  apply andb_prop in E as [E1 E2]. apply Z.leb_le in E1.
  unfold get4. destruct (i <? 0) eqn:E0; [apply Z.ltb_lt in E0; lia|].
  rewrite !N.
  replace (Z.to_nat i <? Z.to_nat i)%nat with false by (symmetry; apply Nat.ltb_ge; lia).
  replace (Z.to_nat i + 1 <? Z.to_nat i)%nat with false by (symmetry; apply Nat.ltb_ge; lia).
  replace (Z.to_nat i + 2 <? Z.to_nat i)%nat with false by (symmetry; apply Nat.ltb_ge; lia).
  replace (Z.to_nat i + 3 <? Z.to_nat i)%nat with false by (symmetry; apply Nat.ltb_ge; lia).
  replace (Z.to_nat i <? Z.to_nat i + 4)%nat with true by (symmetry; apply Nat.ltb_lt; lia).
  replace (Z.to_nat i + 1 <? Z.to_nat i + 4)%nat with true by (symmetry; apply Nat.ltb_lt; lia).
  replace (Z.to_nat i + 2 <? Z.to_nat i + 4)%nat with true by (symmetry; apply Nat.ltb_lt; lia).
  replace (Z.to_nat i + 3 <? Z.to_nat i + 4)%nat with true by (symmetry; apply Nat.ltb_lt; lia).
  replace (Z.to_nat i - Z.to_nat i)%nat with 0%nat by lia.
  replace (Z.to_nat i + 1 - Z.to_nat i)%nat with 1%nat by lia.
  replace (Z.to_nat i + 2 - Z.to_nat i)%nat with 2%nat by lia.
  replace (Z.to_nat i + 3 - Z.to_nat i)%nat with 3%nat by lia.
  simpl. now destruct c.
Qed.

Lemma get4_set4_other pix i c pix' j :
  set4 pix i c = Some pix' -> 0 <= j -> j + 4 <= i \/ i + 4 <= j ->
  get4 pix' j = get4 pix j.
Proof.
  intros H Hj D. pose proof (fun k => nth_error_set4 _ _ _ _ k H) as N.
  unfold set4 in H. destruct (_ && _) eqn:E; [|discriminate].
  apply andb_prop in E as [E1 E2]. apply Z.leb_le in E1.
  unfold get4. destruct (j <? 0); [reflexivity|].
  assert (K : forall d, (d < 4)%nat ->
            nth_error pix' (Z.to_nat j + d) = nth_error pix (Z.to_nat j + d)).
  { intros d Hd. rewrite N.
    destruct (_ <? Z.to_nat i)%nat eqn:K1; [reflexivity|].
    destruct (_ <? Z.to_nat i + 4)%nat eqn:K2; [|reflexivity].
    apply Nat.ltb_ge in K1. apply Nat.ltb_lt in K2. lia. }
  pose proof (K 0%nat ltac:(lia)) as K0. rewrite Nat.add_0_r in K0.
  now rewrite K0, !K by lia.
Qed.

End PixelBuffer.

(** ** Images as pixel stores *)

Section PixelStore.
Import image.

Lemma In_spec x y r :
  In {| X := x; Y := y |} r = true <->
  X (Min r) <= x < X (Max r) /\ Y (Min r) <= y < Y (Max r).
Proof.
  unfold In. cbn [X Y].
  rewrite !andb_true_iff, !Z.leb_le, !Z.ltb_lt. lia.
Qed.

(** The index of the pixel [(x, y)] of a well-formed image, row after row. *)
Definition pixelIndex (p : RGBA.t) (x y : Z) : Z :=
  (y - Y (Min (RGBA.Rect p))) * (X (Max (RGBA.Rect p)) - X (Min (RGBA.Rect p)))
  + (x - X (Min (RGBA.Rect p))).

Lemma pixelIndex_range p x y :
  wf p -> In {| X := x; Y := y |} (RGBA.Rect p) = true ->
  0 <= pixelIndex p x y /\
  4 * pixelIndex p x y + 4 <= Z.of_nat (length (RGBA.Pix p)) /\
  4 * pixelIndex p x y + 4 <= GoInt.maxInt.
Proof.
  intros W I. apply In_spec in I. destruct W. unfold pixelIndex.
  set (w := X (Max (RGBA.Rect p)) - X (Min (RGBA.Rect p))) in *.
  set (h := Y (Max (RGBA.Rect p)) - Y (Min (RGBA.Rect p))) in *.
  set (dx := x - X (Min (RGBA.Rect p))).
  set (dy := y - Y (Min (RGBA.Rect p))).
  assert (0 <= dx < w) by (unfold dx, w; lia).
  assert (0 <= dy < h) by (unfold dy, h; lia).
  assert (dy * w + dx + 1 <= w * h) by nia.
  assert (0 <= dy * w) by nia.
  rewrite wf_pix0. lia.
Qed.

Lemma PixOffset_In p x y :
  wf p -> In {| X := x; Y := y |} (RGBA.Rect p) = true ->
  PixOffset p x y = 4 * pixelIndex p x y.
Proof.
  intros W I. pose proof (pixelIndex_range _ _ _ W I) as R.
  apply In_spec in I. destruct W. unfold PixOffset, pixelIndex in *.
  unfold GoInt.add, GoInt.mul, GoInt.sub. rewrite wf_stride0.
  set (w := X (Max (RGBA.Rect p)) - X (Min (RGBA.Rect p))) in *.
  set (h := Y (Max (RGBA.Rect p)) - Y (Min (RGBA.Rect p))) in *.
  set (dx := x - X (Min (RGBA.Rect p))) in *.
  set (dy := y - Y (Min (RGBA.Rect p))) in *.
  assert (0 <= dx < w) by (unfold dx, w; lia).
  assert (0 <= dy < h) by (unfold dy, h; lia).
  assert (0 <= dy * w) by nia.
  assert (dy <= dy * w) by nia.
  unfold GoInt.maxInt, GoInt.minInt in *.
  rewrite (GoInt.wrap_small dx) by (unfold GoInt.maxInt, GoInt.minInt; lia).
  rewrite (GoInt.wrap_small dy) by (unfold GoInt.maxInt, GoInt.minInt; lia).
  rewrite (GoInt.wrap_small (dx * 4)) by (unfold GoInt.maxInt, GoInt.minInt; lia).
  rewrite (GoInt.wrap_small (dy * (4 * w))) by (unfold GoInt.maxInt, GoInt.minInt; lia).
  rewrite GoInt.wrap_small by (unfold GoInt.maxInt, GoInt.minInt; lia).
  lia.
Qed.

Lemma pixelIndex_inj p x y x' y' :
  wf p ->
  In {| X := x; Y := y |} (RGBA.Rect p) = true ->
  In {| X := x'; Y := y' |} (RGBA.Rect p) = true ->
  pixelIndex p x y = pixelIndex p x' y' -> x = x' /\ y = y'.
Proof.
  intros W I I' E. apply In_spec in I, I'. unfold pixelIndex in E.
  set (w := X (Max (RGBA.Rect p)) - X (Min (RGBA.Rect p))) in *.
  assert (y = y') by nia. subst y'. lia.
Qed.

(** Reading never panics on a well-formed image. *)
Lemma RGBAAt_total p x y : wf p -> exists c, RGBAAt p x y = Some c.
Proof.
  intros W. unfold RGBAAt.
  destruct (In _ _) eqn:I; cbn [negb]; [|eauto].
  rewrite PixOffset_In by assumption.
  pose proof (pixelIndex_range _ _ _ W I).
  apply get4_Some; lia.
Qed.

(** Writing never panics either, keeps the image well-formed, and changes
    the pixel written, when it lies in the rectangle, and no other. *)
Lemma SetRGBA_spec p x y c :
  wf p ->
  exists p', SetRGBA p x y c = Some p' /\ wf p' /\
    RGBA.Rect p' = RGBA.Rect p /\
    forall x' y',
      RGBAAt p' x' y' =
        if In {| X := x; Y := y |} (RGBA.Rect p) && (x' =? x) && (y' =? y)
        then Some c else RGBAAt p x' y'.
Proof.
  intros W. unfold SetRGBA.
  destruct (In {| X := x; Y := y |} _) eqn:I; cbn [negb andb].
  2:{ exists p. repeat split; try apply W. }
  pose proof (pixelIndex_range _ _ _ W I) as R.
  rewrite (PixOffset_In _ _ _ W I).
  destruct (set4_Some (RGBA.Pix p) (4 * pixelIndex p x y) c) as [pix' S]; [lia..|].
  rewrite S. eexists; split; [reflexivity|].
  assert (W' : wf {| RGBA.Pix := pix'; RGBA.Stride := RGBA.Stride p;
                     RGBA.Rect := RGBA.Rect p |}).
  { destruct W. constructor; cbn [RGBA.Pix RGBA.Stride RGBA.Rect]; try assumption.
    now rewrite (set4_length _ _ _ _ S). }
  split; [exact W'|]. split; [reflexivity|].
  intros x' y'. unfold RGBAAt. cbn [RGBA.Rect RGBA.Pix].
  destruct (In {| X := x'; Y := y' |} _) eqn:I'; cbn [negb].
  2:{ destruct ((x' =? x) && (y' =? y)) eqn:E; [|reflexivity].
      apply andb_prop in E as [E1 E2]. apply Z.eqb_eq in E1, E2. subst.
      congruence. }
  rewrite (PixOffset_In _ _ _ W' I').
  change (pixelIndex _ x' y') with (pixelIndex p x' y').
  rewrite (PixOffset_In _ _ _ W I').
  pose proof (pixelIndex_range _ _ _ W I') as R'.
  destruct ((x' =? x) && (y' =? y)) eqn:E.
  - apply andb_prop in E as [E1 E2]. apply Z.eqb_eq in E1, E2. subst.
    exact (get4_set4_same _ _ _ _ S).
  - apply (get4_set4_other _ _ _ _ _ S); [lia|].
    assert (pixelIndex p x' y' <> pixelIndex p x y).
    { intros Q. apply pixelIndex_inj in Q as [-> ->]; try assumption.
      now rewrite !Z.eqb_refl in E. }
    lia.
Qed.

Lemma Rect_canonical x0 y0 x1 y1 :
  X (Min (Rect x0 y0 x1 y1)) = Z.min x0 x1 /\
  X (Max (Rect x0 y0 x1 y1)) = Z.max x0 x1 /\
  Y (Min (Rect x0 y0 x1 y1)) = Z.min y0 y1 /\
  Y (Max (Rect x0 y0 x1 y1)) = Z.max y0 y1.
Proof.
  unfold Rect.
  destruct (Z.gtb_spec x0 x1), (Z.gtb_spec y0 y1); cbn [X Y Min Max]; lia.
Qed.

Lemma NewRGBA_Rect r p : NewRGBA r = Some p -> RGBA.Rect p = r.
Proof.
  unfold NewRGBA. destruct (_ && _); [|discriminate]. now intros [= <-].
Qed.

(** A new image of width 320 is well-formed and blank. *)
Lemma NewRGBA_spec h :
  0 <= h <= GoInt.maxInt -> 4 * 320 * h <= GoInt.maxInt ->
  exists p, NewRGBA (Rect 0 0 320 h) = Some p /\ wf p /\
    RGBA.Rect p = Rect 0 0 320 h /\
    forall x y, RGBAAt p x y = Some color.zero.
Proof.
  intros Hh Hlen.
  assert (Er : Rect 0 0 320 h =
    {| Min := {| X := 0; Y := 0 |}; Max := {| X := 320; Y := h |} |}).
  { unfold Rect. destruct (Z.gtb_spec 0 h); try lia; reflexivity. }
  rewrite Er. unfold NewRGBA, Dx, Dy, GoInt.sub, GoInt.mul. cbn [X Y Min Max].
  rewrite !Z.sub_0_r.
  rewrite (GoInt.wrap_small h) by (unfold GoInt.minInt; lia).
  rewrite !GoInt.wrap_small by (unfold GoInt.minInt, GoInt.maxInt; lia).
  destruct (Z.leb_spec 0 h); [|lia].
  destruct (Z.leb_spec (4 * 320 * h) GoInt.maxInt); [|lia].
  cbn [Z.leb andb]. eexists. split; [reflexivity|].
  match goal with |- wf ?q /\ _ => set (p0 := q) end.
  assert (W : wf p0).
  { constructor; cbn [p0 RGBA.Pix RGBA.Stride RGBA.Rect X Y Min Max];
      rewrite ?repeat_length; unfold GoInt.minInt, GoInt.maxInt in *; lia. }
  split; [exact W|]. split; [reflexivity|].
  intros x y. unfold RGBAAt.
  destruct (In _ _) eqn:I; cbn [negb]; [|reflexivity].
  rewrite (PixOffset_In _ _ _ W I).
  pose proof (pixelIndex_range _ _ _ W I) as (R0 & R1 & _).
  cbn [p0 RGBA.Pix] in R1 |- *. rewrite repeat_length in R1.
  unfold get4. destruct (Z.ltb_spec (4 * pixelIndex p0 x y) 0); [lia|].
  rewrite !nth_error_repeat by lia. reflexivity.
Qed.

End PixelStore.

(** ** Loops *)

Section Loops.
Context {S : Type}.
Implicit Types (body : Z -> S -> option S) (s : S).

(** The invariant rule of a loop whose body does not panic. *)
Lemma for_loop_invariant (I : Z -> S -> Prop) n lo body s :
  I lo s ->
  (forall i s, lo <= i < lo + Z.of_nat n -> I i s ->
               exists s', body i s = Some s' /\ I (i + 1) s') ->
  exists s', for_loop n lo body s = Some s' /\ I (lo + Z.of_nat n) s'.
Proof.
  revert lo s. induction n as [|n IH]; intros lo s H0 Hstep.
  - exists s. rewrite Z.add_0_r. now split.
  - cbn [for_loop].
    destruct (Hstep lo s ltac:(lia) H0) as (s1 & E1 & H1). rewrite E1.
    destruct (IH (lo + 1) s1 H1) as (s2 & E2 & H2).
    { intros i s' Hi. apply Hstep. lia. }
    exists s2. split; [exact E2|].
    now replace (lo + Z.of_nat (Datatypes.S n)) with (lo + 1 + Z.of_nat n) by lia.
Qed.

Lemma for_range_invariant (I : Z -> S -> Prop) lo hi body s :
  lo <= hi -> I lo s ->
  (forall i s, lo <= i < hi -> I i s ->
               exists s', body i s = Some s' /\ I (i + 1) s') ->
  exists s', for_range lo hi body s = Some s' /\ I hi s'.
Proof.
  intros Hle H0 Hstep. unfold for_range.
  destruct (for_loop_invariant I (Z.to_nat (hi - lo)) lo body s H0)
    as (s' & E & H).
  - intros i s1 Hi. apply Hstep. lia.
  - exists s'. split; [exact E|].
    replace (lo + Z.of_nat (Z.to_nat (hi - lo))) with hi in H by lia. exact H.
Qed.

Lemma for_range_empty lo hi body s : hi <= lo -> for_range lo hi body s = Some s.
Proof.
  intros H. unfold for_range. now replace (Z.to_nat (hi - lo)) with O by lia.
Qed.

(** A loop whose iterations leave the state as it is. *)
Lemma for_loop_skip n lo body s (I : S -> Prop) :
  I s -> (forall i s, lo <= i -> I s -> body i s = Some s) ->
  for_loop n lo body s = Some s.
Proof.
  intros Hs H. revert lo H. induction n as [|n IH]; intros lo H; [reflexivity|].
  cbn [for_loop]. rewrite (H lo s) by (assumption || lia).
  apply IH. intros i s' Hi. apply H. lia.
Qed.

(** A loop of [n + m] iterations is one of [n] followed by one of [m]. *)
Lemma for_loop_app n m lo body s :
  for_loop (n + m) lo body s =
  match for_loop n lo body s with
  | Some s' => for_loop m (lo + Z.of_nat n) body s'
  | None => None
  end.
Proof.
  revert lo s. induction n as [|n IH]; intros lo s.
  - cbn [for_loop Nat.add]. now rewrite Z.add_0_r.
  - cbn [for_loop Nat.add]. destruct (body lo s) as [s1|]; [|reflexivity].
    rewrite IH. now replace (lo + 1 + Z.of_nat n) with (lo + Z.of_nat (Datatypes.S n)) by lia.
Qed.

(** Two bodies that agree on the states of an invariant give the same loop. *)
Lemma for_loop_ext (I : S -> Prop) n lo body1 body2 s :
  I s ->
  (forall i s, I s -> body1 i s = body2 i s) ->
  (forall i s s', I s -> body1 i s = Some s' -> I s') ->
  for_loop n lo body1 s = for_loop n lo body2 s.
Proof.
  intros Hs Heq Hpres. revert lo s Hs.
  induction n as [|n IH]; intros lo s Hs; [reflexivity|].
  cbn [for_loop]. rewrite <- (Heq lo s Hs).
  destruct (body1 lo s) as [s1|] eqn:E; [|reflexivity].
  apply IH. exact (Hpres _ _ _ Hs E).
Qed.

(** What every iteration preserves, the loop preserves. *)
Lemma for_loop_preserves (I : S -> Prop) n lo body s s' :
  (forall i s s', I s -> body i s = Some s' -> I s') ->
  I s -> for_loop n lo body s = Some s' -> I s'.
Proof.
  intros Hpres. revert lo s. induction n as [|n IH]; intros lo s Hs E.
  - now injection E as <-.
  - cbn [for_loop] in E. destruct (body lo s) as [s1|] eqn:E1; [|discriminate].
    exact (IH _ _ (Hpres _ _ _ Hs E1) E).
Qed.

Lemma for_range_ext (I : S -> Prop) lo hi body1 body2 s :
  I s ->
  (forall i s, I s -> body1 i s = body2 i s) ->
  (forall i s s', I s -> body1 i s = Some s' -> I s') ->
  for_range lo hi body1 s = for_range lo hi body2 s.
Proof. apply for_loop_ext. Qed.

Lemma for_range_preserves (I : S -> Prop) lo hi body s s' :
  (forall i s s', I s -> body i s = Some s' -> I s') ->
  I s -> for_range lo hi body s = Some s' -> I s'.
Proof. apply for_loop_preserves. Qed.

Lemma for_range_total lo hi body s :
  (forall i s, exists s', body i s = Some s') ->
  exists s', for_range lo hi body s = Some s'.
Proof.
  intros H. destruct (Z_le_gt_dec lo hi) as [L|L].
  - destruct (for_range_invariant (fun _ _ => True) lo hi body s L I) as (s' & E & _).
    + intros i s1 _ _. destruct (H i s1) as [s2 E]. eauto.
    + eauto.
  - exists s. apply for_range_empty. lia.
Qed.

End Loops.

(** ** The converter: panics, rectangle and pixels of the result *)

Section ConverterFacts.
Context (P : Platform).
Import image.

(** On a well-formed image the block average never panics, whatever the
    rectangle: pixels outside the image read as the zero colour. *)
Lemma meanBlockColor_total img rect :
  wf img -> exists r, meanBlockColor P img rect = Some r.
Proof.
  intros W. unfold meanBlockColor.
  match goal with |- context [for_range ?a ?b ?f ?s] =>
    destruct (for_range_total a b f s) as [[lab c] E] end.
  - intros x s. apply for_range_total. intros y [lab c].
    destruct (RGBAAt_total img x y W) as [px E]. rewrite E. eauto.
  - rewrite E. eauto.
Qed.

Lemma SetRGBA_Rect p x y c p' :
  SetRGBA p x y c = Some p' -> RGBA.Rect p' = RGBA.Rect p.
Proof.
  unfold SetRGBA. destruct (negb _); [now intros [= <-]|].
  destruct (set4 _ _ _); [|discriminate]. now intros [= <-].
Qed.

Lemma SetRGBA_outside p x y c :
  In {| X := x; Y := y |} (RGBA.Rect p) = false -> SetRGBA p x y c = Some p.
Proof. unfold SetRGBA. now intros ->. Qed.

(** The palette colour that [ConvertImage] computes for column [i], row [j]. *)
Definition blockColor (img : RGBA.t) (method : Method) (i j : Z) : color.RGBA :=
  match meanBlockColor P img (blockRect P img i j) with
  | Some (colorEstimate, rgbEstimate) =>
      C64Color (closestC64Color P colorEstimate rgbEstimate method)
  | None => color.zero
  end.

Lemma convertBlock_Rect img method j i t t' :
  convertBlock P img method j i t = Some t' -> RGBA.Rect t' = RGBA.Rect t.
Proof.
  unfold convertBlock. destruct (meanBlockColor _ _ _) as [[lab c]|]; [|discriminate].
  destruct (SetRGBA t _ _ _) as [t1|] eqn:E1; [|discriminate].
  intros E2. rewrite (SetRGBA_Rect _ _ _ _ _ E2). exact (SetRGBA_Rect _ _ _ _ _ E1).
Qed.

(** One block: both writes succeed, and they are the only pixels changed. *)
Lemma convertBlock_spec img method j i t :
  wf img -> wf t ->
  exists t', convertBlock P img method j i t = Some t' /\ wf t' /\
    RGBA.Rect t' = RGBA.Rect t /\
    forall x y,
      RGBAAt t' x y =
        if In {| X := x; Y := y |} (RGBA.Rect t) && (y =? j)
           && ((x =? i * 2) || (x =? i * 2 + 1))
        then Some (blockColor img method i j) else RGBAAt t x y.
Proof.
  intros Wi Wt. unfold convertBlock, blockColor.
  destruct (meanBlockColor_total img (blockRect P img i j) Wi) as [[lab c] E].
  rewrite E. set (col := C64Color _).
  destruct (SetRGBA_spec t (i * 2) j col Wt) as (t1 & E1 & W1 & R1 & A1).
  destruct (SetRGBA_spec t1 (i * 2 + 1) j col W1) as (t2 & E2 & W2 & R2 & A2).
  rewrite E1, E2. exists t2. split; [reflexivity|]. split; [exact W2|].
  split; [congruence|].
  intros x y. rewrite A2, A1, R1.
  destruct (In {| X := x; Y := y |} (RGBA.Rect t)) eqn:I;
    destruct (Z.eqb_spec y j) as [Ey|Ey]; cbn [andb];
    destruct (Z.eqb_spec x (i * 2)) as [Ex|Ex];
    destruct (Z.eqb_spec x (i * 2 + 1)) as [Q|Q];
    rewrite ?andb_false_r, ?andb_true_r; cbn [andb orb];
    try reflexivity; try lia.
  all: subst; rewrite ?I; cbn [andb]; reflexivity.
Qed.

Lemma In_target h x y :
  0 <= h ->
  In {| X := x; Y := y |} (Rect 0 0 320 h) = true <-> 0 <= x < 320 /\ 0 <= y < h.
Proof.
  intros Hh. rewrite In_spec.
  destruct (Rect_canonical 0 0 320 h) as (-> & -> & -> & ->). lia.
Qed.

(** The result of the conversion with [columns] iterations of the column
    loop: it exists when the target grid can be allocated, it is the
    well-formed image of that rectangle, and the pixels of every column
    pair that the loop reached hold the colour of their block. *)
Lemma convertColumns_spec columns img method :
  wf img -> 0 <= columns ->
  0 <= targetHeight P img -> 4 * 320 * targetHeight P img <= GoInt.maxInt ->
  exists out, convertColumns P columns img method = Some out /\ wf out /\
    RGBA.Rect out = Rect 0 0 targetWidth (targetHeight P img) /\
    forall x y, 0 <= x < 320 -> x < 2 * columns -> 0 <= y < targetHeight P img ->
      RGBAAt out x y = Some (blockColor img method (x / 2) y).
Proof.
  intros Wi Hc Hh Hlen. unfold convertColumns, targetWidth.
  set (h := targetHeight P img) in *.
  destruct (NewRGBA_spec h) as (t0 & E0 & W0 & R0 & _);
    [unfold GoInt.maxInt in *; lia | assumption |].
  rewrite E0.
  set (R := Rect 0 0 320 h) in *.
  pose (done := fun (j i x y : Z) =>
    0 <= x < 320 /\ 0 <= y < h /\ (y < j /\ x < 2 * columns \/ y = j /\ x < 2 * i)).
  pose (Inv := fun (j i : Z) (t : RGBA.t) =>
    wf t /\ RGBA.Rect t = R /\
    forall x y, done j i x y ->
      RGBAAt t x y = Some (blockColor img method (x / 2) y)).
  destruct (for_range_invariant (fun j => Inv j 0) 0 h
              (fun j => for_range 0 columns (convertBlock P img method j)) t0)
    as (out & E & W & Rout & A).
  - assumption.
  - split; [exact W0|]. split; [exact R0|]. intros x y D. unfold done in D. lia.
  - intros j t Hj Ij.
    destruct (for_range_invariant (Inv j) 0 columns
                (convertBlock P img method j) t Hc Ij) as (t' & E & W & Rt & A).
    + intros i t1 Hi (W1 & R1 & A1).
      destruct (convertBlock_spec img method j i t1 Wi W1) as (t2 & E2 & W2 & R2 & A2).
      exists t2. split; [exact E2|]. split; [exact W2|]. split; [congruence|].
      intros x y D. rewrite A2, R1.
      destruct D as (Dx & Dy & D).
      assert (I : In {| X := x; Y := y |} R = true) by (apply In_target; lia).
      rewrite I. cbn [andb].
      destruct (Z.eqb_spec y j) as [Ey|Ey]; cbn [andb];
        destruct (Z.eqb_spec x (i * 2)) as [Ex|Ex];
        destruct (Z.eqb_spec x (i * 2 + 1)) as [Ex'|Ex']; cbn [orb];
        try lia.
      * rewrite <- (Z.div_unique x 2 i 0) by lia. now subst.
      * rewrite <- (Z.div_unique x 2 i 1) by lia. now subst.
      * apply A1. unfold done. lia.
      * apply A1. unfold done. lia.
      * apply A1. unfold done. lia.
      * apply A1. unfold done. lia.
    + exists t'. split; [exact E|]. split; [exact W|]. split; [exact Rt|].
      intros x y D. apply A. unfold done in *. lia.
  - exists out. split; [exact E|]. split; [exact W|]. split; [exact Rout|].
    intros x y Hx Hx' Hy. apply A. unfold done. lia.
Qed.

End ConverterFacts.

(** ** Inputs to evaluate the code on *)

(** A platform for evaluating the code where only the IEEE operations and the
    documented special cases of [math] matter: squares are exact products
    (as in Go, whose [Pow] multiplies for integer exponents), the functions
    keep their value at zero, and a conversion of a number that [int] or
    [uint8] cannot represent gives the minimum integer, truncated for
    [uint8], as on amd64. *)
Definition samplePlatform : Platform := {|
  Pow := fun x y => if (y =? 2)%float then (x * x)%float else nan;
  Sin := fun x => if (x =? 0)%float then x else nan;
  Cos := fun x => if (x =? 0)%float then 1%float else nan;
  Exp := fun x => if (x =? 0)%float then 1%float else nan;
  Atan2 := fun y x => if (y =? 0)%float && (0 <? x)%float then y else nan;
  int_unrepresentable := fun _ => GoInt.minInt;
  uint8_unrepresentable := fun _ => 0
|}.

(** The image of [w] by [h] pixels, all of colour [c], as [LoadImage] builds
    it: rows of [4 * w] bytes. *)
Definition uniformImage (w h : Z) (c : color.RGBA) : image.RGBA.t :=
  {| image.RGBA.Pix :=
       concat (repeat [color.R c; color.G c; color.B c; color.A c] (Z.to_nat (w * h)));
     image.RGBA.Stride := 4 * w;
     image.RGBA.Rect := {| image.Min := {| image.X := 0; image.Y := 0 |};
                           image.Max := {| image.X := w; image.Y := h |} |} |}.

Definition white : color.RGBA := color.mk 255 255 255 255.
Definition black : color.RGBA := color.mk 0 0 0 255.

Lemma length_concat_repeat4 (l : list Z) n :
  length l = 4%nat -> length (concat (repeat l n)) = (4 * n)%nat.
Proof.
  intros H. induction n as [|n IH]; [reflexivity|].
  cbn [repeat concat]. rewrite length_app, IH, H. lia.
Qed.

Lemma uniformImage_wf w h c :
  0 <= w -> 0 <= h -> 4 * w * h <= GoInt.maxInt -> w <= GoInt.maxInt -> h <= GoInt.maxInt ->
  image.wf (uniformImage w h c).
Proof.
  intros Hw Hh Hlen Hw' Hh'.
  constructor; cbn [uniformImage image.RGBA.Pix image.RGBA.Stride image.RGBA.Rect
                    image.X image.Y image.Min image.Max];
    rewrite ?Z.sub_0_r; try (unfold GoInt.minInt; lia); try assumption.
  rewrite length_concat_repeat4 by reflexivity. nia.
Qed.

(** ** The claims on the converter's grid *)

Section GridClaims.
Context (P : Platform).
Import image.

Lemma closest_from_range method color rgbColor cs i best :
  0 <= i -> 0 <= fst best <= Z.max 0 (i - 1) ->
  0 <= fst (closest_from P method color rgbColor cs i best)
    <= Z.max 0 (i + Z.of_nat (length cs) - 1).
Proof.
  revert i best. induction cs as [|c cs IH]; intros i best Hi Hb.
  - cbn [closest_from length]. lia.
  - cbn [closest_from].
    match goal with |- context [closest_from _ _ _ _ cs _ ?b] => set (best' := b) end.
    assert (Hb' : 0 <= fst best' <= Z.max 0 (i + 1 - 1)).
    { unfold best'. destruct (_ <? _)%float; cbn [fst]; lia. }
    specialize (IH (i + 1) best' ltac:(lia) Hb'). cbn [length]. lia.
Qed.

(** C4: for every method and every pair of input colours, whatever their
    components (a NaN among them too), [closestC64Color] returns an index of
    the palette, between 0 and 15. *)
Theorem closestC64Color_range (color : cielab.t float) (rgbColor : color.RGBA)
    (method : Method) :
  0 <= closestC64Color P color rgbColor method <= 15.
Proof.
  unfold closestC64Color.
  assert (H := closest_from_range method color rgbColor C64Colors 0
                 (0, infinity) (Z.le_refl 0)).
  specialize (H ltac:(cbn [fst]; lia)).
  cbn [length C64Colors] in H. lia.
Qed.

(** Past the width of the grid a block changes nothing: its two writes fall
    outside the rectangle and are dropped. *)
Lemma convertBlock_overshoot img method j i t :
  wf img -> X (Max (RGBA.Rect t)) <= 320 -> 160 <= i ->
  convertBlock P img method j i t = Some t.
Proof.
  intros Wi Hx Hi. unfold convertBlock.
  destruct (meanBlockColor_total P img (blockRect P img i j) Wi) as [[lab c] ->].
  assert (O : forall x, 320 <= x -> forall col, SetRGBA t x j col = Some t).
  { intros x Hx' col. apply SetRGBA_outside.
    destruct (In _ _) eqn:I; [|reflexivity]. apply In_spec in I. lia. }
  rewrite O by lia. apply O. lia.
Qed.

Lemma row_overshoot img method j t :
  wf img -> X (Max (RGBA.Rect t)) <= 320 ->
  for_range 0 (targetWidth + 1) (convertBlock P img method j) t =
  for_range 0 160 (convertBlock P img method j) t.
Proof.
  intros Wi Hx. unfold for_range, targetWidth.
  change (Z.to_nat (320 + 1 - 0)) with (160 + 161)%nat.
  change (Z.to_nat (160 - 0)) with 160%nat.
  rewrite for_loop_app.
  destruct (for_loop 160 0 _ t) as [t'|] eqn:E; [|reflexivity].
  apply (for_loop_skip _ _ _ _ (fun s => X (Max (RGBA.Rect s)) <= 320)).
  - apply (for_loop_preserves (fun s => X (Max (RGBA.Rect s)) <= 320) _ _ _ _ _) in E;
      [exact E | | exact Hx].
    intros i s s' Hs Es. now rewrite (convertBlock_Rect P _ _ _ _ _ _ Es).
  - intros i s Hi Hs. apply convertBlock_overshoot; [assumption..|].
    change (Z.of_nat 160) with 160 in Hi. lia.
Qed.

(** C10: the column loop runs [i] from 0 through 320, but a write for
    [i >= 160] targets [x = 2i >= 320], outside the 320 columns of the grid,
    and is dropped; so for every well-formed source image and every method
    [ConvertImage] gives what the loop bounded by [i < 160] gives, panic or
    image. *)
Theorem ConvertImage_overshoot_harmless (img : RGBA.t) (method : Method) :
  wf img ->
  (forall t i j c, X (Max (RGBA.Rect t)) = 320 -> 160 <= i ->
      SetRGBA t (i * 2) j c = Some t /\ SetRGBA t (i * 2 + 1) j c = Some t) /\
  ConvertImage P img method = convertColumns P 160 img method.
Proof.
  intros Wi. split.
  - intros t i j c Hx Hi.
    split; apply SetRGBA_outside;
      (destruct (In _ _) eqn:I; [|reflexivity]); apply In_spec in I; lia.
  - unfold ConvertImage, convertColumns.
    destruct (NewRGBA _) as [t0|] eqn:E0; [|reflexivity].
    assert (R0 : X (Max (RGBA.Rect t0)) <= 320).
    { rewrite (NewRGBA_Rect _ _ E0).
      destruct (Rect_canonical 0 0 targetWidth (targetHeight P img)) as (_ & -> & _).
      unfold targetWidth. lia. }
    apply (for_range_ext (fun s : RGBA.t => X (Max (RGBA.Rect s)) <= 320));
      [exact R0 | |].
    + intros j s Hs. exact (row_overshoot img method j s Wi Hs).
    + intros j s s' Hs E.
      apply (for_range_preserves (fun s : RGBA.t => X (Max (RGBA.Rect s)) <= 320)
               _ _ _ _ _) in E; [exact E | | exact Hs].
      intros i s1 s2 H1 E1. now rewrite (convertBlock_Rect P _ _ _ _ _ _ E1).
Qed.

(** The exact ceiling of the quotient [a / b]. *)
Definition ceil_div (a b : Z) : Z := - ((- a) / b).

(** C1, as the code has it: for every well-formed source image and every
    method, when the target grid can be allocated, the output grid has width
    exactly 320 and height exactly [int(math.Ceil(320 / (W / H)))] with both
    quotients computed in float64, rounded to nearest; its buffer holds
    [4 * 320 * height] bytes in rows of [4 * 320]. *)
Theorem ConvertImage_dimensions (img : RGBA.t) (method : Method) :
  wf img ->
  0 <= targetHeight P img -> 4 * 320 * targetHeight P img <= GoInt.maxInt ->
  exists out, ConvertImage P img method = Some out /\
    RGBA.Rect out = {| Min := {| X := 0; Y := 0 |};
                       Max := {| X := 320; Y := targetHeight P img |} |} /\
    RGBA.Stride out = 4 * 320 /\
    Z.of_nat (length (RGBA.Pix out)) = 4 * 320 * targetHeight P img /\
    targetHeight P img =
      int_of_float64 P
        (F64.Ceil (F64.of_int 320 /
                   (F64.of_int (Dx (RGBA.Rect img)) / F64.of_int (Dy (RGBA.Rect img))))%float).
Proof.
  intros Wi Hh Hlen.
  destruct (convertColumns_spec P (targetWidth + 1) img method Wi
              ltac:(unfold targetWidth; lia) Hh Hlen) as (out & E & W & R & _).
  exists out. split; [exact E|].
  assert (R' : RGBA.Rect out = {| Min := {| X := 0; Y := 0 |};
                                  Max := {| X := 320; Y := targetHeight P img |} |}).
  { rewrite R. unfold Rect, targetWidth.
    destruct (Z.gtb_spec 0 (targetHeight P img)); [lia|reflexivity]. }
  split; [exact R'|].
  destruct W. rewrite wf_stride0, wf_pix0, R'. cbn [X Y Min Max].
  rewrite !Z.sub_0_r. repeat split.
Qed.

(** C2: in the output grid the pixel at each even column [2k] equals the
    pixel at the odd column [2k+1] of the same row, for every row [j] and
    every [k] with [0 <= 2k+1 < 320]. *)
Theorem ConvertImage_pixel_doubling (img : RGBA.t) (method : Method) :
  wf img ->
  0 <= targetHeight P img -> 4 * 320 * targetHeight P img <= GoInt.maxInt ->
  exists out, ConvertImage P img method = Some out /\
    forall j k, 0 <= 2 * k + 1 < 320 ->
      RGBAAt out (2 * k) j = RGBAAt out (2 * k + 1) j.
Proof.
  intros Wi Hh Hlen.
  destruct (convertColumns_spec P (targetWidth + 1) img method Wi
              ltac:(unfold targetWidth; lia) Hh Hlen) as (out & E & W & R & A).
  exists out. split; [exact E|]. intros j k Hk.
  destruct (Z_lt_le_dec j 0) as [Hj|Hj];
    [|destruct (Z_lt_le_dec j (targetHeight P img)) as [Hj'|Hj']].
  - unfold RGBAAt. rewrite R.
    destruct (In {| X := 2 * k; Y := j |} _) eqn:I1;
      [apply In_target in I1; lia|].
    destruct (In {| X := 2 * k + 1; Y := j |} _) eqn:I2;
      [apply In_target in I2; lia|]. reflexivity.
  - unfold targetWidth in A. rewrite !A by lia.
    rewrite <- (Z.div_unique (2 * k) 2 k 0) by lia.
    now rewrite <- (Z.div_unique (2 * k + 1) 2 k 1) by lia.
  - unfold RGBAAt. rewrite R.
    destruct (In {| X := 2 * k; Y := j |} _) eqn:I1;
      [apply In_target in I1; lia|].
    destruct (In {| X := 2 * k + 1; Y := j |} _) eqn:I2;
      [apply In_target in I2; lia|]. reflexivity.
Qed.

End GridClaims.

(** The image of 2 by 2 white pixels on [samplePlatform]: its target grid is
    320 by 320. *)
Lemma sample_2x2_wf : image.wf (uniformImage 2 2 white).
Proof. apply uniformImage_wf; unfold GoInt.maxInt; lia. Qed.

Lemma sample_2x2_height : targetHeight samplePlatform (uniformImage 2 2 white) = 320.
Proof. lazy. reflexivity. Qed.

Lemma ConvertImage_dimensions_witness :
  exists out, ConvertImage samplePlatform (uniformImage 2 2 white) CIE94 = Some out /\
    image.RGBA.Rect out = {| image.Min := {| image.X := 0; image.Y := 0 |};
                             image.Max := {| image.X := 320; image.Y := 320 |} |}.
Proof.
  destruct (ConvertImage_dimensions samplePlatform (uniformImage 2 2 white) CIE94
              sample_2x2_wf) as (out & E & R & _).
  - rewrite sample_2x2_height. lia.
  - rewrite sample_2x2_height. unfold GoInt.maxInt. lia.
  - exists out. split; [exact E|]. now rewrite R, sample_2x2_height.
Defined.

Lemma ConvertImage_pixel_doubling_witness :
  exists out, ConvertImage samplePlatform (uniformImage 2 2 white) CIE94 = Some out /\
    image.RGBAAt out 6 9 = image.RGBAAt out 7 9.
Proof.
  destruct (ConvertImage_pixel_doubling samplePlatform (uniformImage 2 2 white) CIE94
              sample_2x2_wf) as (out & E & D).
  - rewrite sample_2x2_height. lia.
  - rewrite sample_2x2_height. unfold GoInt.maxInt. lia.
  - exists out. split; [exact E|]. apply (D 9 3). lia.
Defined.

Lemma ConvertImage_overshoot_harmless_witness :
  ConvertImage samplePlatform (uniformImage 2 2 white) CIE94 =
  convertColumns samplePlatform 160 (uniformImage 2 2 white) CIE94.
Proof.
  exact (proj2 (ConvertImage_overshoot_harmless samplePlatform
                  (uniformImage 2 2 white) CIE94 sample_2x2_wf)).
Defined.

(** C1 fails as stated: a source of 640 by 488 pixels gives a grid of 245
    rows, one more than the exact [ceil(320 * 488 / 640) = 244], because
    [640 / 488] and then [320 / 1.3114...] are rounded to float64 and the
    second quotient lands just above 244. *)
Lemma ConvertImage_height_640x488 :
  exists out,
    ConvertImage samplePlatform (uniformImage 640 488 white) RGBMethod = Some out /\
    image.Dy (image.RGBA.Rect out) = 245 /\
    ceil_div (320 * 488) 640 = 244.
Proof.
  assert (W : image.wf (uniformImage 640 488 white))
    by (apply uniformImage_wf; unfold GoInt.maxInt; lia).
  assert (H : targetHeight samplePlatform (uniformImage 640 488 white) = 245)
    by (lazy; reflexivity).
  destruct (convertColumns_spec samplePlatform (targetWidth + 1)
              (uniformImage 640 488 white) RGBMethod W) as (out & E & _ & R & _).
  - unfold targetWidth. lia.
  - rewrite H. lia.
  - rewrite H. unfold GoInt.maxInt. lia.
  - exists out. split; [exact E|]. rewrite R, H. split; reflexivity.
Qed.

(** ** binary64 facts *)

Section Binary64Facts.
#[local] Open Scope float_scope.

(** A finite number minus itself is +0. *)
Lemma sub_self (x : float) : F64.is_finite x = true -> x - x = 0.
Proof.
  unfold F64.is_finite. intros H.
  apply Prim2SF_inj. rewrite sub_spec.
  destruct (Prim2SF x) as [s|s| |s m e]; try discriminate.
  - now destruct s.
  - cbn. rewrite Z.min_id. unfold shl_align. rewrite !Z.sub_diag. reflexivity.
Qed.

Lemma is_finite_not_nan (x : float) : F64.is_finite x = true -> F64.is_nan x = false.
Proof. unfold F64.is_finite, F64.is_nan. now destruct (Prim2SF x). Qed.

(** The integers [lo, lo + n), for properties checked by evaluation. *)
Definition Zrange (lo : Z) (n : nat) : list Z :=
  map (fun k => (lo + Z.of_nat k)%Z) (seq 0 n).

Lemma forallb_Zrange (p : Z -> bool) lo n :
  forallb p (Zrange lo n) = true ->
  forall z, (lo <= z < lo + Z.of_nat n)%Z -> p z = true.
Proof.
  intros H z Hz. rewrite forallb_forall in H. apply H.
  unfold Zrange. apply in_map_iff. exists (Z.to_nat (z - lo)).
  split; [lia|]. apply in_seq. lia.
Qed.


Lemma square_small_exact (n : Z) :
  (-255 <= n <= 255)%Z -> F64.of_int n * F64.of_int n = F64.of_int (n * n).
Proof.
  intros H. apply Leibniz.eqb_spec.
  apply (forallb_Zrange
           (fun n => Leibniz.eqb (F64.of_int n * F64.of_int n) (F64.of_int (n * n)))
           (-255) 511);
    [vm_compute; reflexivity | lia].
Qed.

End Binary64Facts.

(** ** The assumptions on [math.Pow]

    Go's documentation lists [Pow(±0, y) = +0 for finite y > 0 and not an
    odd integer] and [Pow(NaN, y) = NaN]; for an integer exponent its
    implementation multiplies, so the square of an integer as small as a
    difference of two [uint8] is exact. *)

Definition Pow_squares (P : Platform) : Prop :=
  forall n : Z, -255 <= n <= 255 -> Pow P (F64.of_int n) 2 = F64.of_int (n * n).

Definition Pow_zero (P : Platform) : Prop := Pow P 0 2 = 0%float.

Lemma Pow_squares_zero P : Pow_squares P -> Pow_zero P.
Proof. intros H. exact (H 0 ltac:(lia)). Qed.

Lemma samplePlatform_Pow_squares : Pow_squares samplePlatform.
Proof. intros n Hn. cbn. now apply square_small_exact. Qed.

(** ** The claims on the distances and the block average *)

Section DistanceClaims.
Context (P : Platform).
#[local] Instance claims_arith : Arith float := binary64 P.
#[local] Open Scope float_scope.

(** C6: [rgbDistance] of (10,20,30) and (200,190,180) is exactly 87500.0,
    [math.Pow] squaring these small integers exactly. *)
Theorem rgbDistance_anchor :
  Pow_squares P ->
  rgbDistance (color.mk 10 20 30 255) (color.mk 200 190 180 255) = 87500.
Proof.
  intros H. unfold rgbDistance.
  cbn [claims_arith binary64 mPow add sub ofZ lit color.R color.G color.B].
  replace (F64.of_Q 2) with 2 by reflexivity.
  replace (F64.of_int 10 - F64.of_int 200) with (F64.of_int (-190)) by reflexivity.
  replace (F64.of_int 20 - F64.of_int 190) with (F64.of_int (-170)) by reflexivity.
  replace (F64.of_int 30 - F64.of_int 180) with (F64.of_int (-150)) by reflexivity.
  rewrite !H by lia. reflexivity.
Qed.

(** C7: [cie76distance] is the sum of the squares of [c2.l - c1.l],
    [c2.a - c1.a] and [c2.b - c2.b]; the third difference is zero for every
    number [c2.b], so the result is the sum of the first two squares (and
    +0), and it is the same whatever the [b] components of the two colours. *)
Theorem cie76distance_ignores_b (c1 c2 : cielab.t float) :
  cie76distance c1 c2 =
    Pow P (cielab.l c2 - cielab.l c1) 2 + Pow P (cielab.a c2 - cielab.a c1) 2
    + Pow P (cielab.b c2 - cielab.b c2) 2 /\
  (Pow_zero P -> F64.is_finite (cielab.b c2) = true ->
     Pow P (cielab.b c2 - cielab.b c2) 2 = 0 /\
     cie76distance c1 c2 =
       Pow P (cielab.l c2 - cielab.l c1) 2 + Pow P (cielab.a c2 - cielab.a c1) 2 + 0 /\
     forall b1 b2, F64.is_finite b2 = true ->
       cie76distance (cielab.mk (cielab.l c1) (cielab.a c1) b1)
                     (cielab.mk (cielab.l c2) (cielab.a c2) b2)
       = cie76distance c1 c2).
Proof.
  split; [reflexivity|]. intros H0 Hb.
  unfold cie76distance.
  cbn [claims_arith binary64 mPow add sub lit cielab.l cielab.a cielab.b].
  replace (F64.of_Q 2.0) with 2 by reflexivity.
  rewrite (sub_self _ Hb), H0. repeat split.
  intros b1 b2 Hb2. now rewrite (sub_self _ Hb2), H0.
Qed.

(** C9, as the code has it: [meanBlockColor] has no guard.  For a rectangle
    of zero area no pixel is read, the pixel count is 0, and the divisions
    [0 / 0] are performed: the Lab components are NaN, the RGB channels are
    what [uint8(NaN)] gives on the platform, and no error is raised. *)
Theorem meanBlockColor_zero_area (img : image.RGBA.t) (rect : image.Rectangle) :
  image.X (image.Min rect) = image.X (image.Max rect) \/
  image.Y (image.Min rect) = image.Y (image.Max rect) ->
  meanBlockColor P img rect =
    Some (cielab.mk (0 / 0) (0 / 0) (0 / 0),
          color.mk (uint8_of_float64 P (0 / 0)) (uint8_of_float64 P (0 / 0))
                   (uint8_of_float64 P (0 / 0)) 255).
Proof.
  intros HZ. unfold meanBlockColor.
  assert (Hcount : GoInt.mul
            (GoInt.sub (image.X (image.Max rect)) (image.X (image.Min rect)))
            (GoInt.sub (image.Y (image.Max rect)) (image.Y (image.Min rect))) = 0%Z).
  { unfold GoInt.mul, GoInt.sub. destruct HZ as [-> | ->]; rewrite Z.sub_diag.
    - reflexivity.
    - change (GoInt.wrap 0) with 0%Z. now rewrite Z.mul_0_r. }
  rewrite Hcount.
  match goal with |- context [for_range ?a ?b ?f ?s] =>
    assert (E : for_range a b f s = Some s) end.
  { destruct HZ as [E | E].
    - apply for_range_empty. lia.
    - unfold for_range at 1. apply (for_loop_skip _ _ _ _ (fun _ => True)); [exact I|].
      intros x s _ _. apply for_range_empty. lia. }
  rewrite E. reflexivity.
Qed.

End DistanceClaims.

Lemma rgbDistance_anchor_witness :
  rgbDistance (AF := binary64 samplePlatform)
    (color.mk 10 20 30 255) (color.mk 200 190 180 255) = 87500%float.
Proof. exact (rgbDistance_anchor samplePlatform samplePlatform_Pow_squares). Defined.

Lemma cie76distance_ignores_b_witness :
  cie76distance (AF := binary64 samplePlatform)
    (cielab.mk 50 10 (-20))%float (cielab.mk 60 (-5) 30)%float =
  cie76distance (AF := binary64 samplePlatform)
    (cielab.mk 50 10 7)%float (cielab.mk 60 (-5) (-3))%float.
Proof.
  destruct (cie76distance_ignores_b samplePlatform
              (cielab.mk 50 10 7)%float (cielab.mk 60 (-5) (-3))%float) as [_ H].
  destruct (H eq_refl eq_refl) as (_ & _ & I).
  exact (I (-20)%float 30%float eq_refl).
Defined.

Lemma meanBlockColor_zero_area_witness :
  meanBlockColor samplePlatform (uniformImage 2 2 white) (image.Rect 1 0 1 2) =
  Some (cielab.mk nan nan nan, black).
Proof.
  exact (meanBlockColor_zero_area samplePlatform (uniformImage 2 2 white)
           (image.Rect 1 0 1 2) (or_introl eq_refl)).
Defined.

(** C9 fails as stated: the block of column 3, row 4 of a source of 200 by
    200 pixels is empty (its block width is 1, so the rectangle spans
    [3 <= x < 3]), and [meanBlockColor] returns for it the quotients
    [0 / 0], NaN, and a colour, not an error. *)
Lemma meanBlockColor_divides_by_zero :
  image.Dx (blockRect samplePlatform (uniformImage 200 200 white) 3 4) = 0 /\
  meanBlockColor samplePlatform (uniformImage 200 200 white)
    (blockRect samplePlatform (uniformImage 200 200 white) 3 4) =
  Some ((cielab.mk (0 / 0) (0 / 0) (0 / 0))%float, black).
Proof. split; lazy; reflexivity. Qed.

(** ** The RGB method does not depend on the platform *)

Section RGBMethodFacts.
#[local] Open Scope float_scope.

Lemma sub_uint8_exact (a b : Z) :
  (0 <= a <= 255)%Z -> (0 <= b <= 255)%Z ->
  F64.of_int a - F64.of_int b = F64.of_int (a - b).
Proof.
  intros Ha Hb. apply Leibniz.eqb_spec.
  pose (p := fun a b => Leibniz.eqb (F64.of_int a - F64.of_int b) (F64.of_int (a - b))).
  change (p a b = true).
  apply (forallb_Zrange (p a) 0 256); [|lia].
  apply (forallb_Zrange (fun a => forallb (p a) (Zrange 0 256)) 0 256); [|lia].
  vm_compute. reflexivity.
Qed.

(** Under [Pow_squares] the RGB distance of two colours is the same number
    on every platform. *)
Lemma rgbDistance_platform P Q (c d : color.RGBA) :
  Pow_squares P -> Pow_squares Q -> color.wf c -> color.wf d ->
  rgbDistance (AF := binary64 P) c d = rgbDistance (AF := binary64 Q) c d.
Proof.
  intros HP HQ (Hr & Hg & Hb & _) (Hr' & Hg' & Hb' & _).
  unfold rgbDistance. cbn [binary64 mPow add sub ofZ lit].
  replace (F64.of_Q 2) with 2 by reflexivity.
  rewrite !sub_uint8_exact by assumption.
  now rewrite !HP, !HQ by lia.
Qed.

Lemma closest_from_RGB_platform P Q lab lab' rgbColor cs i best :
  Pow_squares P -> Pow_squares Q -> color.wf rgbColor -> Forall color.wf cs ->
  closest_from P RGBMethod lab rgbColor cs i best =
  closest_from Q RGBMethod lab' rgbColor cs i best.
Proof.
  intros HP HQ Hc Hcs. revert i best.
  induction Hcs as [|c cs Hw _ IH]; intros i best; [reflexivity|].
  cbn [closest_from deltaE]. cbv zeta. unfold platform_arith.
  rewrite (rgbDistance_platform P Q rgbColor c HP HQ Hc Hw). apply IH.
Qed.

Lemma C64Colors_wf : Forall color.wf C64Colors.
Proof. repeat constructor; cbn; lia. Qed.

Lemma closestC64Color_RGB_platform P Q lab lab' rgbColor :
  Pow_squares P -> Pow_squares Q -> color.wf rgbColor ->
  closestC64Color P lab rgbColor RGBMethod = closestC64Color Q lab' rgbColor RGBMethod.
Proof.
  intros HP HQ Hc. unfold closestC64Color. f_equal.
  now apply closest_from_RGB_platform; [| | |apply C64Colors_wf].
Qed.

End RGBMethodFacts.

(** ** Uniform sources *)

Section UniformSource.
Context (P : Platform).
Import image.

(** A source of one pixel: the target grid is 320 by 320, the blocks have
    width and height 0, and every block rectangle is [(-1,-1)-(0,0)], which
    lies outside the image. *)
Lemma onePixel_targetHeight c : targetHeight P (uniformImage 1 1 c) = 320.
Proof. reflexivity. Qed.

Lemma onePixel_blockRect c i j :
  blockRect P (uniformImage 1 1 c) i j =
  {| Min := {| X := -1; Y := -1 |}; Max := {| X := 0; Y := 0 |} |}.
Proof.
  unfold blockRect.
  replace (blockWidth P (uniformImage 1 1 c)) with 0 by reflexivity.
  replace (blockHeight P (uniformImage 1 1 c)) with 0 by reflexivity.
  unfold GoInt.mul. rewrite !Z.mul_0_r. reflexivity.
Qed.

Lemma onePixel_meanBlockColor c i j :
  exists lab, meanBlockColor P (uniformImage 1 1 c)
                (blockRect P (uniformImage 1 1 c) i j) = Some (lab, black).
Proof.
  rewrite onePixel_blockRect. eexists. unfold meanBlockColor.
  cbn [X Y Min Max]. unfold for_range. cbn [Z.sub Z.opp Z.add Z.to_nat Pos.to_nat
    Pos.iter_op Nat.add Z.pos_sub Z.succ_double Z.pred_double Z.double for_loop].
  replace (RGBAAt (uniformImage 1 1 c) (-1) (-1)) with (Some color.zero) by reflexivity.
  cbn [color.R color.G color.B color.zero rgb.r rgb.g rgb.b cielab.l cielab.a cielab.b].
  replace (GoInt.mul (GoInt.sub 0 (-1)) (GoInt.sub 0 (-1))) with 1 by reflexivity.
  replace (uint8_of_float64 P ((0 + F64.of_int 0) / F64.of_int 1)%float) with 0
    by reflexivity.
  reflexivity.
Qed.

End UniformSource.

Lemma white_wf : color.wf white.
Proof. unfold color.wf, white. cbn [color.R color.G color.B color.A]. lia. Qed.

Lemma black_wf : color.wf black.
Proof. unfold color.wf, black. cbn [color.R color.G color.B color.A]. lia. Qed.

(** C3 at a source of one white pixel, RGB method: white itself is in the
    palette (index 1) and is the palette colour closest to white, but the
    block width is [int(1 / 160) = 0], every block rectangle is
    [(-1,-1)-(0,0)], the one pixel averaged is the zero colour that
    [RGBAAt] returns outside the image, and all of the 320 by 320 output is
    black. *)
Theorem ConvertImage_onePixel_white (P : Platform) :
  Pow_squares P ->
  closestC64Color P (convertRGBAtoCIELAB (AF := binary64 P) white) white RGBMethod = 1 /\
  C64Color 1 = white /\
  exists out, ConvertImage P (uniformImage 1 1 white) RGBMethod = Some out /\
    forall x y, 0 <= x < 320 -> 0 <= y < 320 ->
      image.RGBAAt out x y = Some black.
Proof.
  intros HP. split; [|split; [reflexivity|]].
  - rewrite (closestC64Color_RGB_platform P samplePlatform _
               (cielab.mk 0 0 0)%float white HP samplePlatform_Pow_squares white_wf).
    vm_compute. reflexivity.
  - assert (W : image.wf (uniformImage 1 1 white))
      by (apply uniformImage_wf; unfold GoInt.maxInt; lia).
    destruct (convertColumns_spec P (targetWidth + 1) (uniformImage 1 1 white)
                RGBMethod W) as (out & E & _ & _ & A).
    + unfold targetWidth. lia.
    + rewrite onePixel_targetHeight. lia.
    + rewrite onePixel_targetHeight. unfold GoInt.maxInt. lia.
    + exists out. split; [exact E|]. intros x y Hx Hy.
      rewrite A by (rewrite ?onePixel_targetHeight; unfold targetWidth; lia).
      unfold blockColor.
      destruct (onePixel_meanBlockColor P white (x / 2) y) as [lab ->].
      rewrite (closestC64Color_RGB_platform P samplePlatform lab
                 (cielab.mk 0 0 0)%float black HP samplePlatform_Pow_squares black_wf).
      vm_compute. reflexivity.
Qed.

Lemma ConvertImage_onePixel_white_witness :
  exists out,
    ConvertImage samplePlatform (uniformImage 1 1 white) RGBMethod = Some out /\
    image.RGBAAt out 100 100 = Some black.
Proof.
  destruct (ConvertImage_onePixel_white samplePlatform samplePlatform_Pow_squares)
    as (_ & _ & out & E & A).
  exists out. split; [exact E|]. apply A; lia.
Defined.

(** ** Signs and underflow of the IEEE operations

    The operations of [spec_float] round with [binary_round_aux]; it keeps
    the sign it is given, it never makes a NaN of a positive mantissa, and it
    rounds to zero only below the least subnormal magnitude. *)

Section Rounding.

(** [x] is NaN or carries the sign [s]. *)
Definition signed (s : bool) (x : spec_float) : Prop :=
  match x with
  | S754_nan => True
  | S754_zero s' | S754_infinity s' | S754_finite s' _ _ => s' = s
  end.


Lemma binary_round_aux_signed sx mx ex lx :
  signed sx (binary_round_aux prec emax sx mx ex lx).
Proof.
  unfold binary_round_aux.
  destruct (shr_fexp _ _ mx ex lx) as [mrs' e'].
  destruct (shr_fexp _ _ _ e' loc_Exact) as [mrs'' e''].
  destruct (shr_m mrs''); [reflexivity| |exact I].
  destruct (_ <=? _)%Z; reflexivity.
Qed.

Lemma binary_round_signed sx mx ex : signed sx (binary_round prec emax sx mx ex).
Proof.
  unfold binary_round. destruct (shl_align _ _ _) as [mz ez].
  apply binary_round_aux_signed.
Qed.

Lemma SFmul_self_signed x : signed false (SF64mul x x).
Proof.
  unfold SF64mul, SFmul.
  destruct x as [s|s| |s m e]; try (now destruct s); [exact I|].
  rewrite xorb_nilpotent. apply binary_round_aux_signed.
Qed.

Lemma SFadd_signed x y :
  signed false x -> signed false y -> signed false (SF64add x y).
Proof.
  unfold SF64add, SFadd.
  destruct x as [s|s| |s m e], y as [s'|s'| |s' m' e']; cbn [signed];
    intros Hx Hy; subst; try exact I; try reflexivity.
  cbn [cond_Zopp Z.add binary_normalize]. apply binary_round_signed.
Qed.


Lemma signed_not_negative x : signed false x -> SFltb x (S754_zero false) = false.
Proof. destruct x as [s|s| |s m e]; cbn; intros H; subst; reflexivity. Qed.

Lemma signed_nonneg x :
  signed false x -> x = S754_nan \/ SFleb (S754_zero false) x = true.
Proof.
  destruct x as [s|s| |s m e]; cbn; intros H; subst; auto.
Qed.

(** *** Mantissas under right shifts *)

Lemma iter_pos_invariant {A} (I : A -> Prop) (f : A -> A) :
  (forall x, I x -> I (f x)) -> forall n x, I x -> I (SpecFloat.iter_pos f n x).
Proof.
  intros Hf. induction n as [n IH|n IH|]; intros x Hx; cbn [SpecFloat.iter_pos]; auto.
Qed.

Lemma shr_1_m mrs : (0 <= shr_m mrs)%Z -> shr_m (shr_1 mrs) = Z.shiftr (shr_m mrs) 1.
Proof.
  destruct mrs as [m r s]. cbn [shr_m]. intros H.
  destruct m as [|[p|p|]|p]; try lia; try reflexivity.
Qed.

Lemma shr_1_nonneg mrs : (0 <= shr_m mrs)%Z -> (0 <= shr_m (shr_1 mrs))%Z.
Proof.
  intros H. rewrite (shr_1_m _ H). now apply Z.shiftr_nonneg.
Qed.

Lemma iter_shr_1_m n mrs :
  (0 <= shr_m mrs)%Z ->
  shr_m (SpecFloat.iter_pos shr_1 n mrs) = Z.shiftr (shr_m mrs) (Z.pos n).
Proof.
  revert mrs. induction n as [n IH|n IH|]; intros mrs H; cbn [SpecFloat.iter_pos].
  - rewrite IH by (apply (iter_pos_invariant _ _ shr_1_nonneg), shr_1_nonneg, H).
    rewrite IH by now apply shr_1_nonneg.
    rewrite (shr_1_m _ H), !Z.shiftr_shiftr by lia. f_equal. lia.
  - rewrite IH by (apply (iter_pos_invariant _ _ shr_1_nonneg), H).
    rewrite IH by assumption.
    rewrite Z.shiftr_shiftr by lia. f_equal. lia.
  - now apply shr_1_m.
Qed.

Lemma shr_m_nonneg mrs e n :
  (0 <= shr_m mrs)%Z -> (0 <= shr_m (fst (shr mrs e n)))%Z.
Proof.
  intros H. destruct n as [|p|p]; cbn [shr fst]; try assumption.
  now apply (iter_pos_invariant _ _ shr_1_nonneg).
Qed.

Lemma shr_record_of_loc_m m l : shr_m (shr_record_of_loc m l) = m.
Proof. now destruct l as [|[]]. Qed.

Lemma round_nearest_even_ge m l : (m <= round_nearest_even m l)%Z.
Proof.
  destruct l as [|[]]; cbn [round_nearest_even]; try lia.
  destruct (Z.even m); lia.
Qed.

(** A positive mantissa never rounds to NaN. *)
Lemma binary_round_aux_not_nan sx m ex lx :
  binary_round_aux prec emax sx (Z.pos m) ex lx <> S754_nan.
Proof.
  unfold binary_round_aux, shr_fexp.
  destruct (shr _ ex _) as [mrs' e'] eqn:E1.
  destruct (shr _ e' _) as [mrs'' e''] eqn:E2.
  assert (H1 : (0 <= shr_m mrs')%Z).
  { change mrs' with (fst (mrs', e')). rewrite <- E1. apply shr_m_nonneg.
    rewrite shr_record_of_loc_m. lia. }
  assert (H2 : (0 <= shr_m mrs'')%Z).
  { change mrs'' with (fst (mrs'', e'')). rewrite <- E2. apply shr_m_nonneg.
    rewrite shr_record_of_loc_m.
    pose proof (round_nearest_even_ge (shr_m mrs') (loc_of_shr_record mrs')). lia. }
  destruct (shr_m mrs''); [discriminate| |lia].
  destruct (_ <=? _)%Z; discriminate.
Qed.

(** *** No underflow *)

Lemma digits2_pos_size p : digits2_pos p = Pos.size p.
Proof. induction p as [p IH|p IH|]; cbn; now rewrite ?IH. Qed.

Lemma Zdigits2_log2 p : Zdigits2 (Z.pos p) = (Z.log2 (Z.pos p) + 1)%Z.
Proof.
  cbn [Zdigits2]. rewrite digits2_pos_size.
  destruct p as [p|p|]; cbn [Z.log2 Pos.size]; lia.
Qed.

Lemma shiftr_positive m n :
  (0 < m)%Z -> (0 <= n <= Z.log2 m)%Z -> (1 <= Z.shiftr m n)%Z.
Proof.
  intros Hm Hn. rewrite Z.shiftr_div_pow2 by lia.
  pose proof (Z.log2_spec m Hm) as [L _].
  assert (2 ^ n <= 2 ^ Z.log2 m)%Z by (apply Z.pow_le_mono_r; lia).
  assert (0 < 2 ^ n)%Z by (apply Z.pow_pos_nonneg; lia).
  assert (0 < m / 2 ^ n)%Z by (apply Z.div_str_pos; lia). lia.
Qed.




End Rounding.

(** ** Positive weights *)

Section PositiveWeights.
#[local] Open Scope float_scope.










End PositiveWeights.

(** ** Distances in binary64: self-distance and sign *)

Section Binary64Distances.
Context (P : Platform).
#[local] Instance b64_arith : Arith float := binary64 P.
#[local] Open Scope float_scope.

(** [x] is NaN or [0 <= x]. *)
Definition not_negative (x : float) : Prop :=
  F64.is_nan x = true \/ (0 <=? x) = true.

Lemma signed_not_negative_float x :
  signed false (Prim2SF x) -> (x <? 0) = false /\ not_negative x.
Proof.
  intros S. split.
  - rewrite ltb_spec. now apply signed_not_negative.
  - unfold not_negative, F64.is_nan. rewrite leb_spec.
    destruct (signed_nonneg _ S) as [-> | H]; auto.
Qed.

Lemma sum_of_squares_signed (x y z : float) :
  signed false (Prim2SF (x * x + y * y + z * z)).
Proof.
  rewrite !add_spec, !mul_spec.
  repeat apply SFadd_signed; apply SFmul_self_signed.
Qed.

(** [cie94distance] is a sum of three squares: never negative. *)
Lemma cie94distance_not_negative (c1 c2 : cielab.t float) :
  (cie94distance c1 c2 <? 0) = false /\ not_negative (cie94distance c1 c2).
Proof.
  apply signed_not_negative_float. unfold cie94distance. cbv zeta.
  cbn [b64_arith binary64 add mul]. apply sum_of_squares_signed.
Qed.




End Binary64Distances.

(** * Further properties of the code *)

(** ** Loops whose bodies agree on the range they run over *)

Section LoopRanges.
Context {S : Type}.

Lemma for_loop_ext_in n lo (body1 body2 : Z -> S -> option S) s :
  (forall i s, lo <= i < lo + Z.of_nat n -> body1 i s = body2 i s) ->
  for_loop n lo body1 s = for_loop n lo body2 s.
Proof.
  revert lo s. induction n as [|n IH]; intros lo s H; [reflexivity|].
  cbn [for_loop]. rewrite <- (H lo s) by lia.
  destruct (body1 lo s) as [s1|]; [|reflexivity].
  apply IH. intros i s' Hi. apply H. lia.
Qed.

Lemma for_range_ext_in lo hi (body1 body2 : Z -> S -> option S) s :
  (forall i s, lo <= i < hi -> body1 i s = body2 i s) ->
  for_range lo hi body1 s = for_range lo hi body2 s.
Proof. intros H. apply for_loop_ext_in. intros i s' Hi. apply H. lia. Qed.

End LoopRanges.

(** ** What the conversion reads of its source *)

Section BlockLocality.
Context (P : Platform).
Import image.

(** The block average reads the pixels of its rectangle and nothing else. *)
Lemma meanBlockColor_ext img img' rect :
  (forall x y, In {| X := x; Y := y |} rect = true ->
               RGBAAt img x y = RGBAAt img' x y) ->
  meanBlockColor P img rect = meanBlockColor P img' rect.
Proof.
  intros H. unfold meanBlockColor.
  match goal with
  | |- match ?a with _ => _ end = match ?b with _ => _ end =>
      assert (E : a = b); [|rewrite E; reflexivity]
  end.
  apply for_range_ext_in. intros x s Hx.
  apply for_range_ext_in. intros y [lab c] Hy.
  rewrite (H x y); [reflexivity|]. apply In_spec. lia.
Qed.

(** The geometry of the conversion depends on the source's rectangle only. *)
Lemma targetHeight_Rect img img' :
  RGBA.Rect img = RGBA.Rect img' -> targetHeight P img = targetHeight P img'.
Proof. unfold targetHeight. now intros ->. Qed.

Lemma blockRect_Rect img img' i j :
  RGBA.Rect img = RGBA.Rect img' -> blockRect P img i j = blockRect P img' i j.
Proof.
  intros E. unfold blockRect, blockWidth, blockHeight.
  now rewrite (targetHeight_Rect _ _ E), E.
Qed.

Lemma convertColumns_ext columns img img' method :
  RGBA.Rect img = RGBA.Rect img' ->
  (forall i j, 0 <= i < columns -> 0 <= j < targetHeight P img ->
     meanBlockColor P img (blockRect P img i j)
     = meanBlockColor P img' (blockRect P img i j)) ->
  convertColumns P columns img method = convertColumns P columns img' method.
Proof.
  intros E H. unfold convertColumns.
  rewrite <- (targetHeight_Rect _ _ E).
  destruct (NewRGBA _) as [t0|]; [|reflexivity].
  apply for_range_ext_in. intros j t Hj.
  apply for_range_ext_in. intros i t' Hi.
  unfold convertBlock. rewrite <- (blockRect_Rect _ _ i j E).
  now rewrite (H i j Hi Hj).
Qed.

(** The column loop of [ConvertImage] runs to 320, but from 160 on its
    writes are dropped. *)
Lemma ConvertImage_columns img method :
  wf img -> ConvertImage P img method = convertColumns P 160 img method.
Proof.
  intros Wi. unfold ConvertImage, convertColumns.
  destruct (NewRGBA _) as [t0|] eqn:E0; [|reflexivity].
  assert (R0 : X (Max (RGBA.Rect t0)) <= 320).
  { rewrite (NewRGBA_Rect _ _ E0).
    destruct (Rect_canonical 0 0 targetWidth (targetHeight P img)) as (_ & -> & _).
    unfold targetWidth. lia. }
  apply (for_range_ext (fun s : RGBA.t => X (Max (RGBA.Rect s)) <= 320));
    [exact R0 | |].
  - intros j s Hs. exact (row_overshoot P img method j s Wi Hs).
  - intros j s s' Hs E.
    apply (for_range_preserves (fun s : RGBA.t => X (Max (RGBA.Rect s)) <= 320)
             _ _ _ _ _) in E; [exact E | | exact Hs].
    intros i s1 s2 H1 E1. now rewrite (convertBlock_Rect P _ _ _ _ _ _ E1).
Qed.

(** The source pixels that the conversion averages: those of the block
    rectangles of the 160 columns and [targetHeight] rows of blocks. *)
Definition sampled (img : RGBA.t) (u v : Z) : Prop :=
  exists i j, 0 <= i < 160 /\ 0 <= j < targetHeight P img /\
    In {| X := u; Y := v |} (blockRect P img i j) = true.

Lemma ConvertImage_ext img img' method :
  wf img -> wf img' -> RGBA.Rect img = RGBA.Rect img' ->
  (forall u v, sampled img u v -> RGBAAt img u v = RGBAAt img' u v) ->
  ConvertImage P img method = ConvertImage P img' method.
Proof.
  intros W W' E H. rewrite !ConvertImage_columns by assumption.
  apply convertColumns_ext; [exact E|].
  intros i j Hi Hj. apply meanBlockColor_ext. intros u v I.
  apply H. exists i, j. auto.
Qed.

(** X4: two well-formed sources with the same rectangle that agree on the
    sampled pixels are converted to the same grid, or both conversions
    panic: nothing else of the source is read. *)
Theorem ConvertImage_reads_sampled_pixels (img img' : RGBA.t) (method : Method) :
  wf img -> wf img' -> RGBA.Rect img = RGBA.Rect img' ->
  (forall u v, sampled img u v -> RGBAAt img u v = RGBAAt img' u v) ->
  ConvertImage P img method = ConvertImage P img' method.
Proof. apply ConvertImage_ext. Qed.

(** X3: every pixel of the output grid holds one of the sixteen palette
    colours, the one that [closestC64Color] selects for the mean colour of
    the pixel's block; the grid holds no other colour. *)
Theorem ConvertImage_palette_only (img : RGBA.t) (method : Method) :
  wf img ->
  0 <= targetHeight P img -> 4 * 320 * targetHeight P img <= GoInt.maxInt ->
  exists out, ConvertImage P img method = Some out /\
    forall x y, 0 <= x < 320 -> 0 <= y < targetHeight P img ->
      exists lab rgbMean,
        meanBlockColor P img (blockRect P img (x / 2) y) = Some (lab, rgbMean) /\
        RGBAAt out x y = Some (C64Color (closestC64Color P lab rgbMean method)) /\
        List.In (C64Color (closestC64Color P lab rgbMean method)) C64Colors.
Proof.
  intros Wi Hh Hlen.
  destruct (convertColumns_spec P (targetWidth + 1) img method Wi
              ltac:(unfold targetWidth; lia) Hh Hlen) as (out & E & _ & _ & A).
  exists out. split; [exact E|]. intros x y Hx Hy.
  destruct (meanBlockColor_total P img (blockRect P img (x / 2) y) Wi) as [[lab c] M].
  exists lab, c. split; [exact M|]. split.
  - rewrite A by (unfold targetWidth; lia). unfold blockColor. now rewrite M.
  - unfold C64Color. apply nth_In.
    pose proof (closest_from_range P method lab c C64Colors 0 (0, infinity)
                  (Z.le_refl 0) ltac:(cbn [fst]; lia)) as R.
    cbn [length C64Colors] in R |- *. unfold closestC64Color. lia.
Qed.

End BlockLocality.

Lemma ConvertImage_palette_only_witness :
  exists out, ConvertImage samplePlatform (uniformImage 2 2 white) CIE94 = Some out /\
    exists c, List.In c C64Colors /\ image.RGBAAt out 6 9 = Some c.
Proof.
  destruct (ConvertImage_palette_only samplePlatform (uniformImage 2 2 white) CIE94
              sample_2x2_wf) as (out & E & A).
  - rewrite sample_2x2_height. lia.
  - rewrite sample_2x2_height. unfold GoInt.maxInt. lia.
  - exists out. split; [exact E|].
    destruct (A 6 9) as (lab & c & _ & R & I).
    + lia.
    + rewrite sample_2x2_height. lia.
    + eexists. split; [exact I|exact R].
Defined.

(** ** The order of binary64 that [<] computes *)

Section FloatOrder.

(** A key that sorts the numbers as [SFcompare] does: class, exponent,
    mantissa; a NaN has none. *)
Definition order_key (x : spec_float) : option (Z * Z * Z) :=
  match x with
  | S754_nan => None
  | S754_infinity true => Some (-2, 0, 0)
  | S754_finite true m e => Some (-1, - e, - Z.pos m)
  | S754_zero _ => Some (0, 0, 0)
  | S754_finite false m e => Some (1, e, Z.pos m)
  | S754_infinity false => Some (2, 0, 0)
  end.

Definition key_lt (a b : Z * Z * Z) : Prop :=
  fst (fst a) < fst (fst b) \/
  fst (fst a) = fst (fst b) /\
    (snd (fst a) < snd (fst b) \/ snd (fst a) = snd (fst b) /\ snd a < snd b).

Ltac key_yes :=
  split; [intros _; eexists _, _; split; [reflexivity|split; [reflexivity|cbn [fst snd]; lia]]
         |intros _; reflexivity].

Ltac key_no :=
  split; [intros Q; discriminate Q
         |intros (a & b & Ea & Eb & L); try discriminate Ea; try discriminate Eb;
          injection Ea as <-; injection Eb as <-; cbn [fst snd] in L; lia].

Lemma SFltb_key x y :
  SFltb x y = true <->
  exists a b, order_key x = Some a /\ order_key y = Some b /\ key_lt a b.
Proof.
  unfold SFltb, SFcompare, key_lt.
  destruct x as [sx|sx| |sx mx ex], y as [sy|sy| |sy my ey];
    try destruct sx; try destruct sy; cbn [order_key]; cbv beta iota;
    try (first [key_yes | key_no]).
  - (* both negative *)
    change (PosDef.Pos.compare_cont Eq mx my) with (Pos.compare mx my).
    destruct (Z.compare_spec ex ey) as [E|E|E]; cbv beta iota;
      [|key_no|key_yes].
    destruct (Pos.compare_spec mx my) as [M|M|M]; cbn [CompOpp]; cbv beta iota;
      [key_no|key_no|key_yes].
  - (* both positive *)
    change (PosDef.Pos.compare_cont Eq mx my) with (Pos.compare mx my).
    destruct (Z.compare_spec ex ey) as [E|E|E]; cbv beta iota;
      [|key_yes|key_no].
    destruct (Pos.compare_spec mx my) as [M|M|M]; cbv beta iota;
      [key_no|key_yes|key_no].
Qed.

Lemma key_lt_trans a b c : key_lt a b -> key_lt b c -> key_lt a c.
Proof. unfold key_lt. lia. Qed.

Lemma key_lt_total a b : key_lt a b \/ a = b \/ key_lt b a.
Proof.
  destruct a as [[a1 a2] a3], b as [[b1 b2] b3]. unfold key_lt. cbn [fst snd].
  destruct (Z.lt_total a1 b1) as [?|[?|?]]; [lia| |lia].
  destruct (Z.lt_total a2 b2) as [?|[?|?]]; [lia| |lia].
  destruct (Z.lt_total a3 b3) as [?|[?|?]]; [lia| |lia].
  right; left. congruence.
Qed.

Lemma order_key_nan x : order_key (Prim2SF x) = None -> F64.is_nan x = true.
Proof.
  unfold F64.is_nan. destruct (Prim2SF x) as [s|[]| |[] m e]; cbn; congruence.
Qed.

#[local] Open Scope float_scope.

Lemma ltb_irrefl (x : float) : (x <? x) = false.
Proof.
  destruct (x <? x) eqn:E; [|reflexivity]. rewrite ltb_spec in E.
  apply SFltb_key in E as (a & b & Ea & Eb & L).
  rewrite Ea in Eb. injection Eb as <-. unfold key_lt in L. lia.
Qed.

Lemma ltb_trans (x y z : float) : (x <? y) = true -> (y <? z) = true -> (x <? z) = true.
Proof.
  rewrite !ltb_spec. intros H1 H2.
  apply SFltb_key in H1 as (a & b & Ea & Eb & L1).
  apply SFltb_key in H2 as (b' & c & Eb' & Ec & L2).
  rewrite Eb in Eb'. injection Eb' as <-.
  apply SFltb_key. exists a, c. eauto using key_lt_trans.
Qed.

(** What is not below a bound that [x] is below, is above [x] or a NaN. *)
Lemma ltb_below_bound (x y z : float) :
  (x <? y) = true -> (z <? y) = false -> (x <? z) = true \/ F64.is_nan z = true.
Proof.
  rewrite !ltb_spec. intros H1 H2.
  apply SFltb_key in H1 as (a & b & Ea & Eb & L1).
  destruct (order_key (Prim2SF z)) as [c|] eqn:Ec;
    [left|right; now apply order_key_nan].
  apply SFltb_key. exists a, c. split; [exact Ea|]. split; [exact Ec|].
  destruct (key_lt_total c b) as [L|[->|L]].
  - exfalso. assert (T : SFltb (Prim2SF z) (Prim2SF y) = true)
      by (apply SFltb_key; eauto). congruence.
  - exact L1.
  - eauto using key_lt_trans.
Qed.

(** What is below anything is below plus infinity. *)
Lemma ltb_infinity (x y : float) : (x <? y) = true -> (x <? infinity) = true.
Proof.
  rewrite !ltb_spec. intros H.
  apply SFltb_key in H as (a & b & Ea & Eb & L).
  apply SFltb_key. exists a, (2, 0, 0)%Z. split; [exact Ea|]. split; [reflexivity|].
  revert Ea Eb L. unfold key_lt.
  destruct (Prim2SF x) as [s|[]| |[] m e], (Prim2SF y) as [s'|[]| |[] m' e'];
    cbn [order_key]; intros; try discriminate;
    injection Ea as <-; injection Eb as <-; cbn [fst snd] in *; lia.
Qed.

End FloatOrder.

(** ** The colour that [closestC64Color] selects *)

Section Selection.
Context (P : Platform).
#[local] Open Scope float_scope.

(** The distance of the sample to the palette colour of index [i]. *)
Definition paletteDistance (method : Method) (color : cielab.t float)
    (rgbColor : color.RGBA) (i : Z) : float :=
  deltaE P method color rgbColor (C64Color i).

(** The state of the search after the colours of indices below [i]. *)
Definition search_invariant (d : Z -> float) (i : Z) (best : Z * float) : Prop :=
  (forall j, (0 <= j < i)%Z -> (d j <? snd best) = false) /\
  (fst best = 0%Z /\ snd best = infinity \/
   (0 <= fst best < i)%Z /\ snd best = d (fst best)) /\
  (forall j, (0 <= j < fst best)%Z ->
     (snd best <? d j) = true \/ F64.is_nan (d j) = true).

Lemma closest_from_invariant method color rgbColor (pre cs : list color.RGBA) best :
  let d := fun i => deltaE P method color rgbColor (nth (Z.to_nat i) (pre ++ cs) color.zero) in
  search_invariant d (Z.of_nat (length pre)) best ->
  search_invariant d (Z.of_nat (length (pre ++ cs)))
    (closest_from P method color rgbColor cs (Z.of_nat (length pre)) best).
Proof.
  revert pre best. induction cs as [|c cs IH]; intros pre best d Inv.
  - cbn [closest_from]. now rewrite app_nil_r.
  - cbn [closest_from].
    assert (Dc : d (Z.of_nat (length pre)) = deltaE P method color rgbColor c).
    { unfold d. rewrite Nat2Z.id, app_nth2, Nat.sub_diag by lia. reflexivity. }
    rewrite <- Dc.
    match goal with |- context [closest_from _ _ _ _ cs _ ?b] => set (best' := b) end.
    specialize (IH (pre ++ [c]) best').
    rewrite <- !app_assoc, length_app in IH. cbn [app length] in IH.
    replace (Z.of_nat (length pre + 1)) with (Z.of_nat (length pre) + 1)%Z in IH by lia.
    apply IH. clear IH. fold d.
    set (i := Z.of_nat (length pre)) in *.
    destruct Inv as (I1 & I2 & I3). unfold best'.
    destruct (d i <? snd best) eqn:Lt; unfold search_invariant; cbn [fst snd].
    + split; [|split].
      * intros j Hj. destruct (Z.eq_dec j i) as [->|N]; [apply ltb_irrefl|].
        destruct (d j <? d i) eqn:Q; [|reflexivity].
        rewrite <- (I1 j ltac:(lia)). symmetry. eapply ltb_trans; eassumption.
      * right. split; [lia|reflexivity].
      * intros j Hj. apply (ltb_below_bound _ (snd best)); [exact Lt|].
        apply I1. lia.
    + split; [|split].
      * intros j Hj. destruct (Z.eq_dec j i) as [->|N]; [exact Lt|].
        apply I1. lia.
      * destruct I2 as [I2|[I2 I2']]; [left; exact I2|right; split; [lia|exact I2']].
      * exact I3.
Qed.

Lemma closestC64Color_invariant method color rgbColor :
  search_invariant (paletteDistance method color rgbColor) 16
    (closest_from P method color rgbColor C64Colors 0 (0%Z, infinity)).
Proof.
  apply (closest_from_invariant method color rgbColor [] C64Colors (0%Z, infinity)).
  cbn [length]. split; [|split].
  - intros j Hj. lia.
  - left. split; reflexivity.
  - cbn [fst]. intros j Hj. lia.
Qed.

(** X11: [closestC64Color] returns the first index of least distance, as [<]
    orders the distances: no palette colour is strictly nearer than the one
    selected, and the selected one is strictly nearer than every colour
    before it in the table, unless that one's distance is a NaN. *)
Theorem closestC64Color_first_minimum (color : cielab.t float)
    (rgbColor : color.RGBA) (method : Method) (j : Z) :
  ((0 <= j <= 15)%Z ->
     (paletteDistance method color rgbColor j
      <? paletteDistance method color rgbColor
           (closestC64Color P color rgbColor method)) = false) /\
  ((0 <= j < closestC64Color P color rgbColor method)%Z ->
     (paletteDistance method color rgbColor
        (closestC64Color P color rgbColor method)
      <? paletteDistance method color rgbColor j) = true
     \/ F64.is_nan (paletteDistance method color rgbColor j) = true).
Proof.
  destruct (closestC64Color_invariant method color rgbColor) as (I1 & I2 & I3).
  unfold closestC64Color.
  set (best := closest_from P method color rgbColor C64Colors 0 (0%Z, infinity)) in *.
  set (d := paletteDistance method color rgbColor) in *.
  split.
  - intros Hj. destruct I2 as [[B0 Binf]|[Bk Bd]].
    + rewrite B0. destruct (d j <? d 0%Z) eqn:Q; [|reflexivity].
      apply ltb_infinity in Q. rewrite <- Binf, I1 in Q by lia. discriminate.
    + rewrite <- Bd. apply I1. lia.
  - intros Hj. destruct I2 as [[B0 Binf]|[Bk Bd]]; [lia|].
    rewrite <- Bd. now apply I3.
Qed.

End Selection.

(** ** Rounding in the normal range of binary64 *)

Section NormalRounding.

Lemma shr_fst_snd mrs e n :
  0 <= shr_m mrs -> 0 <= n ->
  shr_m (fst (shr mrs e n)) = Z.shiftr (shr_m mrs) n /\ snd (shr mrs e n) = e + n.
Proof.
  intros Hm Hn. destruct n as [|k|k]; try lia; cbn [shr fst snd].
  - rewrite Z.shiftr_0_r. lia.
  - split; [now apply iter_shr_1_m|reflexivity].
Qed.

Lemma round_nearest_even_cases m l :
  round_nearest_even m l = m \/ round_nearest_even m l = m + 1.
Proof.
  destruct l as [|[]]; cbn [round_nearest_even]; auto.
  destruct (Z.even m); auto.
Qed.

Lemma log2_52 m : 2 ^ 52 <= m < 2 ^ 53 -> Z.log2 m = 52.
Proof. intros H. apply Z.log2_unique; lia. Qed.

Lemma truncate_53 mx :
  2 ^ 52 <= mx -> 2 ^ 52 <= mx / 2 ^ (Z.log2 mx - 52) < 2 ^ 53.
Proof.
  intros Hmx.
  assert (Hlog : 52 <= Z.log2 mx).
  { replace 52 with (Z.log2 (2 ^ 52)) by reflexivity. now apply Z.log2_le_mono. }
  set (n := Z.log2 mx - 52). set (m1 := mx / 2 ^ n).
  assert (L : Z.log2 m1 = 52).
  { unfold m1. rewrite <- Z.shiftr_div_pow2 by lia.
    rewrite Z.log2_shiftr by lia. lia. }
  assert (P1 : 0 < m1).
  { unfold m1. rewrite <- Z.shiftr_div_pow2 by lia.
    pose proof (shiftr_positive mx n ltac:(lia) ltac:(lia)). lia. }
  pose proof (Z.log2_spec m1 P1) as S. rewrite L in S. exact S.
Qed.

(** A mantissa of at least 53 bits, in the normal range: the result has 53
    bits and is the mantissa truncated to 53 bits, or the next one. *)
Lemma binary_round_aux_normal (mx ex : Z) lx :
  2 ^ 52 <= mx ->
  emin <= ex + (Z.log2 mx - 52) -> ex + (Z.log2 mx - 52) + 1 <= emax - prec ->
  exists m e,
    binary_round_aux prec emax false mx ex lx = S754_finite false m e /\
    2 ^ 52 <= Z.pos m < 2 ^ 53 /\
    (Z.pos m = mx / 2 ^ (Z.log2 mx - 52) /\ e = ex + (Z.log2 mx - 52) \/
     Z.pos m = mx / 2 ^ (Z.log2 mx - 52) + 1 /\ e = ex + (Z.log2 mx - 52) \/
     Z.pos m = 2 ^ 52 /\ mx / 2 ^ (Z.log2 mx - 52) + 1 = 2 ^ 53
       /\ e = ex + (Z.log2 mx - 52) + 1) /\
    (lx = loc_Exact -> Z.log2 mx = 52 -> Z.pos m = mx /\ e = ex).
Proof.
  intros Hmx He Ho.
  assert (Hpos : 0 < mx) by lia.
  assert (Hlog : 52 <= Z.log2 mx).
  { replace 52 with (Z.log2 (2 ^ 52)) by reflexivity. now apply Z.log2_le_mono. }
  set (n := Z.log2 mx - 52) in *.
  set (m1 := mx / 2 ^ n).
  assert (Hm1 : 2 ^ 52 <= m1 < 2 ^ 53).
  { assert (L : Z.log2 m1 = 52).
    { unfold m1. rewrite <- Z.shiftr_div_pow2 by lia.
      rewrite Z.log2_shiftr by lia. lia. }
    assert (P1 : 0 < m1).
    { unfold m1. rewrite <- Z.shiftr_div_pow2 by lia.
      pose proof (shiftr_positive mx n Hpos ltac:(lia)). lia. }
    pose proof (Z.log2_spec m1 P1) as S. rewrite L in S. exact S. }
  unfold binary_round_aux, shr_fexp.
  destruct mx as [|p|p]; try lia.
  rewrite Zdigits2_log2.
  replace (fexp prec emax (Z.log2 (Z.pos p) + 1 + ex) - ex) with n
    by (unfold fexp, SpecFloat.emin, prec, emax, n in *; lia).
  pose proof (shr_fst_snd (shr_record_of_loc (Z.pos p) lx) ex n
                ltac:(rewrite shr_record_of_loc_m; lia) ltac:(lia)) as [S1 S2].
  rewrite shr_record_of_loc_m, Z.shiftr_div_pow2 in S1 by lia. fold m1 in S1.
  destruct (shr (shr_record_of_loc (Z.pos p) lx) ex n) as [mrs' e'] eqn:E1.
  cbn [fst snd] in S1, S2. subst e'.
  set (m2 := round_nearest_even (shr_m mrs') (loc_of_shr_record mrs')).
  assert (C : m2 = m1 \/ m2 = m1 + 1).
  { unfold m2. rewrite <- S1. apply round_nearest_even_cases. }
  assert (Hexact : lx = loc_Exact -> Z.log2 (Z.pos p) = 52 -> m2 = Z.pos p).
  { intros -> L52. unfold m2. assert (n = 0) by (unfold n; lia).
    replace n with 0 in E1 by lia. cbn in E1. injection E1 as <-. reflexivity. }
  assert (Hm2 : m2 < 2 ^ 53 \/ m2 = 2 ^ 53) by lia.
  destruct Hm2 as [Hm2 | Hm2].
  - assert (L2 : Z.log2 m2 = 52) by (apply log2_52; lia).
    destruct m2 as [|p2|p2] eqn:Em2; try lia.
    rewrite Zdigits2_log2, L2.
    replace (fexp prec emax (52 + 1 + (ex + n)) - (ex + n)) with 0
      by (unfold fexp, SpecFloat.emin, prec, emax in *; lia).
    cbn [shr shr_record_of_loc shr_m].
    destruct (Z.leb_spec (ex + n) (emax - prec)); [|lia].
    exists p2, (ex + n). split; [reflexivity|]. split; [lia|]. split.
    + destruct C; [left|right; left]; split; lia.
    + intros Hl L52. specialize (Hexact Hl L52). split; [exact Hexact|].
      unfold n. lia.
  - rewrite Hm2.
    change (Zdigits2 (2 ^ 53)) with 54.
    replace (fexp prec emax (54 + (ex + n)) - (ex + n)) with 1
      by (unfold fexp, SpecFloat.emin, prec, emax in *; lia).
    cbn [shr shr_record_of_loc SpecFloat.iter_pos shr_1 shr_m Z.pow Z.pow_pos Pos.iter Z.mul Pos.mul].
    destruct (Z.leb_spec (ex + n + 1) (emax - prec)); [|lia].
    eexists _, (ex + n + 1). split; [reflexivity|]. split; [cbn; lia|]. split.
    + right; right. repeat split; lia.
    + intros Hl L52. exfalso. specialize (Hexact Hl L52).
      assert (Q : Z.pos p = 2 ^ 53) by (rewrite <- Hexact; exact Hm2).
      rewrite Q in L52. discriminate L52.
Qed.

(** The real number [m * 2^e]. *)
Definition F2R (m e : Z) : R := (IZR m * powerRZ 2 e)%R.

Definition eps : R := (/ 2 ^ 52)%R.

Lemma powerRZ_2_pos e : (0 < powerRZ 2 e)%R.
Proof. apply powerRZ_lt. lra. Qed.

Lemma powerRZ_2_add a b : powerRZ 2 (a + b) = (powerRZ 2 a * powerRZ 2 b)%R.
Proof. apply powerRZ_add. lra. Qed.

Lemma IZR_pow2 n : 0 <= n -> IZR (2 ^ n) = powerRZ 2 n.
Proof.
  intros H. destruct n as [|p|p]; try lia; [reflexivity|].
  change (2 ^ Z.pos p) with (Z.pow_pos 2 p). now rewrite Zpower_pos_powerRZ.
Qed.

Lemma F2R_shift m n e : 0 <= n -> F2R (m * 2 ^ n) e = F2R m (e + n).
Proof.
  intros H. unfold F2R. rewrite mult_IZR, IZR_pow2, powerRZ_2_add by assumption.
  ring.
Qed.

Lemma F2R_le m m' e : m <= m' -> (F2R m e <= F2R m' e)%R.
Proof.
  intros H. unfold F2R. apply Rmult_le_compat_r.
  - left. apply powerRZ_2_pos.
  - now apply IZR_le.
Qed.

(** The truncation of a mantissa to [n] bits less brackets the number. *)
Lemma F2R_truncate m n e :
  0 <= n -> 0 <= m ->
  (F2R (m / 2 ^ n) (e + n) <= F2R m e)%R /\
  (F2R (m + 1) e <= F2R (m / 2 ^ n + 1) (e + n))%R.
Proof.
  intros Hn Hm. rewrite <- !F2R_shift by assumption.
  assert (0 < 2 ^ n) by (apply Z.pow_pos_nonneg; lia).
  pose proof (Z.mul_div_le m (2 ^ n) ltac:(lia)).
  pose proof (Z.mul_succ_div_gt m (2 ^ n) ltac:(lia)).
  split; apply F2R_le; lia.
Qed.

(** Rounding to nearest in the normal range: the result is within the
    relative error [eps = 2^-52] of every number that the mantissa and the
    next one bracket. *)
Lemma binary_round_aux_error (mx ex : Z) lx (v : R) :
  2 ^ 52 <= mx ->
  emin <= ex + (Z.log2 mx - 52) -> ex + (Z.log2 mx - 52) + 1 <= emax - prec ->
  (F2R mx ex <= v <= F2R (mx + 1) ex)%R ->
  exists m e,
    binary_round_aux prec emax false mx ex lx = S754_finite false m e /\
    2 ^ 52 <= Z.pos m < 2 ^ 53 /\
    ex + (Z.log2 mx - 52) <= e <= ex + (Z.log2 mx - 52) + 1 /\
    (v * (1 - eps) <= F2R (Z.pos m) e <= v * (1 + eps))%R.
Proof.
  intros Hmx He Ho Hv.
  destruct (binary_round_aux_normal mx ex lx Hmx He Ho) as (m & e & E & Hm & C & _).
  exists m, e. split; [exact E|]. split; [exact Hm|].
  assert (Hlog : 52 <= Z.log2 mx).
  { replace 52 with (Z.log2 (2 ^ 52)) by reflexivity. now apply Z.log2_le_mono. }
  set (n := Z.log2 mx - 52) in *.
  set (m1 := mx / 2 ^ n) in *.
  split; [lia|].
  destruct (F2R_truncate mx n ex ltac:(lia) ltac:(lia)) as [T1 T2]. fold m1 in T1, T2.
  set (u := powerRZ 2 (ex + n)).
  assert (Hu : (0 < u)%R) by apply powerRZ_2_pos.
  assert (Hlo : (2 ^ 52 * u <= F2R m1 (ex + n))%R).
  { unfold F2R. fold u. apply Rmult_le_compat_r; [lra|].
    assert (2 ^ 52 <= m1) by (apply truncate_53; assumption).
    apply IZR_le in H. rewrite pow_IZR. exact H. }
  assert (Hup : F2R (m1 + 1) (ex + n) = (F2R m1 (ex + n) + u)%R).
  { unfold F2R. rewrite plus_IZR. fold u. ring. }
  assert (R : F2R (Z.pos m) e = F2R m1 (ex + n) \/
              F2R (Z.pos m) e = (F2R m1 (ex + n) + u)%R).
  { destruct C as [[C ->]|[[C ->]|(C1 & C2 & ->)]].
    - left. now rewrite C.
    - right. now rewrite C, Hup.
    - right. rewrite <- Hup, C2, C1.
      replace (2 ^ 53) with (2 ^ 52 * 2 ^ 1) by reflexivity.
      now rewrite F2R_shift by lia. }
  unfold eps. assert (E52 : (0 < 2 ^ 52)%R) by (apply pow_lt; lra).
  assert (Q : (u <= F2R m1 (ex + n) * / 2 ^ 52)%R).
  { apply Rmult_le_reg_r with (2 ^ 52)%R; [exact E52|].
    rewrite Rmult_assoc, Rinv_l by lra. lra. }
  assert (Vpos : (0 <= v)%R).
  { apply Rle_trans with (F2R mx ex); [|lra].
    unfold F2R. apply Rmult_le_pos; [apply IZR_le; lia|left; apply powerRZ_2_pos]. }
  assert (I52 : (0 < / 2 ^ 52)%R) by now apply Rinv_0_lt_compat.
  assert (Q2 : (F2R m1 (ex + n) * / 2 ^ 52 <= v * / 2 ^ 52)%R)
    by (apply Rmult_le_compat_r; lra).
  destruct R as [-> | ->]; split; lra.
Qed.

Lemma F2R_lt_inv a b e : (F2R a e < F2R b e)%R -> a < b.
Proof.
  intros H. destruct (Z_lt_le_dec a b) as [L|L]; [exact L|]. exfalso.
  pose proof (F2R_le b a e L). lra.
Qed.

Lemma F2R_integer k e : e <= 0 -> F2R (k * 2 ^ (- e)) e = IZR k.
Proof.
  intros He. rewrite F2R_shift by lia. replace (e + - e) with 0 by lia.
  unfold F2R. cbn [powerRZ]. ring.
Qed.

(** Rounding to nearest never crosses an integer from above: an integer
    not above the number rounded is not above the result. *)
Lemma binary_round_aux_floor (mx ex : Z) lx (v : R) (k : Z) m e :
  2 ^ 52 <= mx ->
  emin <= ex + (Z.log2 mx - 52) -> ex + (Z.log2 mx - 52) + 1 <= emax - prec ->
  (F2R mx ex <= v < F2R (mx + 1) ex)%R ->
  ex + (Z.log2 mx - 52) <= 0 -> (IZR k <= v)%R ->
  binary_round_aux prec emax false mx ex lx = S754_finite false m e ->
  (IZR k <= F2R (Z.pos m) e)%R.
Proof.
  intros Hmx He Ho Hv He0 Hk E.
  destruct (binary_round_aux_normal mx ex lx Hmx He Ho) as (m' & e' & E' & Hm & C & _).
  rewrite E in E'. injection E' as <- <-.
  assert (Hlog : 52 <= Z.log2 mx).
  { replace 52 with (Z.log2 (2 ^ 52)) by reflexivity. now apply Z.log2_le_mono. }
  set (n := Z.log2 mx - 52) in *.
  set (m1 := mx / 2 ^ n) in *.
  destruct (F2R_truncate mx n ex ltac:(lia) ltac:(lia)) as [T1 T2]. fold m1 in T1, T2.
  assert (K : k * 2 ^ (- (ex + n)) <= m1).
  { assert (k * 2 ^ (- (ex + n)) < m1 + 1); [|lia].
    apply (F2R_lt_inv _ _ (ex + n)). rewrite F2R_integer by lia. lra. }
  apply (F2R_le _ _ (ex + n)) in K. rewrite F2R_integer in K by lia.
  apply Rle_trans with (1 := K).
  destruct C as [[C ->]|[[C ->]|(C1 & C2 & ->)]].
  - rewrite C. apply Rle_refl.
  - rewrite C. apply F2R_le. lia.
  - rewrite C1. replace (ex + n + 1) with (ex + n + 1) by lia.
    rewrite <- (F2R_shift (2 ^ 52) 1 (ex + n)) by lia.
    apply F2R_le. change (2 ^ 52 * 2 ^ 1) with (2 ^ 53). lia.
Qed.

Lemma F2R_pos m e : 0 < m -> (0 < F2R m e)%R.
Proof.
  intros H. unfold F2R. apply Rmult_lt_0_compat;
    [now apply (IZR_lt 0)|apply powerRZ_2_pos].
Qed.

(** The quotient of two numbers with 53-bit mantissas and moderate exponents
    is the exact quotient up to the relative error [eps]. *)
Lemma SFdiv_normal m1 e1 m2 e2 :
  2 ^ 52 <= Z.pos m1 < 2 ^ 53 -> 2 ^ 52 <= Z.pos m2 < 2 ^ 53 ->
  -500 <= e1 <= 500 -> -500 <= e2 <= 500 ->
  exists m e,
    SF64div (S754_finite false m1 e1) (S754_finite false m2 e2)
      = S754_finite false m e /\
    2 ^ 52 <= Z.pos m < 2 ^ 53 /\
    e1 - e2 - 53 <= e <= e1 - e2 - 51 /\
    (F2R (Z.pos m1) e1 / F2R (Z.pos m2) e2 * (1 - eps) <= F2R (Z.pos m) e
     <= F2R (Z.pos m1) e1 / F2R (Z.pos m2) e2 * (1 + eps))%R /\
    (forall k, e1 - e2 - 52 <= 0 ->
       (IZR k <= F2R (Z.pos m1) e1 / F2R (Z.pos m2) e2)%R ->
       (IZR k <= F2R (Z.pos m) e)%R).
Proof.
  intros H1 H2 He1 He2.
  unfold SF64div, SFdiv, SFdiv_core_binary. cbn [xorb].
  rewrite !Zdigits2_log2, !log2_52 by assumption.
  replace (Z.min (fexp prec emax (52 + 1 + e1 - (52 + 1 + e2))) (e1 - e2))
    with (e1 - e2 - 53)
    by (unfold fexp, SpecFloat.emin, prec, emax; lia).
  replace (e1 - e2 - (e1 - e2 - 53)) with 53 by lia.
  rewrite Z.shiftl_mul_pow2 by lia.
  set (m' := Z.pos m1 * 2 ^ 53).
  pose proof (Z_div_mod m' (Z.pos m2) ltac:(lia)) as DM.
  destruct (Z.div_eucl m' (Z.pos m2)) as [q r]. destruct DM as [DM Hr].
  assert (Hq : 2 ^ 52 <= q < 2 ^ 54).
  { unfold m' in DM. split.
    - destruct (Z_lt_le_dec q (2 ^ 52)) as [L|L]; [|exact L]. exfalso.
      assert (Z.pos m2 * q + r < Z.pos m2 * 2 ^ 52) by nia.
      assert (Z.pos m2 * 2 ^ 52 <= Z.pos m1 * 2 ^ 53) by nia. lia.
    - destruct (Z_lt_le_dec q (2 ^ 54)) as [L|L]; [exact L|]. exfalso.
      assert (Z.pos m2 * 2 ^ 54 <= Z.pos m2 * q) by nia.
      assert (Z.pos m1 * 2 ^ 53 < Z.pos m2 * 2 ^ 54) by nia. lia. }
  assert (Lq : 52 <= Z.log2 q <= 53).
  { split.
    - replace 52 with (Z.log2 (2 ^ 52)) by reflexivity. apply Z.log2_le_mono. lia.
    - replace 53 with (Z.log2 (2 ^ 54 - 1)) by reflexivity. apply Z.log2_le_mono. lia. }
  set (v := (F2R (Z.pos m1) e1 / F2R (Z.pos m2) e2)%R).
  assert (P2 : (0 < F2R (Z.pos m2) e2)%R) by (apply F2R_pos; lia).
  assert (Hv : (F2R q (e1 - e2 - 53) <= v < F2R (q + 1) (e1 - e2 - 53))%R).
  { assert (V : v = (IZR m' / IZR (Z.pos m2) * powerRZ 2 (e1 - e2 - 53))%R).
    { unfold v, F2R, m'. rewrite mult_IZR, IZR_pow2 by lia.
      replace (e1 - e2 - 53) with (e1 + (- e2 + - (53))) by lia.
      rewrite !powerRZ_2_add, !powerRZ_neg'.
      pose proof (powerRZ_2_pos e2). pose proof (powerRZ_2_pos 53).
      assert (0 < IZR (Z.pos m2))%R by (apply (IZR_lt 0); lia).
      field. lra. }
    rewrite V. unfold F2R.
    pose proof (powerRZ_2_pos (e1 - e2 - 53)) as Pu.
    assert (P : (0 < IZR (Z.pos m2))%R) by (apply (IZR_lt 0); lia).
    assert (Q1 : (IZR q <= IZR m' / IZR (Z.pos m2))%R).
    { apply Rmult_le_reg_r with (IZR (Z.pos m2)); [exact P|].
      unfold Rdiv. rewrite Rmult_assoc, Rinv_l, Rmult_1_r by lra.
      rewrite <- mult_IZR. apply IZR_le. lia. }
    assert (Q2 : (IZR m' / IZR (Z.pos m2) < IZR (q + 1))%R).
    { apply Rmult_lt_reg_r with (IZR (Z.pos m2)); [exact P|].
      unfold Rdiv. rewrite Rmult_assoc, Rinv_l, Rmult_1_r by lra.
      rewrite <- mult_IZR. apply IZR_lt. nia. }
    split; [apply Rmult_le_compat_r; lra|apply Rmult_lt_compat_r; lra]. }
  assert (B1 : emin <= e1 - e2 - 53 + (Z.log2 q - 52))
    by (unfold SpecFloat.emin, prec, emax; lia).
  assert (B2 : e1 - e2 - 53 + (Z.log2 q - 52) + 1 <= emax - prec)
    by (unfold prec, emax; lia).
  destruct (binary_round_aux_error q (e1 - e2 - 53) (new_location (Z.pos m2) r) v)
    as (m & e & E & Hm & He & Herr); try assumption; try lia; [lra|].
  exists m, e. split; [exact E|]. split; [exact Hm|]. split; [lia|].
  split; [exact Herr|].
  intros k Hk Hkv.
  apply (binary_round_aux_floor q (e1 - e2 - 53) (new_location (Z.pos m2) r) v k m e);
    try assumption; lia.
Qed.

Lemma iter_xO_mul p k : Z.pos (Pos.iter xO p k) = Z.pos p * 2 ^ Z.pos k.
Proof.
  change (Pos.iter xO p k) with (shift_pos k p).
  rewrite shift_pos_correct. change (2 ^ Z.pos k) with (Z.pow_pos 2 k). lia.
Qed.

(** [float64(z)] is exact for [0 < z < 2^53]. *)
Lemma of_int_exact z :
  0 < z < 2 ^ 53 ->
  exists m, Prim2SF (F64.of_int z) = S754_finite false m (Z.log2 z - 52) /\
    2 ^ 52 <= Z.pos m < 2 ^ 53 /\ Z.pos m = z * 2 ^ (52 - Z.log2 z) /\
    F2R (Z.pos m) (Z.log2 z - 52) = IZR z.
Proof.
  intros Hz. destruct z as [|p|p]; try lia.
  assert (L : 0 <= Z.log2 (Z.pos p) <= 52).
  { split; [apply Z.log2_nonneg|].
    replace 52 with (Z.log2 (2 ^ 53 - 1)) by reflexivity. apply Z.log2_le_mono. lia. }
  set (k := 52 - Z.log2 (Z.pos p)).
  set (mz := Z.pos p * 2 ^ k).
  assert (Lmz : Z.log2 mz = 52).
  { unfold mz. rewrite <- Z.shiftl_mul_pow2 by (unfold k; lia).
    rewrite Z.log2_shiftl by (unfold k; lia). unfold k. lia. }
  assert (Pmz : 0 < mz) by (unfold mz; apply Z.mul_pos_pos; [lia|apply Z.pow_pos_nonneg; unfold k; lia]).
  assert (Hmz : 2 ^ 52 <= mz < 2 ^ 53).
  { pose proof (Z.log2_spec mz Pmz) as S. rewrite Lmz in S. exact S. }
  destruct mz as [|pm|pm] eqn:Emz; try lia.
  exists pm. unfold F64.of_int.
  assert (BN : binary_normalize prec emax (Z.pos p) 0 false
               = S754_finite false pm (Z.log2 (Z.pos p) - 52)).
  { cbn [binary_normalize]. unfold binary_round, shl_align.
    pose proof (Zdigits2_log2 p) as D. cbn [Zdigits2] in D. rewrite D.
    replace (fexp prec emax (Z.log2 (Z.pos p) + 1 + 0)) with (- k)
      by (unfold fexp, SpecFloat.emin, prec, emax, k; lia).
    destruct (binary_round_aux_normal (Z.pos pm) (- k) loc_Exact)
      as (m & e & E & _ & _ & X); rewrite ?Lmz;
      try (unfold SpecFloat.emin, prec, emax, k; lia).
    destruct (X eq_refl Lmz) as [Xm Xe]. injection Xm as ->. subst e.
    clear X. rewrite Z.sub_0_r.
    replace (Z.log2 (Z.pos p) - 52) with (- k) by (unfold k; lia).
    assert (Hk : 0 <= k) by (unfold k; lia).
    unfold mz in Emz. clearbody k.
    destruct k as [|pk|pk]; try lia; cbn [Z.opp] in *.
    - rewrite Z.pow_0_r, Z.mul_1_r in Emz. injection Emz as ->. exact E.
    - rewrite <- iter_xO_mul in Emz. injection Emz as ->. exact E. }
  rewrite BN, Prim2SF_SF2Prim.
  - split; [reflexivity|]. split; [lia|]. split; [unfold mz in Emz; lia|].
    rewrite <- Emz. unfold mz. rewrite F2R_shift by (unfold k; lia).
    replace (Z.log2 (Z.pos p) - 52 + k) with 0 by (unfold k; lia).
    unfold F2R. cbn [powerRZ]. ring.
  - cbn [SpecFloat.valid_binary]. unfold SpecFloat.bounded, SpecFloat.canonical_mantissa.
    pose proof (Zdigits2_log2 pm) as D. cbn [Zdigits2] in D. rewrite D, Lmz.
    apply andb_true_intro. split.
    + apply Z.eqb_eq. unfold fexp, SpecFloat.emin, prec, emax. lia.
    + apply Z.leb_le. unfold prec, emax. lia.
Qed.

(** [int(math.Ceil(q))] for a positive [q] below [2^52]: the least integer
    not below [q]. *)
Lemma int_Ceil_normal (P : Platform) (q : float) m e :
  Prim2SF q = S754_finite false m e ->
  2 ^ 52 <= Z.pos m < 2 ^ 53 -> -500 <= e <= -1 ->
  exists z, int_of_float64 P (F64.Ceil q) = z /\ 1 <= z <= 2 ^ 52 /\
    (IZR z - 1 < F2R (Z.pos m) e <= IZR z)%R.
Proof.
  intros Eq Hm He.
  destruct e as [|pe|pe]; try lia.
  set (d := 2 ^ Z.pos pe).
  assert (Hd : 2 <= d).
  { unfold d. change 2 with (2 ^ 1) at 1. apply Z.pow_le_mono_r; lia. }
  set (z := (Z.pos m + d - 1) / d).
  assert (Hz : (z - 1) * d < Z.pos m <= z * d).
  { unfold z. pose proof (Z.mul_div_le (Z.pos m + d - 1) d ltac:(lia)).
    pose proof (Z.mul_succ_div_gt (Z.pos m + d - 1) d ltac:(lia)). lia. }
  assert (Hz1 : 1 <= z <= 2 ^ 52).
  { split; [nia|].
    destruct (Z_le_gt_dec z (2 ^ 52)) as [L|L]; [exact L|]. exfalso.
    assert (2 ^ 52 * d <= (z - 1) * d) by nia.
    assert (2 ^ 53 <= 2 ^ 52 * d) by lia. lia. }
  exists z. split; [|split; [exact Hz1|]].
  - unfold F64.Ceil. rewrite Eq. cbn [F64.ceil_SF].
    change (Z.pow_pos 2 pe) with d. fold z.
    destruct (Z.eqb_spec z 0) as [Z0|_]; [lia|].
    destruct (of_int_exact z ltac:(lia)) as (mz & Em & _ & Hmz & _).
    unfold int_of_float64, F64.to_Z. rewrite Em.
    assert (T : F64.trunc_SF false mz (Z.log2 z - 52) = z).
    { assert (Lz : 0 <= Z.log2 z <= 52).
      { split; [apply Z.log2_nonneg|].
        replace 52 with (Z.log2 (2 ^ 52)) by reflexivity. apply Z.log2_le_mono. lia. }
      unfold F64.trunc_SF. rewrite Hmz.
      destruct (Z.log2 z - 52) as [|pz|pz] eqn:Ez; try lia.
      - replace (52 - Z.log2 z) with 0 by lia. cbn. lia.
      - change (Z.pow_pos 2 pz) with (2 ^ Z.pos pz).
        replace (52 - Z.log2 z) with (Z.pos pz) by lia.
        apply Z.div_mul. apply Z.pow_nonzero; lia. }
    rewrite T. unfold GoInt.in_range, GoInt.minInt, GoInt.maxInt.
    destruct (Z.leb_spec (- 2 ^ 63) z); [|lia].
    destruct (Z.leb_spec z (2 ^ 63 - 1)); [reflexivity|lia].
  - unfold F2R.
    assert (Pd : powerRZ 2 (Z.neg pe) = (/ IZR d)%R).
    { change (Z.neg pe) with (- Z.pos pe). rewrite powerRZ_neg'.
      unfold d. rewrite IZR_pow2 by lia. reflexivity. }
    rewrite Pd.
    assert (Dpos : (0 < IZR d)%R) by (apply (IZR_lt 0); lia).
    destruct Hz as [Hz2 Hz3]. apply IZR_lt in Hz2. apply IZR_le in Hz3.
    rewrite mult_IZR, minus_IZR in Hz2. rewrite mult_IZR in Hz3.
    split.
    + apply Rmult_lt_reg_r with (IZR d); [exact Dpos|].
      rewrite Rmult_assoc, Rinv_l by lra. lra.
    + apply Rmult_le_reg_r with (IZR d); [exact Dpos|].
      rewrite Rmult_assoc, Rinv_l by lra. lra.
Qed.


End NormalRounding.

(** ** Integers in binary64 *)

Section Binary64Integers.

(** [x] is a positive normal number of mantissa [m] and exponent [e]. *)
Definition is_normal (x : float) (m : positive) (e : Z) : Prop :=
  Prim2SF x = S754_finite false m e /\ 2 ^ 52 <= Z.pos m < 2 ^ 53.

Lemma log2_bound z n : 0 < z < 2 ^ n -> 0 < n -> 0 <= Z.log2 z < n.
Proof.
  intros Hz Hn. split; [apply Z.log2_nonneg|].
  apply Z.log2_lt_pow2; lia.
Qed.

Lemma of_int_normal z :
  0 < z < 2 ^ 53 ->
  exists m, is_normal (F64.of_int z) m (Z.log2 z - 52) /\
    Z.pos m = z * 2 ^ (52 - Z.log2 z) /\
    F2R (Z.pos m) (Z.log2 z - 52) = IZR z.
Proof.
  intros Hz. destruct (of_int_exact z Hz) as (m & E & Hm & Em & V).
  exists m. repeat split; assumption || lia.
Qed.

Lemma of_int_0 : Prim2SF (F64.of_int 0) = S754_zero false.
Proof. reflexivity. Qed.

(** The quotient of two positive normal numbers. *)
Lemma div_normal (x y : float) m1 e1 m2 e2 :
  is_normal x m1 e1 -> is_normal y m2 e2 ->
  -500 <= e1 <= 500 -> -500 <= e2 <= 500 ->
  exists m e, is_normal (x / y)%float m e /\
    e1 - e2 - 53 <= e <= e1 - e2 - 51 /\
    (F2R (Z.pos m1) e1 / F2R (Z.pos m2) e2 * (1 - eps) <= F2R (Z.pos m) e
     <= F2R (Z.pos m1) e1 / F2R (Z.pos m2) e2 * (1 + eps))%R /\
    (forall k, e1 - e2 - 52 <= 0 ->
       (IZR k <= F2R (Z.pos m1) e1 / F2R (Z.pos m2) e2)%R ->
       (IZR k <= F2R (Z.pos m) e)%R).
Proof.
  intros [Ex Hx] [Ey Hy] He1 He2.
  destruct (SFdiv_normal m1 e1 m2 e2 Hx Hy He1 He2) as (m & e & E & Hm & He & Herr & Hfl).
  exists m, e. split; [|auto].
  split; [|exact Hm]. now rewrite div_spec, Ex, Ey.
Qed.

(** The integer part of a positive normal number below [2^53]. *)
Lemma to_Z_normal (x : float) m e :
  is_normal x m e -> e <= 0 ->
  exists z, F64.to_Z x = Some z /\ 0 <= z < 2 ^ 53 /\
    (IZR z <= F2R (Z.pos m) e < IZR z + 1)%R.
Proof.
  intros [Ex Hm] He. unfold F64.to_Z. rewrite Ex. unfold F64.trunc_SF.
  destruct e as [|pe|pe]; try lia.
  - exists (Z.pos m). rewrite Z.pow_0_r, Z.mul_1_r.
    split; [reflexivity|]. split; [lia|].
    unfold F2R. cbn [powerRZ]. lra.
  - change (Z.pow_pos 2 pe) with (2 ^ Z.pos pe).
    set (d := 2 ^ Z.pos pe).
    assert (Hd : 0 < d) by (apply Z.pow_pos_nonneg; lia).
    exists (Z.pos m / d). split; [reflexivity|].
    pose proof (Z.mul_div_le (Z.pos m) d Hd) as L1.
    pose proof (Z.mul_succ_div_gt (Z.pos m) d Hd) as L2.
    split.
    + split; [apply Z.div_pos; lia|].
      apply Z.div_lt_upper_bound; [exact Hd|]. nia.
    + unfold F2R.
      assert (Pd : powerRZ 2 (Z.neg pe) = (/ IZR d)%R).
      { change (Z.neg pe) with (- Z.pos pe). rewrite powerRZ_neg'.
        unfold d. rewrite IZR_pow2 by lia. reflexivity. }
      rewrite Pd.
      assert (Dpos : (0 < IZR d)%R) by (apply (IZR_lt 0); lia).
      apply IZR_le in L1. apply IZR_lt in L2.
      rewrite mult_IZR in L1. unfold Z.succ in L2. rewrite mult_IZR, plus_IZR in L2.
      split.
      * apply Rmult_le_reg_r with (IZR d); [exact Dpos|].
        rewrite Rmult_assoc, Rinv_l by lra. lra.
      * apply Rmult_lt_reg_r with (IZR d); [exact Dpos|].
        rewrite Rmult_assoc, Rinv_l by lra. lra.
Qed.

Lemma IZR_between z k (f : R) :
  (IZR z <= f < IZR z + 1)%R -> (IZR k <= f < IZR k + 1)%R -> z = k.
Proof.
  intros [A1 A2] [B1 B2].
  assert (IZR z < IZR (k + 1))%R by (rewrite plus_IZR; lra).
  assert (IZR k < IZR (z + 1))%R by (rewrite plus_IZR; lra).
  apply lt_IZR in H, H0. lia.
Qed.

(** The IEEE quotient of two integers, truncated, is the integer quotient:
    what [int(float64(a) / float64(b))] computes. *)
Lemma div_floor_float a b :
  0 <= a < 2 ^ 52 -> 0 < b < 2 ^ 53 ->
  F64.to_Z (F64.of_int a / F64.of_int b)%float = Some (a / b).
Proof.
  intros Ha Hb.
  destruct (of_int_normal b Hb) as (mb & Nb & _ & Vb).
  pose proof (log2_bound b 53 Hb ltac:(lia)) as Lb.
  destruct (Z.eq_dec a 0) as [->|Na].
  { unfold F64.to_Z. rewrite div_spec, of_int_0. destruct Nb as [-> _].
    cbn [SF64div SFdiv xorb]. now rewrite Z.div_0_l by lia. }
  destruct (of_int_normal a ltac:(lia)) as (ma & Na' & _ & Va).
  pose proof (log2_bound a 52 ltac:(lia) ltac:(lia)) as La.
  destruct (div_normal _ _ _ _ _ _ Na' Nb ltac:(lia) ltac:(lia))
    as (m & e & Nq & He & [_ Hup] & Hfl).
  destruct (to_Z_normal _ _ _ Nq ltac:(lia)) as (z & Ez & _ & Hz).
  rewrite Ez. f_equal.
  rewrite Va, Vb in *.
  set (k := a / b).
  assert (Bpos : (0 < IZR b)%R) by (apply (IZR_lt 0); lia).
  pose proof (Z.mul_div_le a b ltac:(lia)) as L1.
  pose proof (Z.mul_succ_div_gt a b ltac:(lia)) as L2. fold k in L1, L2.
  assert (Kv : (IZR k <= IZR a / IZR b)%R).
  { apply Rmult_le_reg_r with (IZR b); [exact Bpos|].
    unfold Rdiv. rewrite Rmult_assoc, Rinv_l, Rmult_1_r by lra.
    rewrite <- mult_IZR. apply IZR_le. lia. }
  apply (IZR_between z k (F2R (Z.pos m) e) Hz). split.
  - apply Hfl; [lia|exact Kv].
  - apply Rle_lt_trans with (1 := Hup).
    apply Rmult_lt_reg_r with (IZR b); [exact Bpos|].
    unfold Rdiv, eps.
    replace (IZR a * / IZR b * (1 + / 2 ^ 52) * IZR b)%R
      with (IZR a * (/ IZR b * IZR b) + IZR a * / 2 ^ 52 * (/ IZR b * IZR b))%R by ring.
    rewrite Rinv_l by lra.
    assert (A1 : (IZR a <= (IZR k + 1) * IZR b - 1)%R).
    { rewrite <- plus_IZR, <- mult_IZR, <- minus_IZR. apply IZR_le. lia. }
    assert (A2 : (IZR a * / 2 ^ 52 < 1)%R).
    { apply Rmult_lt_reg_r with (2 ^ 52)%R; [apply pow_lt; lra|].
      rewrite Rmult_assoc, Rinv_l by (apply pow_nonzero; lra).
      rewrite Rmult_1_r, Rmult_1_l, pow_IZR.
      apply IZR_lt. change (Z.of_nat 52) with 52. lia. }
    lra.
Qed.

Lemma int_of_float64_to_Z P (x : float) z :
  F64.to_Z x = Some z -> GoInt.minInt <= z <= GoInt.maxInt -> int_of_float64 P x = z.
Proof.
  intros E Hz. unfold int_of_float64, GoInt.in_range. rewrite E.
  destruct (Z.leb_spec GoInt.minInt z); [|lia].
  destruct (Z.leb_spec z GoInt.maxInt); [reflexivity|lia].
Qed.

Lemma uint8_of_float64_to_Z P (x : float) z :
  F64.to_Z x = Some z -> 0 <= z <= 255 -> uint8_of_float64 P x = z.
Proof.
  intros E Hz. unfold uint8_of_float64. rewrite E.
  destruct (Z.leb_spec 0 z); [|lia].
  destruct (Z.leb_spec z 255); [reflexivity|lia].
Qed.

End Binary64Integers.

(** ** The geometry that [ConvertImage] computes in float64 *)

Section RoundedHeight.
#[local] Open Scope R_scope.

(** The doubly rounded quotient [320 / (w / h)] against the integers around
    the exact quotient [320 * h / w]. *)
Lemma rounded_height_lower (w h n A Q e : R) :
  0 < w -> 0 < h -> 0 < A -> 0 < Q -> 0 < e ->
  A * h <= w * (1 + e) -> 320 * (1 - e) <= Q * A ->
  (n - 1) * w + 1 <= 320 * h -> 0 <= n - 1 ->
  (1 + 640 * h) * e < 1 ->
  n - 1 < Q.
Proof.
  intros Hw Hh HA HQ He A1 Q1 N1 N0 Small.
  apply Rnot_le_lt. intros C.
  assert (G1 : Q * (A * h) <= Q * (w * (1 + e)))
    by (apply Rmult_le_compat_l; lra).
  assert (G2 : 320 * (1 - e) * h <= Q * A * h)
    by (apply Rmult_le_compat_r; lra).
  assert (G3 : Q * (w * (1 + e)) <= (n - 1) * (w * (1 + e))).
  { apply Rmult_le_compat_r; [|exact C].
    apply Rmult_le_pos; lra. }
  assert (G4 : ((n - 1) * w + 1) * (1 - e) <= 320 * h * (1 - e)).
  { apply Rmult_le_compat_r; [|exact N1]. nra. }
  assert (G5 : (n - 1) * w * e <= (320 * h - 1) * e)
    by (apply Rmult_le_compat_r; lra).
  nra.
Qed.

Lemma rounded_height_upper (w h n A Q e : R) :
  0 < w -> 0 < h -> 0 < A -> 0 < Q -> 0 < e < 1 ->
  w * (1 - e) <= A * h -> Q * A <= 320 * (1 + e) ->
  320 * h <= n * w -> 0 <= n ->
  (2 * n + 2) * e <= 1 ->
  Q <= n + 1.
Proof.
  intros Hw Hh HA HQ He A1 Q1 N1 N0 Small.
  apply Rnot_lt_le. intros C.
  assert (G1 : Q * (w * (1 - e)) <= Q * (A * h))
    by (apply Rmult_le_compat_l; lra).
  assert (G2 : Q * A * h <= 320 * (1 + e) * h)
    by (apply Rmult_le_compat_r; lra).
  assert (G3 : 320 * h * (1 + e) <= n * w * (1 + e))
    by (apply Rmult_le_compat_r; lra).
  assert (G4 : (n + 1) * (w * (1 - e)) < Q * (w * (1 - e))).
  { apply Rmult_lt_compat_r; [|exact C].
    apply Rmult_lt_0_compat; lra. }
  assert (G5 : 0 < w * (1 - (2 * n + 1) * e)).
  { apply Rmult_lt_0_compat; lra. }
  nra.
Qed.

End RoundedHeight.

Section Geometry.
Context (P : Platform).
Import image.

Lemma ceil_div_spec a b :
  0 < b -> (ceil_div a b - 1) * b < a <= ceil_div a b * b.
Proof.
  intros Hb. unfold ceil_div.
  pose proof (Z.mul_div_le (- a) b Hb).
  pose proof (Z.mul_succ_div_gt (- a) b Hb). lia.
Qed.

Lemma eps_small : (0 < eps < 1)%R /\ (eps * 2 ^ 52 = 1)%R.
Proof.
  unfold eps. assert (0 < 2 ^ 52)%R by (apply pow_lt; lra).
  assert (1 < 2 ^ 52)%R by (apply Rlt_pow_R1; [lra|lia]).
  split; [split|].
  - now apply Rinv_0_lt_compat.
  - rewrite <- Rinv_1. apply Rinv_lt_contravar; lra.
  - apply Rinv_l. lra.
Qed.

(** The height that [ConvertImage] computes is the exact ceiling of
    [320 * H / W], or one more. *)
Lemma targetHeight_bounds img :
  0 < Dx (RGBA.Rect img) < 2 ^ 31 -> 0 < Dy (RGBA.Rect img) < 2 ^ 31 ->
  ceil_div (320 * Dy (RGBA.Rect img)) (Dx (RGBA.Rect img)) <= targetHeight P img
    <= ceil_div (320 * Dy (RGBA.Rect img)) (Dx (RGBA.Rect img)) + 1.
Proof.
  intros HW HH. unfold targetHeight, Size, targetWidth. cbn [X Y].
  set (W := Dx _) in *. set (H := Dy _) in *.
  destruct (of_int_normal W ltac:(lia)) as (mW & NW & _ & VW).
  destruct (of_int_normal H ltac:(lia)) as (mH & NH & _ & VH).
  destruct (of_int_normal 320 ltac:(lia)) as (m3 & N3 & _ & V3).
  change (Z.log2 320 - 52) with (-44) in *.
  pose proof (log2_bound W 31 ltac:(lia) ltac:(lia)) as LW.
  pose proof (log2_bound H 31 ltac:(lia) ltac:(lia)) as LH.
  destruct (div_normal _ _ _ _ _ _ NW NH ltac:(lia) ltac:(lia))
    as (ma & ea & Na & Hea & Ea & _).
  destruct (div_normal _ _ _ _ _ _ N3 Na ltac:(lia) ltac:(lia))
    as (mq & eq & Nq & Heq & Eq & _).
  destruct Nq as [EQ HQ].
  destruct (int_Ceil_normal P _ mq eq EQ HQ ltac:(lia)) as (z & Ez & Hz & Bz).
  rewrite Ez. clear Ez EQ.
  rewrite VW, VH in Ea. rewrite V3 in Eq.
  assert (PA : (0 < F2R (Z.pos ma) ea)%R) by (apply F2R_pos; lia).
  assert (PQ : (0 < F2R (Z.pos mq) eq)%R) by (apply F2R_pos; lia).
  set (A := F2R (Z.pos ma) ea) in *. set (Q := F2R (Z.pos mq) eq) in *.
  set (N := ceil_div (320 * H) W).
  destruct (ceil_div_spec (320 * H) W ltac:(lia)) as [N1 N2]. fold N in N1, N2.
  assert (HN : 1 <= N <= 320 * H) by nia.
  destruct eps_small as [[E0 E1] E52].
  assert (Pw : (0 < IZR W)%R) by (apply (IZR_lt 0); lia).
  assert (Ph : (0 < IZR H)%R) by (apply (IZR_lt 0); lia).
  assert (A1 : (A * IZR H <= IZR W * (1 + eps))%R).
  { apply Rle_trans with (IZR W / IZR H * (1 + eps) * IZR H)%R.
    - apply Rmult_le_compat_r; lra.
    - apply Req_le. field. lra. }
  assert (A2 : (IZR W * (1 - eps) <= A * IZR H)%R).
  { apply Rle_trans with (IZR W / IZR H * (1 - eps) * IZR H)%R.
    - apply Req_le. field. lra.
    - apply Rmult_le_compat_r; lra. }
  assert (Q1 : (Q * A <= 320 * (1 + eps))%R).
  { apply Rle_trans with (320 / A * (1 + eps) * A)%R.
    - apply Rmult_le_compat_r; lra.
    - apply Req_le. field. lra. }
  assert (Q2 : (320 * (1 - eps) <= Q * A)%R).
  { apply Rle_trans with (320 / A * (1 - eps) * A)%R.
    - apply Req_le. field. lra.
    - apply Rmult_le_compat_r; lra. }
  assert (R1 : ((IZR N - 1) * IZR W + 1 <= 320 * IZR H)%R).
  { rewrite <- minus_IZR, <- !mult_IZR, <- plus_IZR. apply IZR_le. lia. }
  assert (R2 : (320 * IZR H <= IZR N * IZR W)%R).
  { rewrite <- !mult_IZR. apply IZR_le. lia. }
  assert (RN : (1 <= IZR N)%R) by (apply IZR_le; lia).
  assert (S1 : ((1 + 640 * IZR H) * eps < 1)%R).
  { assert (B : (1 + 640 * IZR H < 2 ^ 52)%R).
    { replace (1 + 640 * IZR H)%R with (IZR (1 + 640 * H))
        by (rewrite plus_IZR, mult_IZR; reflexivity).
      rewrite pow_IZR. apply IZR_lt. change (Z.of_nat 52) with 52. lia. }
    apply Rlt_le_trans with (2 ^ 52 * eps)%R;
      [apply Rmult_lt_compat_r; assumption|rewrite Rmult_comm; lra]. }
  assert (S2 : ((2 * IZR N + 2) * eps <= 1)%R).
  { assert (B : (2 * IZR N + 2 <= 2 ^ 52)%R).
    { replace (2 * IZR N + 2)%R with (IZR (2 * N + 2))
        by (rewrite plus_IZR, mult_IZR; reflexivity).
      rewrite pow_IZR. apply IZR_le. change (Z.of_nat 52) with 52. lia. }
    apply Rle_trans with (2 ^ 52 * eps)%R;
      [apply Rmult_le_compat_r; lra|rewrite Rmult_comm; lra]. }
  pose proof (rounded_height_lower _ _ (IZR N) _ _ _ Pw Ph PA PQ E0 A1 Q2 R1
                ltac:(lra) S1) as Lo.
  pose proof (rounded_height_upper _ _ (IZR N) _ _ _ Pw Ph PA PQ (conj E0 E1) A2 Q1 R2
                ltac:(lra) S2) as Up.
  split.
  - assert (IZR (N - 1) < IZR z)%R by (rewrite minus_IZR; lra).
    apply lt_IZR in H0. lia.
  - assert (IZR (z - 1) < IZR (N + 1))%R by (rewrite minus_IZR, plus_IZR; lra).
    apply lt_IZR in H0. lia.
Qed.

(** The width of a block is the integer quotient of the source's width by
    160. *)
Lemma blockWidth_floor img :
  0 <= Dx (RGBA.Rect img) < 2 ^ 52 ->
  blockWidth P img = Dx (RGBA.Rect img) / 160.
Proof.
  intros HW. unfold blockWidth, Size, targetWidth. cbn [X Y].
  change (320 / 2) with 160.
  apply int_of_float64_to_Z; [apply div_floor_float; lia|].
  unfold GoInt.minInt, GoInt.maxInt.
  pose proof (Z.div_pos (Dx (RGBA.Rect img)) 160 ltac:(lia) ltac:(lia)).
  pose proof (Z.div_le_upper_bound (Dx (RGBA.Rect img)) 160 (2 ^ 52) ltac:(lia) ltac:(lia)).
  lia.
Qed.

(** The height of a block is the integer quotient of the source's height by
    the height of the target. *)
Lemma blockHeight_floor img :
  0 <= Dy (RGBA.Rect img) < 2 ^ 52 -> 0 < targetHeight P img < 2 ^ 53 ->
  blockHeight P img = Dy (RGBA.Rect img) / targetHeight P img.
Proof.
  intros HH Ht. unfold blockHeight, Size. cbn [X Y].
  apply int_of_float64_to_Z; [apply div_floor_float; lia|].
  unfold GoInt.minInt, GoInt.maxInt.
  pose proof (Z.div_pos (Dy (RGBA.Rect img)) (targetHeight P img) ltac:(lia) ltac:(lia)).
  pose proof (Z.div_le_upper_bound (Dy (RGBA.Rect img)) (targetHeight P img) (2 ^ 52)
                ltac:(lia) ltac:(nia)).
  lia.
Qed.

End Geometry.

(** ** The grid and the blocks of a source of ordinary size *)

Section SizedSources.
Context (P : Platform).
Import image.

(** X1: for every well-formed source whose width and height are positive and
    below [2^31] and whose height is at most [2^29] times its width, on
    every platform, [ConvertImage] does not panic: it returns a grid 320
    pixels wide whose height is the exact ceiling of [320 * H / W] or one
    more than it.  The bound on the height keeps the grid's buffer of
    [4 * 320 * targetHeight] bytes below the [2^48] bytes that the Go
    runtime can allocate for a slice on a 64-bit platform; [NewRGBA] does
    not model the panic of [make] above that size. *)
Theorem ConvertImage_total (img : RGBA.t) (method : Method) :
  wf img ->
  0 < Dx (RGBA.Rect img) < 2 ^ 31 -> 0 < Dy (RGBA.Rect img) < 2 ^ 31 ->
  Dy (RGBA.Rect img) <= 2 ^ 29 * Dx (RGBA.Rect img) ->
  exists out, ConvertImage P img method = Some out /\
    RGBA.Rect out = {| Min := {| X := 0; Y := 0 |};
                       Max := {| X := 320; Y := targetHeight P img |} |} /\
    ceil_div (320 * Dy (RGBA.Rect img)) (Dx (RGBA.Rect img)) <= targetHeight P img
      <= ceil_div (320 * Dy (RGBA.Rect img)) (Dx (RGBA.Rect img)) + 1 /\
    4 * 320 * targetHeight P img < 2 ^ 48.
Proof.
  intros Wi HW HH HA.
  pose proof (targetHeight_bounds P img HW HH) as B.
  destruct (ceil_div_spec (320 * Dy (RGBA.Rect img)) (Dx (RGBA.Rect img)) ltac:(lia))
    as [N1 N2].
  set (N := ceil_div _ _) in *.
  assert (HN : 1 <= N <= 320 * 2 ^ 29) by nia.
  destruct (convertColumns_spec P (targetWidth + 1) img method Wi
              ltac:(unfold targetWidth; lia) ltac:(lia)
              ltac:(unfold GoInt.maxInt; lia)) as (out & E & _ & R & _).
  exists out. split; [exact E|]. split; [|split; [exact B|lia]].
  rewrite R. unfold Rect, targetWidth.
  destruct (Z.gtb_spec 0 (targetHeight P img)); [lia|reflexivity].
Qed.

Lemma block_sizes (img : RGBA.t) :
  0 < Dx (RGBA.Rect img) < 2 ^ 31 -> 0 < Dy (RGBA.Rect img) < 2 ^ 31 ->
  blockWidth P img = Dx (RGBA.Rect img) / 160 /\
  blockHeight P img = Dy (RGBA.Rect img) / targetHeight P img.
Proof.
  intros HW HH. split; [apply blockWidth_floor; lia|].
  pose proof (targetHeight_bounds P img HW HH) as B.
  destruct (ceil_div_spec (320 * Dy (RGBA.Rect img)) (Dx (RGBA.Rect img)) ltac:(lia))
    as [N1 N2].
  set (N := ceil_div _ _) in *.
  assert (HN : 1 <= N <= 320 * Dy (RGBA.Rect img)) by nia.
  apply blockHeight_floor; lia.
Qed.

(** X2: for a source whose width and height are positive and below [2^31],
    the float64 quotients that size the blocks are the integer quotients:
    a block is [W / 160] pixels wide and [H / targetHeight] pixels high. *)
Theorem block_size_floor (img : RGBA.t) :
  0 < Dx (RGBA.Rect img) < 2 ^ 31 -> 0 < Dy (RGBA.Rect img) < 2 ^ 31 ->
  blockWidth P img = Dx (RGBA.Rect img) / 160 /\
  blockHeight P img = Dy (RGBA.Rect img) / targetHeight P img.
Proof. apply block_sizes. Qed.

(** The rectangle of block [(i, j)] when no product overflows. *)
Lemma blockRect_small img i j :
  0 <= i -> 0 <= j -> 0 <= blockWidth P img -> 0 <= blockHeight P img ->
  (i + 1) * blockWidth P img <= 2 ^ 62 -> (j + 1) * blockHeight P img <= 2 ^ 62 ->
  blockRect P img i j =
    Rect (i * blockWidth P img) (j * blockHeight P img)
         ((i + 1) * blockWidth P img - 1) ((j + 1) * blockHeight P img - 1).
Proof.
  intros Hi Hj Hw Hh Hiw Hjh. unfold blockRect, GoInt.mul, GoInt.sub.
  rewrite !(GoInt.wrap_small (_ * _)) by (unfold GoInt.minInt, GoInt.maxInt; nia).
  rewrite !GoInt.wrap_small by (unfold GoInt.minInt, GoInt.maxInt; nia).
  reflexivity.
Qed.

(** X5: the last pixel column and the last pixel row of every block are never
    read.  When the blocks are at least one pixel wide and high (and the
    block sizes and the target height are below [2^31], so that no product
    of the loop wraps), a block averages the pixels
    [i*bw <= x < (i+1)*bw - 1], [j*bh <= y < (j+1)*bh - 1]: two well-formed
    sources with the same rectangle that differ only in the columns
    [x = bw - 1 (mod bw)] and the rows [y = bh - 1 (mod bh)] are converted
    to the same result. *)
Theorem ConvertImage_skips_block_edges (img img' : RGBA.t) (method : Method) :
  wf img -> wf img' -> RGBA.Rect img = RGBA.Rect img' ->
  1 <= blockWidth P img < 2 ^ 31 -> 1 <= blockHeight P img < 2 ^ 31 ->
  targetHeight P img < 2 ^ 31 ->
  (forall u v,
     u mod blockWidth P img <> blockWidth P img - 1 ->
     v mod blockHeight P img <> blockHeight P img - 1 ->
     RGBAAt img u v = RGBAAt img' u v) ->
  ConvertImage P img method = ConvertImage P img' method.
Proof.
  intros W W' E Hw Hh Ht H.
  apply ConvertImage_ext; try assumption.
  intros u v (i & j & Hi & Hj & I).
  rewrite blockRect_small in I by nia.
  apply In_spec in I.
  set (bw := blockWidth P img) in *. set (bh := blockHeight P img) in *.
  destruct (Rect_canonical (i * bw) (j * bh) ((i + 1) * bw - 1) ((j + 1) * bh - 1))
    as (X0 & X1 & Y0 & Y1).
  rewrite X0, X1, Y0, Y1 in I.
  assert (Hu : i * bw <= u < (i + 1) * bw - 1) by nia.
  assert (Hv : j * bh <= v < (j + 1) * bh - 1) by nia.
  apply H.
  - rewrite <- (Z.mod_unique u bw i (u - i * bw)); lia.
  - rewrite <- (Z.mod_unique v bh j (v - j * bh)); lia.
Qed.

(** X6: a source narrower than 640 pixels is converted without reading any
    of its pixels.  The grid is then more than half as high as the source,
    so the blocks are 1 or 0 pixels high: a block rectangle of height 1 ends
    at [(j+1)*1 - 1 = j], where it starts, and is empty; one of height 0 is
    the row [y = -1], outside the source.  So two such sources of the same
    rectangle give the same grid, whatever their pixels. *)
Theorem ConvertImage_narrow_source (img img' : RGBA.t) (method : Method) :
  wf img -> wf img' -> RGBA.Rect img = RGBA.Rect img' ->
  0 <= Y (Min (RGBA.Rect img)) ->
  0 < Dx (RGBA.Rect img) < 640 -> 0 < Dy (RGBA.Rect img) < 2 ^ 31 ->
  ConvertImage P img method = ConvertImage P img' method.
Proof.
  intros W W' E Hy HW HH.
  destruct (block_sizes img ltac:(lia) HH) as [Bw Bh].
  pose proof (targetHeight_bounds P img ltac:(lia) HH) as B.
  destruct (ceil_div_spec (320 * Dy (RGBA.Rect img)) (Dx (RGBA.Rect img)) ltac:(lia))
    as [N1 N2].
  set (N := ceil_div _ _) in *.
  assert (HN : 1 <= N <= 320 * Dy (RGBA.Rect img)) by nia.
  assert (Hhalf : Dy (RGBA.Rect img) < 2 * targetHeight P img) by nia.
  assert (Hbh : blockHeight P img = 0 \/ blockHeight P img = 1).
  { rewrite Bh.
    pose proof (Z.div_pos (Dy (RGBA.Rect img)) (targetHeight P img) ltac:(lia) ltac:(lia)).
    pose proof (Z.div_lt_upper_bound (Dy (RGBA.Rect img)) (targetHeight P img) 2
                  ltac:(lia) ltac:(lia)).
    lia. }
  assert (Hbw : 0 <= blockWidth P img <= 3).
  { rewrite Bw. split; [apply Z.div_pos; lia|].
    assert (Dx (RGBA.Rect img) / 160 < 4) by (apply Z.div_lt_upper_bound; lia). lia. }
  apply ConvertImage_ext; try assumption.
  intros u v (i & j & Hi & Hj & I).
  assert (Hiw : (i + 1) * blockWidth P img <= 2 ^ 62) by nia.
  assert (Hjh : (j + 1) * blockHeight P img <= 2 ^ 62)
    by (destruct Hbh as [-> | ->]; lia).
  rewrite blockRect_small in I by lia.
  apply In_spec in I.
  destruct (Rect_canonical (i * blockWidth P img) (j * blockHeight P img)
              ((i + 1) * blockWidth P img - 1) ((j + 1) * blockHeight P img - 1))
    as (_ & _ & Y0 & Y1).
  rewrite Y0, Y1 in I.
  destruct Hbh as [Z0|Z1].
  - rewrite Z0 in I. assert (v = -1) by lia. subst v.
    unfold RGBAAt. rewrite <- E.
    destruct (In _ _) eqn:Q; [apply In_spec in Q; lia|reflexivity].
  - rewrite Z1 in I. lia.
Qed.

End SizedSources.

(** ** Sums and comparisons of integers in binary64 *)

Section ExactSums.

Lemma shr_1_even m :
  0 < m ->
  shr_1 {| shr_m := 2 * m; shr_r := false; shr_s := false |}
  = {| shr_m := m; shr_r := false; shr_s := false |}.
Proof. intros H. destruct m as [|p|p]; try lia. reflexivity. Qed.

(** Shifting out zero bits loses nothing. *)
Lemma iter_shr_1_exact n m :
  0 < m ->
  SpecFloat.iter_pos shr_1 n
    {| shr_m := m * 2 ^ Z.pos n; shr_r := false; shr_s := false |}
  = {| shr_m := m; shr_r := false; shr_s := false |}.
Proof.
  revert m. induction n as [n IH|n IH|]; intros m Hm; cbn [SpecFloat.iter_pos].
  - replace (m * 2 ^ Z.pos n~1) with (2 * (m * 2 ^ Z.pos n * 2 ^ Z.pos n)).
    + assert (0 < 2 ^ Z.pos n) by (apply Z.pow_pos_nonneg; lia).
      rewrite shr_1_even by nia. rewrite IH by nia. now apply IH.
    + replace (Z.pos n~1) with (1 + (Z.pos n + Z.pos n)) by lia.
      rewrite !Z.pow_add_r, Z.pow_1_r by lia. ring.
  - replace (m * 2 ^ Z.pos n~0) with (m * 2 ^ Z.pos n * 2 ^ Z.pos n).
    + assert (0 < 2 ^ Z.pos n) by (apply Z.pow_pos_nonneg; lia).
      rewrite IH by nia. now apply IH.
    + replace (Z.pos n~0) with (Z.pos n + Z.pos n) by lia.
      rewrite !Z.pow_add_r by lia. ring.
  - rewrite Z.pow_1_r, Z.mul_comm. now apply shr_1_even.
Qed.

Lemma log2_shifted (c : positive) k :
  2 ^ 52 <= Z.pos c < 2 ^ 53 -> 0 <= k -> Z.log2 (Z.pos c * 2 ^ k) = 52 + k.
Proof.
  intros Hc Hk. rewrite <- Z.shiftl_mul_pow2, Z.log2_shiftl by lia.
  rewrite (log2_52 (Z.pos c) Hc). reflexivity.
Qed.

(** A mantissa of 53 bits followed by zeros is rounded to itself. *)
Lemma binary_round_aux_exact (c : positive) (k E : Z) :
  2 ^ 52 <= Z.pos c < 2 ^ 53 -> 0 <= k ->
  emin <= E + k -> E + k <= emax - prec ->
  binary_round_aux prec emax false (Z.pos c * 2 ^ k) E loc_Exact
  = S754_finite false c (E + k).
Proof.
  intros Hc Hk He Ho.
  pose proof (log2_shifted c k Hc Hk) as L.
  assert (Pos : 0 < Z.pos c * 2 ^ k).
  { apply Z.mul_pos_pos; [lia|apply Z.pow_pos_nonneg; lia]. }
  unfold binary_round_aux, shr_fexp.
  destruct (Z.pos c * 2 ^ k) as [|M|M] eqn:EM; try lia.
  rewrite Zdigits2_log2, L.
  replace (fexp prec emax (52 + k + 1 + E) - E) with k
    by (unfold fexp, SpecFloat.emin, prec, emax in *; lia).
  cbn [shr_record_of_loc].
  assert (S : shr {| shr_m := Z.pos M; shr_r := false; shr_s := false |} E k
              = ({| shr_m := Z.pos c; shr_r := false; shr_s := false |}, E + k)).
  { destruct k as [|pk|pk]; try lia.
    - cbn [shr]. rewrite Z.pow_0_r, Z.mul_1_r in EM. now rewrite <- EM, Z.add_0_r.
    - cbn [shr]. rewrite <- EM, iter_shr_1_exact by lia. reflexivity. }
  rewrite S. cbn [shr_m loc_of_shr_record round_nearest_even].
  rewrite Zdigits2_log2, (log2_52 (Z.pos c)) by assumption.
  replace (fexp prec emax (52 + 1 + (E + k)) - (E + k)) with 0
    by (unfold fexp, SpecFloat.emin, prec, emax in *; lia).
  cbn [shr shr_record_of_loc shr_m].
  destruct (Z.leb_spec (E + k) (emax - prec)); [reflexivity|lia].
Qed.

Lemma binary_round_exact (M c : positive) (k E : Z) :
  Z.pos M = Z.pos c * 2 ^ k -> 2 ^ 52 <= Z.pos c < 2 ^ 53 -> 0 <= k ->
  emin <= E + k -> E + k <= emax - prec ->
  binary_round prec emax false M E = S754_finite false c (E + k).
Proof.
  intros EM Hc Hk He Ho.
  unfold binary_round, shl_align.
  pose proof (Zdigits2_log2 M) as D. cbn [Zdigits2] in D. rewrite D.
  assert (LM : Z.log2 (Z.pos M) = 52 + k) by (rewrite EM; now apply log2_shifted).
  rewrite LM.
  replace (fexp prec emax (52 + k + 1 + E) - E) with k
    by (unfold fexp, SpecFloat.emin, prec, emax in *; lia).
  destruct k as [|pk|pk]; try lia; cbv beta iota zeta;
    rewrite EM; now apply binary_round_aux_exact.
Qed.

Lemma shl_align_fst m e e' :
  e' <= e -> Z.pos (fst (shl_align m e e')) = Z.pos m * 2 ^ (e - e').
Proof.
  intros H. unfold shl_align.
  destruct (e' - e) as [|d|d] eqn:E; try lia; cbn [fst].
  - replace (e - e') with 0 by lia. lia.
  - rewrite iter_xO_mul. f_equal. f_equal. lia.
Qed.

(** The sum of two integers in binary64 is exact while it is below [2^53]. *)
Lemma add_exact a b :
  0 <= a -> 0 <= b -> a + b < 2 ^ 53 ->
  (F64.of_int a + F64.of_int b)%float = F64.of_int (a + b).
Proof.
  intros Ha Hb Hab. apply Prim2SF_inj. rewrite add_spec.
  destruct (Z.eq_dec a 0) as [->|Na]; [|destruct (Z.eq_dec b 0) as [->|Nb]].
  - rewrite of_int_0, Z.add_0_l.
    destruct (Z.eq_dec b 0) as [->|Nb]; [reflexivity|].
    destruct (of_int_normal b ltac:(lia)) as (mb & [Eb _] & _). now rewrite Eb.
  - rewrite of_int_0, Z.add_0_r.
    destruct (of_int_normal a ltac:(lia)) as (ma & [Ea _] & _). now rewrite Ea.
  - destruct (of_int_normal a ltac:(lia)) as (ma & [Ea Hma] & Va & _).
    destruct (of_int_normal b ltac:(lia)) as (mb & [Eb Hmb] & Vb & _).
    destruct (of_int_normal (a + b) ltac:(lia)) as (mc & [Ec Hmc] & Vc & _).
    rewrite Ea, Eb, Ec.
    pose proof (log2_bound a 53 ltac:(lia) ltac:(lia)) as La.
    pose proof (log2_bound b 53 ltac:(lia) ltac:(lia)) as Lb.
    pose proof (log2_bound (a + b) 53 ltac:(lia) ltac:(lia)) as Lc.
    assert (Lac : Z.log2 a <= Z.log2 (a + b)) by (apply Z.log2_le_mono; lia).
    assert (Lbc : Z.log2 b <= Z.log2 (a + b)) by (apply Z.log2_le_mono; lia).
    unfold SF64add, SFadd. cbn [cond_Zopp].
    set (ez := Z.min (Z.log2 a - 52) (Z.log2 b - 52)).
    assert (Hez : ez <= Z.log2 a - 52 /\ ez <= Z.log2 b - 52 /\
                  (ez = Z.log2 a - 52 \/ ez = Z.log2 b - 52)) by (unfold ez; lia).
    rewrite !shl_align_fst by lia. rewrite Va, Vb.
    assert (Ea' : a * 2 ^ (52 - Z.log2 a) * 2 ^ (Z.log2 a - 52 - ez) = a * 2 ^ (- ez)).
    { rewrite <- Z.mul_assoc, <- Z.pow_add_r by lia. f_equal. f_equal. lia. }
    assert (Eb' : b * 2 ^ (52 - Z.log2 b) * 2 ^ (Z.log2 b - 52 - ez) = b * 2 ^ (- ez)).
    { rewrite <- Z.mul_assoc, <- Z.pow_add_r by lia. f_equal. f_equal. lia. }
    rewrite Ea', Eb', <- Z.mul_add_distr_r.
    assert (Pz : 0 < 2 ^ (- ez)) by (apply Z.pow_pos_nonneg; lia).
    assert (PM : 0 < (a + b) * 2 ^ (- ez)) by (apply Z.mul_pos_pos; lia).
    destruct ((a + b) * 2 ^ (- ez)) as [|M|M] eqn:EM; try lia.
    cbn [binary_normalize].
    replace (Z.log2 (a + b) - 52) with (ez + (Z.log2 (a + b) - 52 - ez)) by lia.
    apply binary_round_exact; try assumption; try lia.
    + rewrite Vc, <- Z.mul_assoc, <- Z.pow_add_r by lia.
      rewrite <- EM. f_equal. f_equal. lia.
    + unfold SpecFloat.emin, prec, emax. lia.
    + unfold prec, emax. lia.
Qed.

(** Integers below [2^53] compare in binary64 as they do in [Z]. *)
Lemma ltb_of_int a b :
  0 <= a < 2 ^ 53 -> 0 <= b < 2 ^ 53 ->
  (F64.of_int a <? F64.of_int b)%float = (a <? b).
Proof.
  intros Ha Hb.
  apply eq_true_iff_eq. rewrite ltb_spec, SFltb_key, Z.ltb_lt.
  destruct (Z.eq_dec a 0) as [->|Na]; [|destruct (Z.eq_dec b 0) as [->|Nb]].
  - rewrite of_int_0. destruct (Z.eq_dec b 0) as [->|Nb].
    + rewrite of_int_0. unfold key_lt. cbn [order_key]. split; [|lia].
      intros (x & y & Ex & Ey & L). injection Ex as <-. injection Ey as <-.
      cbn [fst snd] in L. lia.
    + destruct (of_int_normal b ltac:(lia)) as (mb & [Eb _] & _). rewrite Eb.
      cbn [order_key]. split; [lia|]. intros _.
      eexists _, _. split; [reflexivity|]. split; [reflexivity|].
      unfold key_lt. cbn [fst snd]. lia.
  - rewrite of_int_0.
    destruct (of_int_normal a ltac:(lia)) as (ma & [Ea _] & _). rewrite Ea.
    cbn [order_key]. split; [|lia].
    intros (x & y & Ex & Ey & L). injection Ex as <-. injection Ey as <-.
    unfold key_lt in L. cbn [fst snd] in L. lia.
  - destruct (of_int_normal a ltac:(lia)) as (ma & [Ea Hma] & Va & _).
    destruct (of_int_normal b ltac:(lia)) as (mb & [Eb Hmb] & Vb & _).
    rewrite Ea, Eb. cbn [order_key].
    pose proof (log2_bound a 53 ltac:(lia) ltac:(lia)) as La.
    pose proof (log2_bound b 53 ltac:(lia) ltac:(lia)) as Lb.
    pose proof (Z.log2_spec a ltac:(lia)) as Sa.
    pose proof (Z.log2_spec b ltac:(lia)) as Sb.
    assert (K : key_lt (1, Z.log2 a - 52, Z.pos ma) (1, Z.log2 b - 52, Z.pos mb)
                <-> a < b).
    { unfold key_lt. cbn [fst snd]. rewrite Va, Vb.
      destruct (Z.lt_total (Z.log2 a) (Z.log2 b)) as [L|[L|L]].
      - assert (2 ^ Z.succ (Z.log2 a) <= 2 ^ Z.log2 b)
          by (apply Z.pow_le_mono_r; lia). lia.
      - rewrite L. assert (0 < 2 ^ (52 - Z.log2 b)) by (apply Z.pow_pos_nonneg; lia).
        split; [intros [?|[_ [?|[_ ?]]]]; try lia; nia|intros; right; split; [reflexivity|]].
        right. split; [lia|nia].
      - assert (2 ^ Z.succ (Z.log2 b) <= 2 ^ Z.log2 a)
          by (apply Z.pow_le_mono_r; lia). lia. }
    rewrite <- K. split.
    + intros (x & y & Ex & Ey & L). injection Ex as <-. injection Ey as <-. exact L.
    + intros L. eexists _, _. split; [reflexivity|]. split; [reflexivity|exact L].
Qed.

End ExactSums.

(** ** The RGB method in integers *)

Section RGBIntegers.
Context (P : Platform).

(** The squared Euclidean distance of two colours in RGB, in [Z]. *)
Definition sqDistance (c d : color.RGBA) : Z :=
  (color.R c - color.R d) * (color.R c - color.R d) +
  (color.G c - color.G d) * (color.G c - color.G d) +
  (color.B c - color.B d) * (color.B c - color.B d).

Lemma square_uint8_range a b :
  0 <= a <= 255 -> 0 <= b <= 255 -> 0 <= (a - b) * (a - b) <= 65025.
Proof.
  intros Ha Hb. split; [apply Z.square_nonneg|].
  rewrite <- Z.abs_square. change 65025 with (255 * 255).
  apply Z.square_le_mono_nonneg; lia.
Qed.

Lemma sqDistance_range c d :
  color.wf c -> color.wf d -> 0 <= sqDistance c d <= 195075.
Proof.
  intros (Hr & Hg & Hb & _) (Hr' & Hg' & Hb' & _). unfold sqDistance.
  pose proof (square_uint8_range _ _ Hr Hr').
  pose proof (square_uint8_range _ _ Hg Hg').
  pose proof (square_uint8_range _ _ Hb Hb').
  lia.
Qed.

Lemma sqDistance_zero c d :
  sqDistance c d = 0 <->
  color.R c = color.R d /\ color.G c = color.G d /\ color.B c = color.B d.
Proof.
  unfold sqDistance. split.
  - intros E.
    pose proof (Z.square_nonneg (color.R c - color.R d)).
    pose proof (Z.square_nonneg (color.G c - color.G d)).
    pose proof (Z.square_nonneg (color.B c - color.B d)).
    assert (E1 : (color.R c - color.R d) * (color.R c - color.R d) = 0) by lia.
    assert (E2 : (color.G c - color.G d) * (color.G c - color.G d) = 0) by lia.
    assert (E3 : (color.B c - color.B d) * (color.B c - color.B d) = 0) by lia.
    apply Z.mul_eq_0 in E1, E2, E3. lia.
  - intros (-> & -> & ->). rewrite !Z.sub_diag. reflexivity.
Qed.

Lemma rgbDistance_integer c d :
  Pow_squares P -> color.wf c -> color.wf d ->
  rgbDistance (AF := binary64 P) c d = F64.of_int (sqDistance c d).
Proof.
  intros HP (Hr & Hg & Hb & _) (Hr' & Hg' & Hb' & _).
  unfold rgbDistance, sqDistance. cbn [binary64 mPow add sub ofZ lit].
  replace (F64.of_Q 2) with 2%float by reflexivity.
  rewrite !sub_uint8_exact by assumption.
  rewrite !HP by lia.
  pose proof (square_uint8_range _ _ Hr Hr').
  pose proof (square_uint8_range _ _ Hg Hg').
  pose proof (square_uint8_range _ _ Hb Hb').
  rewrite !add_exact by lia. reflexivity.
Qed.

(** X14: with [math.Pow] exact on squares of small integers, [rgbDistance] of
    two colours is exactly the integer
    [(R1-R2)^2 + (G1-G2)^2 + (B1-B2)^2] as a float64; it is the same in both
    directions and ignores alpha. *)
Theorem rgbDistance_exact (c d : color.RGBA) :
  Pow_squares P -> color.wf c -> color.wf d ->
  rgbDistance (AF := binary64 P) c d = F64.of_int (sqDistance c d) /\
  rgbDistance (AF := binary64 P) c d = rgbDistance (AF := binary64 P) d c.
Proof.
  intros HP Hc Hd. split; [now apply rgbDistance_integer|].
  rewrite !rgbDistance_integer by assumption. f_equal. unfold sqDistance. ring.
Qed.

Lemma C64Color_wf i : color.wf (C64Color i).
Proof.
  unfold C64Color.
  destruct (nth_in_or_default (Z.to_nat i) C64Colors color.zero) as [I| ->].
  - pose proof C64Colors_wf as F. rewrite Forall_forall in F. now apply F.
  - unfold color.wf, color.zero. cbn [color.R color.G color.B color.A]. lia.
Qed.

Lemma of_int_not_nan z : 0 <= z < 2 ^ 53 -> F64.is_nan (F64.of_int z) = false.
Proof.
  intros Hz. unfold F64.is_nan. destruct (Z.eq_dec z 0) as [->|N].
  - now rewrite of_int_0.
  - destruct (of_int_normal z ltac:(lia)) as (m & [E _] & _). now rewrite E.
Qed.

Lemma paletteDistance_RGB lab c j :
  Pow_squares P -> color.wf c ->
  paletteDistance P RGBMethod lab c j = F64.of_int (sqDistance c (C64Color j)).
Proof.
  intros HP Hc. unfold paletteDistance, deltaE, platform_arith.
  apply rgbDistance_integer; [assumption..|apply C64Color_wf].
Qed.

Lemma closestC64Color_RGB_least lab c j :
  Pow_squares P -> color.wf c ->
  (0 <= j <= 15 ->
     sqDistance c (C64Color (closestC64Color P lab c RGBMethod))
     <= sqDistance c (C64Color j)) /\
  (0 <= j < closestC64Color P lab c RGBMethod ->
     sqDistance c (C64Color (closestC64Color P lab c RGBMethod))
     < sqDistance c (C64Color j)).
Proof.
  intros HP Hc.
  destruct (closestC64Color_invariant P RGBMethod lab c) as (I1 & I2 & I3).
  unfold closestC64Color.
  set (best := closest_from P RGBMethod lab c C64Colors 0 (0, infinity)) in *.
  assert (R : forall i, 0 <= sqDistance c (C64Color i) < 2 ^ 53).
  { intros i. pose proof (sqDistance_range c (C64Color i) Hc (C64Color_wf i)). lia. }
  assert (D : snd best = F64.of_int (sqDistance c (C64Color (fst best)))).
  { destruct I2 as [[B0 Binf]|[Bk Bd]].
    - (* the first colour is always accepted *)
      exfalso. specialize (I1 0 ltac:(lia)).
      rewrite Binf, paletteDistance_RGB in I1 by assumption.
      rewrite ltb_spec in I1.
      destruct (Z.eq_dec (sqDistance c (C64Color 0)) 0) as [Z0|N0].
      + rewrite Z0, of_int_0 in I1. discriminate I1.
      + destruct (of_int_normal (sqDistance c (C64Color 0))) as (m & [E _] & _);
          [specialize (R 0); lia|].
        rewrite E in I1. discriminate I1.
    - rewrite Bd. now apply paletteDistance_RGB. }
  split.
  - intros Hj. specialize (I1 j ltac:(lia)).
    rewrite D, paletteDistance_RGB, ltb_of_int in I1 by (assumption || apply R).
    apply Z.ltb_ge in I1. exact I1.
  - intros Hj. destruct (I3 j Hj) as [L|N].
    + rewrite D, paletteDistance_RGB, ltb_of_int in L by (assumption || apply R).
      now apply Z.ltb_lt in L.
    + rewrite paletteDistance_RGB, of_int_not_nan in N by (assumption || apply R).
      discriminate N.
Qed.

(** X12: under the RGB method [closestC64Color] returns the palette colour
    nearest to the sample in squared Euclidean distance over the integer
    channels, and the first such colour of the table when several are
    nearest; the Lab sample plays no part. *)
Theorem closestC64Color_RGB_nearest (lab : cielab.t float) (c : color.RGBA) (j : Z) :
  Pow_squares P -> color.wf c ->
  (0 <= j <= 15 ->
     sqDistance c (C64Color (closestC64Color P lab c RGBMethod))
     <= sqDistance c (C64Color j)) /\
  (0 <= j < closestC64Color P lab c RGBMethod ->
     sqDistance c (C64Color (closestC64Color P lab c RGBMethod))
     < sqDistance c (C64Color j)).
Proof. apply closestC64Color_RGB_least. Qed.

(** The palette has no two colours of the same red, green and blue. *)
Lemma palette_distinct i k :
  0 <= i <= 15 -> 0 <= k <= 15 ->
  sqDistance (C64Color i) (C64Color k) = 0 -> i = k.
Proof.
  intros Hi Hk.
  pose (p := fun i k => negb (sqDistance (C64Color i) (C64Color k) =? 0) || (i =? k)).
  assert (T : p i k = true).
  { apply (forallb_Zrange (p i) 0 16); [|lia].
    apply (forallb_Zrange (fun i => forallb (p i) (Zrange 0 16)) 0 16); [|lia].
    vm_compute. reflexivity. }
  unfold p in T. intros E. rewrite E in T. cbn in T. now apply Z.eqb_eq.
Qed.

(** X13: under the RGB method every palette colour is matched to itself:
    a sample with the red, green and blue of the palette colour of index [i]
    gets the index [i], whatever its alpha and Lab sample. *)
Theorem closestC64Color_palette_fixed (lab : cielab.t float) (c : color.RGBA) (i : Z) :
  Pow_squares P -> color.wf c -> 0 <= i <= 15 ->
  sqDistance c (C64Color i) = 0 ->
  closestC64Color P lab c RGBMethod = i.
Proof.
  intros HP Hc Hi E.
  pose proof (closest_from_range P RGBMethod lab c C64Colors 0 (0, infinity)
                (Z.le_refl 0) ltac:(cbn [fst]; lia)) as Rk.
  cbn [length C64Colors] in Rk.
  change (fst (closest_from P RGBMethod lab c C64Colors 0 (0, infinity)))
    with (closestC64Color P lab c RGBMethod) in Rk.
  set (k := closestC64Color P lab c RGBMethod) in *.
  destruct (closestC64Color_RGB_least lab c i HP Hc) as [L _]. fold k in L.
  specialize (L Hi). rewrite E in L.
  pose proof (sqDistance_range c (C64Color k) Hc (C64Color_wf k)) as Rg.
  assert (Ek : sqDistance c (C64Color k) = 0) by lia.
  apply (palette_distinct k i); [lia|lia|].
  apply sqDistance_zero in E as (E1 & E2 & E3).
  apply sqDistance_zero in Ek as (K1 & K2 & K3).
  apply sqDistance_zero. repeat split; congruence.
Qed.

End RGBIntegers.

(** ** The RGB estimate of a block: the truncated mean of its channels *)

Section ChannelSums.

(** [g lo + g (lo + 1) + ... ], [n] terms. *)
Fixpoint sum_from (n : nat) (lo : Z) (g : Z -> Z) : Z :=
  match n with
  | O => 0
  | S n' => g lo + sum_from n' (lo + 1) g
  end.

(** The sum of [g] over [lo <= i < hi]. *)
Definition sum_between (lo hi : Z) (g : Z -> Z) : Z :=
  sum_from (Z.to_nat (hi - lo)) lo g.

Lemma sum_from_snoc n lo g :
  sum_from (S n) lo g = sum_from n lo g + g (lo + Z.of_nat n).
Proof.
  revert lo. induction n as [|n IH]; intros lo.
  - cbn [sum_from]. change (Z.of_nat 0) with 0. rewrite (Z.add_0_r lo). lia.
  - change (sum_from (S (S n)) lo g) with (g lo + sum_from (S n) (lo + 1) g).
    rewrite IH. cbn [sum_from].
    replace (lo + 1 + Z.of_nat n) with (lo + Z.of_nat (S n)) by lia. lia.
Qed.

Lemma sum_between_empty lo g : sum_between lo lo g = 0.
Proof. unfold sum_between. now rewrite Z.sub_diag. Qed.

Lemma sum_between_snoc lo i g :
  lo <= i -> sum_between lo (i + 1) g = sum_between lo i g + g i.
Proof.
  intros H. unfold sum_between.
  replace (Z.to_nat (i + 1 - lo)) with (S (Z.to_nat (i - lo))) by lia.
  rewrite sum_from_snoc. f_equal. f_equal. lia.
Qed.

Lemma sum_from_bound n lo g m :
  (forall i, 0 <= g i <= m) -> 0 <= sum_from n lo g <= m * Z.of_nat n.
Proof.
  intros H. revert lo. induction n as [|n IH]; intros lo; cbn [sum_from]; [lia|].
  specialize (IH (lo + 1)). specialize (H lo).
  rewrite Nat2Z.inj_succ, Z.mul_succ_r. lia.
Qed.

Lemma sum_between_bound lo hi g m :
  lo <= hi -> (forall i, 0 <= g i <= m) -> 0 <= sum_between lo hi g <= m * (hi - lo).
Proof.
  intros L H. unfold sum_between.
  pose proof (sum_from_bound (Z.to_nat (hi - lo)) lo g m H) as B.
  rewrite Z2Nat.id in B by lia. exact B.
Qed.

Lemma sum_from_const n lo c : sum_from n lo (fun _ => c) = c * Z.of_nat n.
Proof.
  revert lo. induction n as [|n IH]; intros lo; cbn [sum_from]; [lia|].
  rewrite IH, Nat2Z.inj_succ, Z.mul_succ_r. lia.
Qed.

Lemma sum_from_ext n lo g g' :
  (forall i, lo <= i < lo + Z.of_nat n -> g i = g' i) ->
  sum_from n lo g = sum_from n lo g'.
Proof.
  revert lo. induction n as [|n IH]; intros lo H; cbn [sum_from]; [reflexivity|].
  rewrite (H lo) by lia. f_equal. apply IH. intros i Hi. apply H. lia.
Qed.

End ChannelSums.

Section BlockMean.
Context (P : Platform).
Import image.

(** The pixel that [RGBAAt] reads. *)
Definition pixelAt (img : RGBA.t) (x y : Z) : color.RGBA :=
  match RGBAAt img x y with
  | Some c => c
  | None => color.zero
  end.

(** The sum of a channel over the pixels of a rectangle; a pixel outside
    the image counts as the zero colour, as [RGBAAt] reads it. *)
Definition channelSum (f : color.RGBA -> Z) (img : RGBA.t) (rect : Rectangle) : Z :=
  sum_between (X (Min rect)) (X (Max rect)) (fun x =>
    sum_between (Y (Min rect)) (Y (Max rect)) (fun y => f (pixelAt img x y))).

(** [Pix] is a slice of [uint8]. *)
Definition bytes (img : RGBA.t) : Prop :=
  Forall (fun b => 0 <= b <= 255) (RGBA.Pix img).

Lemma get4_bytes pix i c :
  Forall (fun b => 0 <= b <= 255) pix -> get4 pix i = Some c -> color.wf c.
Proof.
  intros F. rewrite Forall_forall in F. unfold get4.
  destruct (i <? 0); [discriminate|].
  destruct (nth_error pix (Z.to_nat i)) as [r|] eqn:Er; [|discriminate].
  destruct (nth_error pix (Z.to_nat i + 1)) as [g|] eqn:Eg; [|discriminate].
  destruct (nth_error pix (Z.to_nat i + 2)) as [b|] eqn:Eb; [|discriminate].
  destruct (nth_error pix (Z.to_nat i + 3)) as [a|] eqn:Ea; [|discriminate].
  intros [= <-]. apply nth_error_In in Er, Eg, Eb, Ea.
  unfold color.wf. cbn [color.R color.G color.B color.A]. auto.
Qed.

Lemma pixelAt_wf img x y : bytes img -> color.wf (pixelAt img x y).
Proof.
  intros B. unfold pixelAt, RGBAAt.
  destruct (negb _).
  - unfold color.wf, color.zero. cbn [color.R color.G color.B color.A]. lia.
  - destruct (get4 _ _) as [c|] eqn:E.
    + exact (get4_bytes _ _ _ B E).
    + unfold color.wf, color.zero. cbn [color.R color.G color.B color.A]. lia.
Qed.

(** The three sums that the state of the loops holds. *)
Definition holds_sums (sr sg sb : Z) (s : cielab.t float * rgb.t float) : Prop :=
  rgb.r (snd s) = F64.of_int sr /\ rgb.g (snd s) = F64.of_int sg /\
  rgb.b (snd s) = F64.of_int sb.

Lemma meanBlockColor_sums img rect :
  wf img -> bytes img ->
  X (Min rect) <= X (Max rect) -> Y (Min rect) <= Y (Max rect) ->
  (X (Max rect) - X (Min rect)) * (Y (Max rect) - Y (Min rect)) <= 2 ^ 44 ->
  exists s,
    for_range (X (Min rect)) (X (Max rect)) (fun x =>
      for_range (Y (Min rect)) (Y (Max rect)) (fun y '(avglab, avgrgb) =>
        match RGBAAt img x y with
        | None => None
        | Some rgbColor =>
            let lab := convertRGBAtoCIELAB (AF := binary64 P) rgbColor in
            Some (cielab.mk (cielab.l avglab + cielab.l lab)%float
                            (cielab.a avglab + cielab.a lab)%float
                            (cielab.b avglab + cielab.b lab)%float,
                  rgb.mk (rgb.r avgrgb + F64.of_int (color.R rgbColor))%float
                         (rgb.g avgrgb + F64.of_int (color.G rgbColor))%float
                         (rgb.b avgrgb + F64.of_int (color.B rgbColor))%float)
        end))
      (cielab.mk 0%float 0%float 0%float, rgb.mk 0%float 0%float 0%float) = Some s /\
    holds_sums (channelSum color.R img rect) (channelSum color.G img rect)
               (channelSum color.B img rect) s.
Proof.
  intros Wi Bi Hx Hy Hn.
  set (x0 := X (Min rect)) in *. set (x1 := X (Max rect)) in *.
  set (y0 := Y (Min rect)) in *. set (y1 := Y (Max rect)) in *.
  set (col := fun (f : color.RGBA -> Z) (x : Z) =>
                sum_between y0 y1 (fun y => f (pixelAt img x y))).
  assert (Hf : forall f : color.RGBA -> Z, List.In f [color.R; color.G; color.B] ->
                 forall x y, 0 <= f (pixelAt img x y) <= 255).
  { intros f I x y. destruct (pixelAt_wf img x y Bi) as (Hr & Hg & Hb & _).
    destruct I as [<-|[<-|[<-|[]]]]; assumption. }
  assert (Hcol : forall f, List.In f [color.R; color.G; color.B] ->
                   forall x, 0 <= col f x <= 255 * (y1 - y0)).
  { intros f I x. apply sum_between_bound; [lia|]. intros y. now apply Hf. }
  assert (Hrow : forall f, List.In f [color.R; color.G; color.B] ->
                   forall x y, x0 <= x < x1 -> y0 <= y < y1 ->
                   0 <= sum_between x0 x (col f)
                        + sum_between y0 y (fun y => f (pixelAt img x y))
                   /\ sum_between x0 x (col f)
                      + sum_between y0 y (fun y => f (pixelAt img x y))
                      + f (pixelAt img x y) < 2 ^ 53).
  { intros f I x y Hx' Hy'.
    pose proof (sum_between_bound x0 x (col f) (255 * (y1 - y0)) ltac:(lia) (Hcol f I)).
    pose proof (sum_between_bound y0 y (fun y => f (pixelAt img x y)) 255
                  ltac:(lia) (Hf f I x)).
    pose proof (Hf f I x y).
    assert ((y1 - y0) * (x - x0) + (y - y0) + 1 <= (x1 - x0) * (y1 - y0)) by nia.
    assert (255 * 2 ^ 44 < 2 ^ 53) by lia.
    split; [lia|nia]. }
  assert (IR : List.In color.R [color.R; color.G; color.B]) by (cbn; auto).
  assert (IG : List.In color.G [color.R; color.G; color.B]) by (cbn; auto).
  assert (IB : List.In color.B [color.R; color.G; color.B]) by (cbn; auto).
  match goal with |- context [for_range x0 x1 ?body ?init] =>
    destruct (for_range_invariant
                (fun x st => holds_sums (sum_between x0 x (col color.R))
                                        (sum_between x0 x (col color.G))
                                        (sum_between x0 x (col color.B)) st)
                x0 x1 body init Hx) as (s' & E & I)
  end.
  - rewrite !sum_between_empty. repeat split.
  - intros x s Hx' Is.
    match goal with |- context [for_range y0 y1 ?body s] =>
      destruct (for_range_invariant
                  (fun y st => holds_sums
                     (sum_between x0 x (col color.R)
                      + sum_between y0 y (fun y => color.R (pixelAt img x y)))
                     (sum_between x0 x (col color.G)
                      + sum_between y0 y (fun y => color.G (pixelAt img x y)))
                     (sum_between x0 x (col color.B)
                      + sum_between y0 y (fun y => color.B (pixelAt img x y))) st)
                  y0 y1 body s Hy) as (s' & E & I)
    end.
    + rewrite !sum_between_empty, !Z.add_0_r. exact Is.
    + intros y [lab c] Hy' (Jr & Jg & Jb). cbn [snd] in Jr, Jg, Jb.
      destruct (RGBAAt_total img x y Wi) as [px Epx].
      assert (Epa : pixelAt img x y = px) by (unfold pixelAt; now rewrite Epx).
      rewrite Epx. eexists. split; [reflexivity|].
      unfold holds_sums. cbn [snd rgb.r rgb.g rgb.b].
      rewrite Jr, Jg, Jb, !sum_between_snoc by lia.
      destruct (Hrow _ IR x y Hx' Hy') as [R0 R1].
      destruct (Hrow _ IG x y Hx' Hy') as [G0 G1].
      destruct (Hrow _ IB x y Hx' Hy') as [B0 B1].
      pose proof (Hf _ IR x y). pose proof (Hf _ IG x y). pose proof (Hf _ IB x y).
      rewrite Epa in *.
      rewrite !add_exact by lia.
      rewrite !Z.add_assoc. repeat split.
    + exists s'. split; [exact E|].
      rewrite !sum_between_snoc by lia. exact I.
  - exists s'. split; [exact E|exact I].
Qed.

Lemma channel_mean (s n : Z) :
  0 < n -> 0 <= s <= 255 * n -> n <= 2 ^ 44 ->
  uint8_of_float64 P (F64.of_int s / F64.of_int n)%float = s / n.
Proof.
  intros Hn Hs Hb.
  apply uint8_of_float64_to_Z; [apply div_floor_float; lia|].
  split; [apply Z.div_pos; lia|].
  apply Z.div_le_upper_bound; lia.
Qed.

(** The RGB estimate of a block of at least one pixel: each channel is the
    integer quotient of the channel's sum over the block by the number of
    pixels, and alpha is 255. *)
Lemma meanBlockColor_mean img rect :
  wf img -> bytes img ->
  GoInt.minInt <= X (Min rect) -> GoInt.minInt <= Y (Min rect) ->
  X (Max rect) <= GoInt.maxInt -> Y (Max rect) <= GoInt.maxInt ->
  X (Min rect) < X (Max rect) -> Y (Min rect) < Y (Max rect) ->
  (X (Max rect) - X (Min rect)) * (Y (Max rect) - Y (Min rect)) <= 2 ^ 44 ->
  exists lab,
    meanBlockColor P img rect =
      Some (lab,
            color.mk
              (channelSum color.R img rect
               / ((X (Max rect) - X (Min rect)) * (Y (Max rect) - Y (Min rect))))
              (channelSum color.G img rect
               / ((X (Max rect) - X (Min rect)) * (Y (Max rect) - Y (Min rect))))
              (channelSum color.B img rect
               / ((X (Max rect) - X (Min rect)) * (Y (Max rect) - Y (Min rect))))
              255).
Proof.
  intros Wi Bi Hx0 Hy0 Hx1 Hy1 Hx Hy Hn.
  destruct (meanBlockColor_sums img rect Wi Bi ltac:(lia) ltac:(lia) Hn)
    as ([lab c] & E & Sr & Sg & Sb).
  cbn [snd] in Sr, Sg, Sb.
  unfold meanBlockColor. unfold platform_arith. cbv zeta in E |- *. rewrite E.
  set (n := (X (Max rect) - X (Min rect)) * (Y (Max rect) - Y (Min rect))) in *.
  assert (Pn : 0 < n) by (unfold n; nia).
  assert (Ecount : GoInt.mul (GoInt.sub (X (Max rect)) (X (Min rect)))
                             (GoInt.sub (Y (Max rect)) (Y (Min rect))) = n).
  { unfold GoInt.mul, GoInt.sub.
    assert (0 < X (Max rect) - X (Min rect) <= 2 ^ 44) by nia.
    assert (0 < Y (Max rect) - Y (Min rect) <= 2 ^ 44) by nia.
    rewrite !(GoInt.wrap_small (_ - _)) by (unfold GoInt.minInt, GoInt.maxInt; lia).
    apply GoInt.wrap_small. fold n. unfold GoInt.minInt, GoInt.maxInt. lia. }
  rewrite Ecount. eexists. cbn [rgb.r rgb.g rgb.b]. rewrite Sr, Sg, Sb.
  assert (Bd : forall f, List.In f [color.R; color.G; color.B] ->
                 0 <= channelSum f img rect <= 255 * n).
  { intros f I. unfold channelSum.
    pose proof (sum_between_bound (X (Min rect)) (X (Max rect))
                  (fun x => sum_between (Y (Min rect)) (Y (Max rect))
                              (fun y => f (pixelAt img x y)))
                  (255 * (Y (Max rect) - Y (Min rect))) ltac:(lia)) as Q.
    assert (Q' : forall x, 0 <= sum_between (Y (Min rect)) (Y (Max rect))
                                  (fun y => f (pixelAt img x y))
                           <= 255 * (Y (Max rect) - Y (Min rect))).
    { intros x. apply sum_between_bound; [lia|]. intros y.
      destruct (pixelAt_wf img x y Bi) as (Hr & Hg & Hb & _).
      destruct I as [<-|[<-|[<-|[]]]]; assumption. }
    specialize (Q Q'). unfold n. lia. }
  rewrite !channel_mean by (try apply Bd; cbn; auto; lia).
  reflexivity.
Qed.

End BlockMean.

Section UniformBlocks.
Context (P : Platform).
Import image.

(** X9: for a block of at least one and at most [2^44] pixels of a
    well-formed image, the RGB estimate of [meanBlockColor] is exact integer
    arithmetic: each of R, G and B is the sum of the channel over the
    block's pixels (a pixel outside the image counting as 0) divided by the
    number of pixels, truncated, and alpha is 255.  No rounding error of the
    float64 sums and quotient reaches the result. *)
Theorem meanBlockColor_rgb_mean (img : RGBA.t) (rect : Rectangle) :
  wf img -> bytes img ->
  GoInt.minInt <= X (Min rect) -> GoInt.minInt <= Y (Min rect) ->
  X (Max rect) <= GoInt.maxInt -> Y (Max rect) <= GoInt.maxInt ->
  X (Min rect) < X (Max rect) -> Y (Min rect) < Y (Max rect) ->
  (X (Max rect) - X (Min rect)) * (Y (Max rect) - Y (Min rect)) <= 2 ^ 44 ->
  exists lab,
    meanBlockColor P img rect =
      Some (lab,
            color.mk
              (channelSum color.R img rect
               / ((X (Max rect) - X (Min rect)) * (Y (Max rect) - Y (Min rect))))
              (channelSum color.G img rect
               / ((X (Max rect) - X (Min rect)) * (Y (Max rect) - Y (Min rect))))
              (channelSum color.B img rect
               / ((X (Max rect) - X (Min rect)) * (Y (Max rect) - Y (Min rect))))
              255).
Proof. apply meanBlockColor_mean. Qed.

Lemma channelSum_uniform (f : color.RGBA -> Z) img rect c :
  X (Min rect) <= X (Max rect) -> Y (Min rect) <= Y (Max rect) ->
  (forall x y, X (Min rect) <= x < X (Max rect) -> Y (Min rect) <= y < Y (Max rect) ->
               pixelAt img x y = c) ->
  channelSum f img rect
  = f c * ((X (Max rect) - X (Min rect)) * (Y (Max rect) - Y (Min rect))).
Proof.
  intros Hx Hy H. unfold channelSum, sum_between.
  rewrite (sum_from_ext _ _ _ (fun _ => f c * (Y (Max rect) - Y (Min rect)))).
  - rewrite sum_from_const, Z2Nat.id by lia. ring.
  - intros x Hx'.
    rewrite (sum_from_ext _ _ _ (fun _ => f c)).
    + rewrite sum_from_const, Z2Nat.id by lia. reflexivity.
    + intros y Hy'. rewrite H by lia. reflexivity.
Qed.

(** Under the RGB method the Lab sample is not looked at. *)
Lemma closest_from_RGB_lab lab lab' c cs i best :
  closest_from P RGBMethod lab c cs i best = closest_from P RGBMethod lab' c cs i best.
Proof.
  revert i best. induction cs as [|d cs IH]; intros i best; [reflexivity|].
  cbn [closest_from deltaE]. apply IH.
Qed.

Lemma closestC64Color_RGB_lab lab lab' c :
  closestC64Color P lab c RGBMethod = closestC64Color P lab' c RGBMethod.
Proof. unfold closestC64Color. now rewrite (closest_from_RGB_lab lab lab'). Qed.

Lemma cell_bounds i n b total :
  0 <= i < n -> 2 <= b -> n * b <= total ->
  0 <= i * b /\ i * b < (i + 1) * b - 1 /\ (i + 1) * b <= total /\
  (i + 1) * b - 1 - i * b = b - 1.
Proof. intros Hi Hb Hn. repeat split; nia. Qed.

(** The blocks of a source at least 320 pixels wide and twice as high as
    the grid: at least two pixels wide and high, and inside the source. *)
Lemma uniform_block img c i j :
  wf img -> bytes img ->
  Min (RGBA.Rect img) = {| X := 0; Y := 0 |} ->
  320 <= Dx (RGBA.Rect img) < 2 ^ 24 -> 0 < Dy (RGBA.Rect img) < 2 ^ 24 ->
  2 * targetHeight P img <= Dy (RGBA.Rect img) ->
  (forall x y, In {| X := x; Y := y |} (RGBA.Rect img) = true ->
               RGBAAt img x y = Some c) ->
  0 <= i < 160 -> 0 <= j < targetHeight P img ->
  exists lab,
    meanBlockColor P img (blockRect P img i j)
    = Some (lab, color.mk (color.R c) (color.G c) (color.B c) 255).
Proof.
  intros Wi Bi M0 HW HH H2 U Hi Hj.
  destruct (block_sizes P img ltac:(lia) ltac:(lia)) as [Bw Bh].
  set (th := targetHeight P img) in *.
  set (W := Dx (RGBA.Rect img)) in *. set (H := Dy (RGBA.Rect img)) in *.
  assert (Hth : 0 < th) by lia.
  assert (Hbw : 2 <= blockWidth P img /\ 160 * blockWidth P img <= W).
  { rewrite Bw. pose proof (Z.mul_div_le W 160 ltac:(lia)).
    pose proof (Z.div_le_lower_bound W 160 2 ltac:(lia) ltac:(lia)). lia. }
  assert (Hbh : 2 <= blockHeight P img /\ th * blockHeight P img <= H).
  { rewrite Bh. pose proof (Z.mul_div_le H th ltac:(lia)).
    pose proof (Z.div_le_lower_bound H th 2 ltac:(lia) ltac:(lia)). lia. }
  set (bw := blockWidth P img) in *. set (bh := blockHeight P img) in *.
  destruct (cell_bounds i 160 bw W Hi ltac:(lia) ltac:(lia)) as (Ci0 & Ci1 & Ci2 & Ci3).
  destruct (cell_bounds j th bh H Hj ltac:(lia) ltac:(lia)) as (Cj0 & Cj1 & Cj2 & Cj3).
  assert (Bbw : bw < 2 ^ 17).
  { rewrite Bw. apply Z.div_lt_upper_bound; lia. }
  assert (Bbh : bh < 2 ^ 24) by (clear - Hbh HH Hth; nia).
  assert (ER : blockRect P img i j =
               {| Min := {| X := i * bw; Y := j * bh |};
                  Max := {| X := (i + 1) * bw - 1; Y := (j + 1) * bh - 1 |} |}).
  { rewrite blockRect_small by (fold bw bh; lia). fold bw bh. unfold Rect.
    destruct (Z.gtb_spec (i * bw) ((i + 1) * bw - 1)); [lia|].
    destruct (Z.gtb_spec (j * bh) ((j + 1) * bh - 1)); [lia|]. reflexivity. }
  rewrite ER.
  set (rect := {| Min := _; Max := _ |}).
  assert (Dims : W = X (Max (RGBA.Rect img)) /\ H = Y (Max (RGBA.Rect img))).
  { unfold W, H, Dx, Dy, GoInt.sub. rewrite M0. cbn [X Y]. rewrite !Z.sub_0_r.
    destruct Wi. rewrite M0 in *. cbn [X Y] in *.
    rewrite !GoInt.wrap_small by (unfold GoInt.minInt in *; lia). auto. }
  assert (Hin : forall x y, X (Min rect) <= x < X (Max rect) ->
                            Y (Min rect) <= y < Y (Max rect) ->
                            pixelAt img x y = c).
  { intros x y Hx Hy. cbn [rect X Y Min Max] in Hx, Hy.
    unfold pixelAt. rewrite U; [reflexivity|].
    apply In_spec. rewrite M0. cbn [X Y]. lia. }
  assert (Area : 0 < ((i + 1) * bw - 1 - i * bw) * ((j + 1) * bh - 1 - j * bh) <= 2 ^ 44).
  { rewrite Ci3, Cj3. clear - Hbw Hbh Bbw Bbh.
    assert (0 < bw - 1 < 2 ^ 17) by lia. assert (0 < bh - 1 < 2 ^ 24) by lia.
    assert ((bw - 1) * (bh - 1) < 2 ^ 17 * 2 ^ 24)
      by (apply Z.mul_lt_mono_nonneg; lia).
    split; [apply Z.mul_pos_pos; lia|lia]. }
  destruct (meanBlockColor_mean P img rect Wi Bi) as [lab E];
    try (cbn [rect X Y Min Max]; unfold GoInt.minInt, GoInt.maxInt; lia).
  exists lab. rewrite E.
  rewrite !(channelSum_uniform _ img rect c) by
    (try exact Hin; cbn [rect X Y Min Max]; lia).
  rewrite !Z.div_mul by (cbn [rect X Y Min Max]; lia).
  reflexivity.
Qed.

(** X10: a uniformly coloured source at least 320 pixels wide and at least
    twice as high as the grid is converted, under the RGB method, to a grid
    filled with one palette colour: the one that [closestC64Color] selects
    for the source's colour with alpha 255. *)
Theorem ConvertImage_uniform_RGB (img : RGBA.t) (c : color.RGBA) (lab0 : cielab.t float) :
  wf img -> bytes img ->
  Min (RGBA.Rect img) = {| X := 0; Y := 0 |} ->
  320 <= Dx (RGBA.Rect img) < 2 ^ 24 -> 0 < Dy (RGBA.Rect img) < 2 ^ 24 ->
  2 * targetHeight P img <= Dy (RGBA.Rect img) ->
  (forall x y, In {| X := x; Y := y |} (RGBA.Rect img) = true ->
               RGBAAt img x y = Some c) ->
  exists out, ConvertImage P img RGBMethod = Some out /\
    forall x y, 0 <= x < 320 -> 0 <= y < targetHeight P img ->
      RGBAAt out x y =
        Some (C64Color (closestC64Color P lab0
                (color.mk (color.R c) (color.G c) (color.B c) 255) RGBMethod)).
Proof.
  intros Wi Bi M0 HW HH H2 U.
  pose proof (targetHeight_bounds P img ltac:(lia) ltac:(lia)) as B.
  destruct (ceil_div_spec (320 * Dy (RGBA.Rect img)) (Dx (RGBA.Rect img)) ltac:(lia))
    as [N1 N2].
  set (N := ceil_div _ _) in *.
  assert (HN : 1 <= N) by nia.
  destruct (convertColumns_spec P (targetWidth + 1) img RGBMethod Wi
              ltac:(unfold targetWidth; lia) ltac:(lia)
              ltac:(unfold GoInt.maxInt; lia)) as (out & E & _ & _ & A).
  exists out. split; [exact E|]. intros x y Hx Hy.
  rewrite A by (unfold targetWidth; lia). unfold blockColor.
  assert (Hi : 0 <= x / 2 < 160).
  { split; [apply Z.div_pos; lia|apply Z.div_lt_upper_bound; lia]. }
  destruct (uniform_block img c (x / 2) y Wi Bi M0 HW HH H2 U Hi Hy) as [lab ->].
  now rewrite (closestC64Color_RGB_lab lab lab0).
Qed.

End UniformBlocks.

(** ** Uniform images *)

Section UniformImages.
Import image.

Lemma nth_error_concat_repeat {A} (l : list A) n k r :
  (k < n)%nat -> (r < length l)%nat ->
  nth_error (concat (repeat l n)) (length l * k + r) = nth_error l r.
Proof.
  revert k. induction n as [|n IH]; intros k Hk Hr; [lia|].
  cbn [repeat concat]. destruct k as [|k].
  - rewrite Nat.mul_0_r, Nat.add_0_l. now apply nth_error_app1.
  - rewrite nth_error_app2 by lia.
    replace (length l * S k + r - length l)%nat with (length l * k + r)%nat by lia.
    apply IH; lia.
Qed.

Lemma uniformImage_RGBAAt w h c x y :
  0 <= w -> 0 <= h -> 4 * w * h <= GoInt.maxInt ->
  w <= GoInt.maxInt -> h <= GoInt.maxInt ->
  In {| X := x; Y := y |} (RGBA.Rect (uniformImage w h c)) = true ->
  RGBAAt (uniformImage w h c) x y = Some c.
Proof.
  intros Hw Hh Hlen Hw' Hh' I.
  pose proof (uniformImage_wf w h c Hw Hh Hlen Hw' Hh') as Wf.
  unfold RGBAAt. rewrite I. cbn [negb].
  rewrite (PixOffset_In _ _ _ Wf I).
  pose proof (pixelIndex_range _ _ _ Wf I) as (R0 & R1 & _).
  set (k := pixelIndex (uniformImage w h c) x y) in *.
  cbn [uniformImage RGBA.Pix] in R1 |- *.
  rewrite length_concat_repeat4 in R1 by reflexivity.
  unfold get4. destruct (Z.ltb_spec (4 * k) 0); [lia|].
  replace (Z.to_nat (4 * k)) with (4 * Z.to_nat k + 0)%nat by lia.
  replace (4 * Z.to_nat k + 0 + 1)%nat with (4 * Z.to_nat k + 1)%nat by lia.
  replace (4 * Z.to_nat k + 0 + 2)%nat with (4 * Z.to_nat k + 2)%nat by lia.
  replace (4 * Z.to_nat k + 0 + 3)%nat with (4 * Z.to_nat k + 3)%nat by lia.
  set (l := [color.R c; color.G c; color.B c; color.A c]).
  change 4%nat with (length l).
  rewrite !nth_error_concat_repeat by (cbn [length l]; lia).
  cbn [l nth_error]. now destruct c.
Qed.

Lemma uniformImage_bytes w h c : color.wf c -> bytes (uniformImage w h c).
Proof.
  intros (Hr & Hg & Hb & Ha). unfold bytes. cbn [uniformImage RGBA.Pix].
  induction (Z.to_nat (w * h)) as [|n IH]; cbn [repeat concat]; [constructor|].
  apply Forall_app. split; [|exact IH].
  repeat (constructor; [assumption|]). constructor.
Qed.

End UniformImages.

(** ** Sources without height or width *)

Section DegenerateSources.
Context (P : Platform).
Import image.

Lemma div_by_zero z :
  0 < z < 2 ^ 53 -> (F64.of_int z / F64.of_int 0)%float = infinity.
Proof.
  intros Hz. destruct (of_int_normal z Hz) as (m & [E _] & _).
  apply Prim2SF_inj. now rewrite div_spec, E, of_int_0.
Qed.

Lemma div_by_infinity z :
  0 < z < 2 ^ 53 -> (F64.of_int z / infinity)%float = 0%float.
Proof.
  intros Hz. destruct (of_int_normal z Hz) as (m & [E _] & _).
  apply Prim2SF_inj. now rewrite div_spec, E.
Qed.

Lemma zero_div z :
  0 < z < 2 ^ 53 -> (F64.of_int 0 / F64.of_int z)%float = 0%float.
Proof.
  intros Hz. destruct (of_int_normal z Hz) as (m & [E _] & _).
  apply Prim2SF_inj. now rewrite div_spec, E, of_int_0.
Qed.

Lemma targetHeight_zero_height img :
  0 < Dx (RGBA.Rect img) < 2 ^ 53 -> Dy (RGBA.Rect img) = 0 ->
  targetHeight P img = 0.
Proof.
  intros HW HH. unfold targetHeight, Size, targetWidth. cbn [X Y].
  rewrite HH, div_by_zero, div_by_infinity by lia. reflexivity.
Qed.

(** X7: a source of positive width and no height is converted, on every
    platform, to the empty grid of 320 by 0 pixels: [W / 0] is plus
    infinity and [320 / +Inf] is 0, so no row is allocated and neither loop
    runs. *)
Theorem ConvertImage_zero_height (img : RGBA.t) (method : Method) :
  0 < Dx (RGBA.Rect img) < 2 ^ 53 -> Dy (RGBA.Rect img) = 0 ->
  ConvertImage P img method =
    Some {| RGBA.Pix := [];
            RGBA.Stride := 1280;
            RGBA.Rect := {| Min := {| X := 0; Y := 0 |};
                            Max := {| X := 320; Y := 0 |} |} |}.
Proof.
  intros HW HH. unfold ConvertImage, convertColumns.
  rewrite (targetHeight_zero_height img HW HH). reflexivity.
Qed.

Lemma targetHeight_zero_width img :
  Dx (RGBA.Rect img) = 0 -> 0 < Dy (RGBA.Rect img) < 2 ^ 53 ->
  targetHeight P img = GoInt.wrap (int_unrepresentable P infinity).
Proof.
  intros HW HH. unfold targetHeight, Size, targetWidth. cbn [X Y].
  rewrite HW, zero_div by lia. reflexivity.
Qed.

(** X8: a source of no width and positive height makes [ConvertImage] panic
    on a platform that converts plus infinity to the least or the greatest
    [int], as amd64 and arm64 do: [0 / H] is 0, [320 / 0] is plus infinity,
    and [image.NewRGBA] refuses the height that [int(+Inf)] gives. *)
Theorem ConvertImage_zero_width (img : RGBA.t) (method : Method) :
  Dx (RGBA.Rect img) = 0 -> 0 < Dy (RGBA.Rect img) < 2 ^ 53 ->
  int_unrepresentable P infinity = GoInt.minInt \/
  int_unrepresentable P infinity = GoInt.maxInt ->
  ConvertImage P img method = None.
Proof.
  intros HW HH Hinf. unfold ConvertImage, convertColumns.
  rewrite (targetHeight_zero_width img HW HH).
  destruct Hinf as [-> | ->]; reflexivity.
Qed.

End DegenerateSources.

(** ** [LoadImage]: the stride check *)

Section Loading.
Import image.

(** The condition of [LoadImage] that returns [UnsupportedStrideError]:
    [rgba.Stride != rgba.Rect.Size().X*4]. *)
Definition unsupportedStride (rgba : RGBA.t) : bool :=
  negb (RGBA.Stride rgba =? GoInt.mul (X (Size (RGBA.Rect rgba))) 4).

(** X15: [LoadImage] never returns [UnsupportedStrideError]: an image that
    [image.NewRGBA] returned, for any rectangle, has a stride of four times
    its width, the very product that the check compares it with. *)
Theorem LoadImage_stride_supported (r : Rectangle) (rgba : RGBA.t) :
  NewRGBA r = Some rgba -> unsupportedStride rgba = false.
Proof.
  unfold NewRGBA, unsupportedStride.
  destruct (_ && _); [|discriminate]. intros [= <-].
  cbn [RGBA.Stride RGBA.Rect Size X]. unfold GoInt.mul.
  rewrite (Z.mul_comm 4). now rewrite Z.eqb_refl.
Qed.

End Loading.

From Stdlib Require Ascii String.
Import ListNotations.
#[local] Set Warnings "-inexact-float".
#[local] Open Scope Z_scope.

(** ** The file names of the two [main] programs

    A Go [string] is a sequence of bytes; the functions of [strings] that
    [main] calls are transcribed on lists of bytes. *)

Module strings.
Import Ascii String.

Definition t := list ascii.

(** A string constant of the source. *)
Definition lit (s : string) : t := list_ascii_of_string s.
Arguments lit s%_string.

Fixpoint eqb (a b : t) : bool :=
  match a, b with
  | [], [] => true
  | x :: a', y :: b' => Ascii.eqb x y && eqb a' b'
  | _, _ => false
  end.

(** [len(s) >= len(suffix) && s[len(s)-len(suffix):] == suffix] *)
Definition HasSuffix (s suffix : t) : bool :=
  (List.length suffix <=? List.length s)%nat &&
  eqb (skipn (List.length s - List.length suffix) s) suffix.

(** [if HasSuffix(s, suffix) { return s[:len(s)-len(suffix)] }; return s] *)
Definition TrimSuffix (s suffix : t) : t :=
  if HasSuffix s suffix then firstn (List.length s - List.length suffix) s else s.

(** [strings.Trim] with a cutset of ASCII bytes: the leading and trailing
    bytes of the cutset are removed. *)
Definition inCutset (cutset : t) (c : ascii) : bool := existsb (Ascii.eqb c) cutset.

Fixpoint TrimLeft (s cutset : t) : t :=
  match s with
  | [] => []
  | c :: rest => if inCutset cutset c then TrimLeft rest cutset else s
  end.

Definition TrimRight (s cutset : t) : t := rev (TrimLeft (rev s) cutset).

Definition Trim (s cutset : t) : t := TrimLeft (TrimRight s cutset) cutset.

End strings.

Section FileNames.
Import Ascii String strings.

(** The files that [main] of the current program saves for a directory entry
    [name], with the method of each: nothing unless the name ends in
    [.jpg]. *)
Definition outputNames (name : strings.t) : list (Method * strings.t) :=
  if HasSuffix name (lit ".jpg") then
    let baseFilename := TrimSuffix name (lit ".jpg") in
    [ (RGBMethod, lit "c64_" ++ baseFilename ++ lit "_RGB.png");
      (CIE76, lit "c64_" ++ baseFilename ++ lit "_CIE76.png");
      (CIE94, lit "c64_" ++ baseFilename ++ lit "_CIE94.png");
      (CIE2000, lit "c64_" ++ baseFilename ++ lit "_CIE2000.png") ]
  else [].

(** The file that [main] of the first program ([cmd/c64image.go]) saves for
    a directory entry [name]: it trims with [strings.Trim]. *)
Definition legacyOutputName (name : strings.t) : option strings.t :=
  if HasSuffix name (lit ".jpg") then
    let baseFilename := Trim name (lit ".jpg") in
    Some (lit "c64_" ++ baseFilename ++ lit ".png")
  else None.

Lemma strings_eqb_eq a b : eqb a b = true <-> a = b.
Proof.
  revert b. induction a as [|x a IH]; intros [|y b]; cbn [eqb];
    try (split; [discriminate|discriminate]); [tauto|].
  rewrite andb_true_iff, Ascii.eqb_eq, IH. split.
  - now intros [-> ->].
  - now intros [= -> ->].
Qed.

Lemma HasSuffix_spec s suffix :
  HasSuffix s suffix = true <-> exists base, s = base ++ suffix.
Proof.
  unfold HasSuffix. rewrite andb_true_iff, Nat.leb_le, strings_eqb_eq. split.
  - intros [L E]. exists (firstn (List.length s - List.length suffix) s).
    set (n := (List.length s - List.length suffix)%nat) in *.
    rewrite <- E. symmetry. apply firstn_skipn.
  - intros [base ->]. rewrite length_app. split; [lia|].
    replace (List.length base + List.length suffix - List.length suffix)%nat
      with (List.length base + 0)%nat by lia.
    now rewrite skipn_app, Nat.add_0_r, skipn_all, Nat.sub_diag.
Qed.

Lemma TrimSuffix_app base suffix : TrimSuffix (base ++ suffix) suffix = base.
Proof.
  unfold TrimSuffix.
  assert (H : HasSuffix (base ++ suffix) suffix = true)
    by (apply HasSuffix_spec; eauto).
  rewrite H, length_app.
  replace (List.length base + List.length suffix - List.length suffix)%nat
    with (List.length base + 0)%nat by lia.
  now rewrite firstn_app, Nat.add_0_r, firstn_all, Nat.sub_diag, app_nil_r.
Qed.

(** The byte that tells the four suffixes apart: the fifth from the end. *)
Definition fifth_last (s : strings.t) : option ascii := nth_error (rev s) 4.

Lemma fifth_last_app base suffix :
  (5 <= List.length suffix)%nat -> fifth_last (base ++ suffix) = fifth_last suffix.
Proof.
  intros H. unfold fifth_last. rewrite rev_app_distr.
  apply nth_error_app1. rewrite length_rev. lia.
Qed.

Lemma outputNames_spec name m f :
  List.In (m, f) (outputNames name) ->
  exists base suffix,
    name = base ++ lit ".jpg" /\ f = lit "c64_" ++ base ++ suffix /\
    (m = RGBMethod /\ suffix = lit "_RGB.png" \/
     m = CIE76 /\ suffix = lit "_CIE76.png" \/
     m = CIE94 /\ suffix = lit "_CIE94.png" \/
     m = CIE2000 /\ suffix = lit "_CIE2000.png").
Proof.
  unfold outputNames. destruct (HasSuffix name (lit ".jpg")) eqn:H; [|intros []].
  apply HasSuffix_spec in H as [base ->]. rewrite TrimSuffix_app.
  cbv zeta. intros I. exists base.
  destruct I as [E|[E|[E|[E|[]]]]]; injection E as <- <-;
    eexists; (split; [reflexivity|]); (split; [reflexivity|]); tauto.
Qed.

(** X16: the current [main] never saves two conversions to one file: a file
    name that it computes determines the directory entry and the method it
    was computed for. *)
Theorem main_output_names_injective (n1 n2 : strings.t) (m1 m2 : Method) (f : strings.t) :
  List.In (m1, f) (outputNames n1) -> List.In (m2, f) (outputNames n2) ->
  n1 = n2 /\ m1 = m2.
Proof.
  intros I1 I2.
  apply outputNames_spec in I1 as (b1 & s1 & -> & E1 & C1).
  apply outputNames_spec in I2 as (b2 & s2 & -> & E2 & C2).
  rewrite E1 in E2. apply app_inv_head in E2.
  assert (F : fifth_last (b1 ++ s1) = fifth_last (b2 ++ s2)) by now rewrite E2.
  assert (S : s1 = s2 /\ m1 = m2).
  { destruct C1 as [[-> ->]|[[-> ->]|[[-> ->]|[-> ->]]]];
      destruct C2 as [[-> ->]|[[-> ->]|[[-> ->]|[-> ->]]]];
      rewrite !fifth_last_app in F by (cbn; lia);
      try discriminate F; split; reflexivity. }
  destruct S as [<- <-]. apply app_inv_tail in E2. now subst.
Qed.

(** X17: a file that the current [main] saves is never a source of a later
    run: its name ends in [.png], not in [.jpg]. *)
Theorem main_output_not_a_source (name : strings.t) (m : Method) (f : strings.t) :
  List.In (m, f) (outputNames name) -> HasSuffix f (lit ".jpg") = false.
Proof.
  intros I. apply outputNames_spec in I as (b & s & -> & -> & C).
  destruct (HasSuffix _ _) eqn:H; [|reflexivity]. exfalso.
  apply HasSuffix_spec in H as [base E].
  assert (F : nth_error (rev (lit "c64_" ++ b ++ s)) 1 = Some "n"%char).
  { rewrite !rev_app_distr.
    destruct C as [[_ ->]|[[_ ->]|[[_ ->]|[_ ->]]]]; reflexivity. }
  rewrite E, rev_app_distr in F. cbn in F. discriminate F.
Qed.

Lemma TrimLeft_app_all s rest cutset :
  forallb (inCutset cutset) s = true ->
  TrimLeft (s ++ rest) cutset = TrimLeft rest cutset.
Proof.
  induction s as [|c s IH]; cbn [forallb app TrimLeft]; [reflexivity|].
  intros H. apply andb_prop in H as [-> H]. now apply IH.
Qed.

Lemma TrimLeft_app_some s rest cutset :
  forallb (inCutset cutset) s = false ->
  TrimLeft (s ++ rest) cutset = TrimLeft s cutset ++ rest.
Proof.
  induction s as [|c s IH]; cbn [forallb app TrimLeft]; [discriminate|].
  destruct (inCutset cutset c); cbn [andb]; [exact IH|reflexivity].
Qed.

Lemma TrimLeft_all s cutset :
  forallb (inCutset cutset) s = true -> TrimLeft s cutset = [].
Proof.
  intros H. rewrite <- (app_nil_r s). now rewrite TrimLeft_app_all.
Qed.

(** A byte of the cutset before the name is trimmed away with it. *)
Lemma Trim_cons c s cutset :
  inCutset cutset c = true -> Trim (c :: s) cutset = Trim s cutset.
Proof.
  intros Hc. unfold Trim, TrimRight. cbn [rev].
  destruct (forallb (inCutset cutset) (rev s)) eqn:A.
  - rewrite TrimLeft_app_all by assumption.
    cbn [TrimLeft]. rewrite Hc. cbn [rev TrimLeft].
    now rewrite (TrimLeft_all (rev s)).
  - rewrite TrimLeft_app_some by assumption.
    rewrite rev_app_distr. cbn [rev app TrimLeft]. now rewrite Hc.
Qed.

Lemma HasSuffix_cons c s suffix :
  HasSuffix s suffix = true -> HasSuffix (c :: s) suffix = true.
Proof.
  intros H. apply HasSuffix_spec in H as [base ->].
  apply HasSuffix_spec. now exists (c :: base).
Qed.

(** X18: the first [main], which trims with [strings.Trim(name, ".jpg")],
    saves different sources to one file: a byte of the cutset [.jpg] put
    before a source's name does not change the name of the output, so
    [pa.jpg] and [a.jpg] both go to [c64_a.png]. *)
Theorem legacy_main_output_names_collide (name : strings.t) (c : ascii) :
  inCutset (lit ".jpg") c = true -> HasSuffix name (lit ".jpg") = true ->
  legacyOutputName (c :: name) = legacyOutputName name /\
  legacyOutputName name <> None.
Proof.
  intros Hc H. unfold legacyOutputName.
  rewrite (HasSuffix_cons c name _ H), H. cbv zeta.
  rewrite (Trim_cons c name _ Hc). split; [reflexivity|discriminate].
Qed.

End FileNames.

(** ** The RGB conversion as an integer algorithm *)

Section IntegerConversion.
Context (P : Platform).
Import image.

(** The search of [closestC64Color] in integers: the distance of the best
    colour so far is [None] before the first colour. *)
Fixpoint nearest_from (c : color.RGBA) (cs : list color.RGBA) (i : Z)
    (best : Z * option Z) : Z * option Z :=
  match cs with
  | [] => best
  | p :: rest =>
      let d := sqDistance c p in
      let best :=
        match snd best with
        | Some b => if d <? b then (i, Some d) else best
        | None => (i, Some d)
        end in
      nearest_from c rest (i + 1) best
  end.

(** The index of the first palette colour of least squared distance to
    [c]. *)
Definition nearestIndex (c : color.RGBA) : Z :=
  fst (nearest_from c C64Colors 0 (0, None)).

(** The float64 distance of the best colour so far holds the integer
    one. *)
Definition holds_distance (f : float) (o : option Z) : Prop :=
  match o with
  | None => f = infinity
  | Some b => f = F64.of_int b /\ 0 <= b < 2 ^ 53
  end.

Lemma ltb_of_int_infinity z :
  0 <= z < 2 ^ 53 -> (F64.of_int z <? infinity)%float = true.
Proof.
  intros Hz. rewrite ltb_spec. destruct (Z.eq_dec z 0) as [->|N].
  - now rewrite of_int_0.
  - destruct (of_int_normal z ltac:(lia)) as (m & [E _] & _). now rewrite E.
Qed.

Lemma closest_from_nearest_from lab c cs i bi bf bo :
  Pow_squares P -> color.wf c -> Forall color.wf cs -> holds_distance bf bo ->
  fst (closest_from P RGBMethod lab c cs i (bi, bf))
  = fst (nearest_from c cs i (bi, bo)).
Proof.
  intros HP Hc Hcs. revert i bi bf bo.
  induction Hcs as [|p cs Hp _ IH]; intros i bi bf bo Hb; [reflexivity|].
  cbn [closest_from nearest_from deltaE snd]. cbv zeta. unfold platform_arith.
  rewrite (rgbDistance_integer P c p HP Hc Hp).
  pose proof (sqDistance_range c p Hc Hp) as R.
  destruct bo as [b|]; cbn [holds_distance] in Hb.
  - destruct Hb as [-> Hb]. rewrite ltb_of_int by lia.
    destruct (sqDistance c p <? b); apply IH; cbn [holds_distance];
      (split; [reflexivity|lia]).
  - rewrite Hb, ltb_of_int_infinity by lia.
    apply IH. cbn [holds_distance]. split; [reflexivity|lia].
Qed.

Lemma closestC64Color_nearestIndex lab c :
  Pow_squares P -> color.wf c ->
  closestC64Color P lab c RGBMethod = nearestIndex c.
Proof.
  intros HP Hc. unfold closestC64Color, nearestIndex.
  apply closest_from_nearest_from; try assumption; [apply C64Colors_wf|reflexivity].
Qed.

(** X19: under the RGB method [closestC64Color] computes what the search
    over the integer squared distances computes: the float64 distances and
    comparisons of the loop are exact. *)
Theorem closestC64Color_RGB_integer (lab : cielab.t float) (c : color.RGBA) :
  Pow_squares P -> color.wf c ->
  closestC64Color P lab c RGBMethod = nearestIndex c.
Proof.
  intros HP Hc. unfold closestC64Color, nearestIndex.
  apply closest_from_nearest_from; try assumption; [apply C64Colors_wf|reflexivity].
Qed.

(** The block of column [i] and row [j], for a source [W] pixels wide and
    [H] high and a grid of [th] rows. *)
Definition cellRect (W H th i j : Z) : Rectangle :=
  {| Min := {| X := i * (W / 160); Y := j * (H / th) |};
     Max := {| X := (i + 1) * (W / 160) - 1; Y := (j + 1) * (H / th) - 1 |} |}.

(** The mean of R, G and B over the pixels of a rectangle, rounded down,
    with alpha 255. *)
Definition meanRGB (img : RGBA.t) (rect : Rectangle) : color.RGBA :=
  let n := (X (Max rect) - X (Min rect)) * (Y (Max rect) - Y (Min rect)) in
  color.mk (channelSum color.R img rect / n) (channelSum color.G img rect / n)
           (channelSum color.B img rect / n) 255.

Lemma channelSum_range (f : color.RGBA -> Z) img rect :
  bytes img -> List.In f [color.R; color.G; color.B] ->
  X (Min rect) <= X (Max rect) -> Y (Min rect) <= Y (Max rect) ->
  0 <= channelSum f img rect
    <= 255 * ((X (Max rect) - X (Min rect)) * (Y (Max rect) - Y (Min rect))).
Proof.
  intros Bi I Hx Hy. unfold channelSum.
  pose proof (sum_between_bound (X (Min rect)) (X (Max rect))
                (fun x => sum_between (Y (Min rect)) (Y (Max rect))
                            (fun y => f (pixelAt img x y)))
                (255 * (Y (Max rect) - Y (Min rect))) Hx) as Q.
  assert (Q' : forall x, 0 <= sum_between (Y (Min rect)) (Y (Max rect))
                                (fun y => f (pixelAt img x y))
                         <= 255 * (Y (Max rect) - Y (Min rect))).
  { intros x. apply sum_between_bound; [lia|]. intros y.
    destruct (pixelAt_wf img x y Bi) as (Hr & Hg & Hb & _).
    destruct I as [<-|[<-|[<-|[]]]]; assumption. }
  specialize (Q Q'). lia.
Qed.

Lemma meanRGB_wf img rect :
  bytes img -> X (Min rect) < X (Max rect) -> Y (Min rect) < Y (Max rect) ->
  color.wf (meanRGB img rect).
Proof.
  intros Bi Hx Hy. unfold meanRGB, color.wf. cbv zeta.
  cbn [color.R color.G color.B color.A].
  set (n := (X (Max rect) - X (Min rect)) * (Y (Max rect) - Y (Min rect))).
  assert (Pn : 0 < n) by (unfold n; nia).
  assert (M : forall f, List.In f [color.R; color.G; color.B] ->
                0 <= channelSum f img rect / n <= 255).
  { intros f I.
    pose proof (channelSum_range f img rect Bi I ltac:(lia) ltac:(lia)) as R.
    fold n in R. split; [apply Z.div_pos; lia|].
    apply Z.div_le_upper_bound; lia. }
  repeat split; try apply M; cbn; auto; lia.
Qed.

(** The blocks of a source at least 320 pixels wide and twice as high as
    the grid. *)
Lemma blockRect_cell img i j :
  320 <= Dx (RGBA.Rect img) < 2 ^ 24 -> 0 < Dy (RGBA.Rect img) < 2 ^ 24 ->
  2 * targetHeight P img <= Dy (RGBA.Rect img) ->
  0 <= i < 160 -> 0 <= j < targetHeight P img ->
  blockRect P img i j
  = cellRect (Dx (RGBA.Rect img)) (Dy (RGBA.Rect img)) (targetHeight P img) i j /\
  0 <= X (Min (blockRect P img i j)) < X (Max (blockRect P img i j)) /\
  0 <= Y (Min (blockRect P img i j)) < Y (Max (blockRect P img i j)) /\
  X (Max (blockRect P img i j)) < Dx (RGBA.Rect img) /\
  Y (Max (blockRect P img i j)) < Dy (RGBA.Rect img) /\
  (X (Max (blockRect P img i j)) - X (Min (blockRect P img i j)))
  * (Y (Max (blockRect P img i j)) - Y (Min (blockRect P img i j))) <= 2 ^ 44.
Proof.
  intros HW HH H2 Hi Hj.
  destruct (block_sizes P img ltac:(lia) ltac:(lia)) as [Bw Bh].
  set (th := targetHeight P img) in *.
  set (W := Dx (RGBA.Rect img)) in *. set (H := Dy (RGBA.Rect img)) in *.
  assert (Hth : 0 < th) by lia.
  assert (Hbw : 2 <= blockWidth P img /\ 160 * blockWidth P img <= W).
  { rewrite Bw. pose proof (Z.mul_div_le W 160 ltac:(lia)).
    pose proof (Z.div_le_lower_bound W 160 2 ltac:(lia) ltac:(lia)). lia. }
  assert (Hbh : 2 <= blockHeight P img /\ th * blockHeight P img <= H).
  { rewrite Bh. pose proof (Z.mul_div_le H th ltac:(lia)).
    pose proof (Z.div_le_lower_bound H th 2 ltac:(lia) ltac:(lia)). lia. }
  assert (Bbw : blockWidth P img < 2 ^ 17).
  { rewrite Bw. apply Z.div_lt_upper_bound; lia. }
  assert (Bbh : blockHeight P img < 2 ^ 24) by (clear - Hbh HH Hth; nia).
  assert (ER : blockRect P img i j = cellRect W H th i j).
  { rewrite blockRect_small.
    - unfold cellRect. rewrite <- Bw, <- Bh. unfold Rect.
      destruct (cell_bounds i 160 (blockWidth P img) W Hi ltac:(lia) ltac:(lia))
        as (Ci0 & Ci1 & Ci2 & Ci3).
      destruct (cell_bounds j th (blockHeight P img) H Hj ltac:(lia) ltac:(lia))
        as (Cj0 & Cj1 & Cj2 & Cj3).
      destruct (Z.gtb_spec (i * blockWidth P img) ((i + 1) * blockWidth P img - 1));
        [lia|].
      destruct (Z.gtb_spec (j * blockHeight P img) ((j + 1) * blockHeight P img - 1));
        [lia|]. reflexivity.
    - lia.
    - lia.
    - lia.
    - lia.
    - destruct (cell_bounds i 160 (blockWidth P img) W Hi ltac:(lia) ltac:(lia))
        as (_ & _ & Ci2 & _). lia.
    - destruct (cell_bounds j th (blockHeight P img) H Hj ltac:(lia) ltac:(lia))
        as (_ & _ & Cj2 & _). lia. }
  rewrite ER. unfold cellRect. cbn [X Y Min Max]. rewrite <- Bw, <- Bh.
  set (bw := blockWidth P img) in *. set (bh := blockHeight P img) in *.
  destruct (cell_bounds i 160 bw W Hi ltac:(lia) ltac:(lia)) as (Ci0 & Ci1 & Ci2 & Ci3).
  destruct (cell_bounds j th bh H Hj ltac:(lia) ltac:(lia)) as (Cj0 & Cj1 & Cj2 & Cj3).
  split; [reflexivity|]. repeat split; try lia.
  rewrite Ci3, Cj3. clear - Hbw Hbh Bbw Bbh.
  assert (0 < bw - 1 < 2 ^ 17) by lia. assert (0 < bh - 1 < 2 ^ 24) by lia.
  assert ((bw - 1) * (bh - 1) < 2 ^ 17 * 2 ^ 24)
    by (apply Z.mul_lt_mono_nonneg; lia).
  lia.
Qed.

(** X20: for a well-formed source at least 320 and less than [2^24] pixels
    wide and at least twice as high as the grid, the RGB method is an
    integer algorithm, with no rounding: pixel [(x, y)] of the grid holds the
    palette colour nearest, in squared distance over the integer channels
    and first in the table, to the mean (rounded down) of the source pixels
    [i*bw <= u < (i+1)*bw - 1], [y*bh <= v < (y+1)*bh - 1], where [i = x/2],
    [bw = W/160] and [bh = H/targetHeight]. *)
Theorem ConvertImage_RGB_integer (img : RGBA.t) :
  Pow_squares P -> wf img -> bytes img ->
  320 <= Dx (RGBA.Rect img) < 2 ^ 24 -> 0 < Dy (RGBA.Rect img) < 2 ^ 24 ->
  2 * targetHeight P img <= Dy (RGBA.Rect img) ->
  exists out, ConvertImage P img RGBMethod = Some out /\
    forall x y, 0 <= x < 320 -> 0 <= y < targetHeight P img ->
      RGBAAt out x y =
        Some (C64Color (nearestIndex (meanRGB img
                (cellRect (Dx (RGBA.Rect img)) (Dy (RGBA.Rect img))
                          (targetHeight P img) (x / 2) y)))).
Proof.
  intros HP Wi Bi HW HH H2.
  pose proof (targetHeight_bounds P img ltac:(lia) ltac:(lia)) as B.
  destruct (ceil_div_spec (320 * Dy (RGBA.Rect img)) (Dx (RGBA.Rect img)) ltac:(lia))
    as [N1 N2].
  set (N := ceil_div _ _) in *.
  assert (HN : 1 <= N) by nia.
  destruct (convertColumns_spec P (targetWidth + 1) img RGBMethod Wi
              ltac:(unfold targetWidth; lia) ltac:(lia)
              ltac:(unfold GoInt.maxInt; lia)) as (out & E & _ & _ & A).
  exists out. split; [exact E|]. intros x y Hx Hy.
  rewrite A by (unfold targetWidth; lia). unfold blockColor.
  assert (Hi : 0 <= x / 2 < 160).
  { split; [apply Z.div_pos; lia|apply Z.div_lt_upper_bound; lia]. }
  destruct (blockRect_cell img (x / 2) y HW HH H2 Hi Hy)
    as (ER & Cx & Cy & Cx' & Cy' & Area).
  destruct (meanBlockColor_mean P img (blockRect P img (x / 2) y) Wi Bi) as [lab EM];
    try (unfold GoInt.minInt, GoInt.maxInt; lia).
  rewrite EM. fold (meanRGB img (blockRect P img (x / 2) y)).
  rewrite closestC64Color_nearestIndex; [now rewrite ER|exact HP|].
  apply meanRGB_wf; [exact Bi|lia|lia].
Qed.

End IntegerConversion.

(** ** Zeros and NaN through the IEEE operations *)

Section ZerosAndNaN.
#[local] Open Scope float_scope.

(** [x] is a zero of either sign, or NaN. *)
Definition zero_or_nan (x : float) : Prop :=
  match Prim2SF x with S754_zero _ | S754_nan => True | _ => False end.


Lemma is_nan_eq (x : float) : F64.is_nan x = true -> x = nan.
Proof.
  unfold F64.is_nan. intros H. apply Prim2SF_inj.
  destruct (Prim2SF x); try discriminate. reflexivity.
Qed.




Lemma add_nan_l y : nan + y = nan.
Proof. apply Prim2SF_inj. rewrite add_spec. reflexivity. Qed.

Lemma add_nan_r x : x + nan = nan.
Proof.
  apply Prim2SF_inj. rewrite add_spec.
  change (Prim2SF nan) with S754_nan. now destruct (Prim2SF x).
Qed.

Lemma sub_nan_l y : nan - y = nan.
Proof. apply Prim2SF_inj. rewrite sub_spec. reflexivity. Qed.

Lemma sub_nan_r x : x - nan = nan.
Proof.
  apply Prim2SF_inj. rewrite sub_spec.
  change (Prim2SF nan) with S754_nan. now destruct (Prim2SF x).
Qed.

Lemma mul_nan_l y : nan * y = nan.
Proof. apply Prim2SF_inj. rewrite mul_spec. reflexivity. Qed.

Lemma mul_nan_r x : x * nan = nan.
Proof.
  apply Prim2SF_inj. rewrite mul_spec.
  change (Prim2SF nan) with S754_nan. now destruct (Prim2SF x).
Qed.

Lemma div_nan_l y : nan / y = nan.
Proof. apply Prim2SF_inj. rewrite div_spec. reflexivity. Qed.




Lemma mul_zero_or_nan_l x y : zero_or_nan x -> zero_or_nan (x * y).
Proof.
  unfold zero_or_nan. rewrite mul_spec.
  destruct (Prim2SF x) as [s|s| |s m e]; try contradiction; intros _;
    destruct (Prim2SF y) as [s'|s'| |s' m' e']; exact I.
Qed.







(** A sum of this shape with a NaN in it is NaN. *)
Lemma nan_terms_sum (a b c r : float) :
  F64.is_nan a = true -> F64.is_nan (a * a + b * b + c * c + r * b * c) = true.
Proof.
  intros Ha. rewrite (is_nan_eq a Ha).
  now rewrite mul_nan_l, !add_nan_l.
Qed.

Lemma nan_squares_sum (a b c : float) :
  F64.is_nan a = true -> F64.is_nan (a * a + b * b + c * c) = true.
Proof.
  intros Ha. rewrite (is_nan_eq a Ha).
  now rewrite mul_nan_l, !add_nan_l.
Qed.

(** A NaN is not at least 0. *)
Lemma nan_not_nonneg x : F64.is_nan x = true -> (0 <=? x) = false.
Proof. intros H. now rewrite (is_nan_eq x H). Qed.

End ZerosAndNaN.

(** ** The CIE2000 distance of a colour to itself *)

Section SelfDistance2000.
Context (P : Platform).
#[local] Instance self_arith : Arith float := binary64 P.
#[local] Open Scope float_scope.







(** A NaN sample, as [meanBlockColor] returns for an empty block, makes
    both distances NaN. *)
Lemma cie94distance_nan_sample (c : cielab.t float) :
  F64.is_nan (cie94distance (cielab.mk nan nan nan) c) = true.
Proof.
  unfold cie94distance. cbv zeta.
  cbn [self_arith binary64 add sub mul div lit cielab.l].
  apply nan_squares_sum. now rewrite sub_nan_r, div_nan_l.
Qed.

Lemma cie2000distance_nan_sample (c : cielab.t float) :
  F64.is_nan (cie2000distance (cielab.mk nan nan nan) c) = true.
Proof.
  unfold cie2000distance. cbv zeta. cbn [self_arith binary64 add mul].
  apply nan_terms_sum.
  unfold cie2000weighted. cbv zeta.
  cbn [tDL self_arith binary64 add sub mul div lit mSqrt cielab.l].
  now rewrite sub_nan_r, div_nan_l.
Qed.

End SelfDistance2000.

(** ** Rounding with overflow and underflow *)

Section GeneralRounding.

(** A mantissa of at least 53 bits whose magnitude is not below the normal
    range: the result has the 53-bit mantissa of [binary_round_aux_normal],
    or is an infinity when the exponent is too large. *)
Lemma binary_round_aux_overflow (s : bool) (mx ex : Z) lx :
  2 ^ 52 <= mx -> emin <= ex + (Z.log2 mx - 52) ->
  exists m e,
    binary_round_aux prec emax s mx ex lx =
      (if e <=? emax - prec then S754_finite s m e else S754_infinity s) /\
    2 ^ 52 <= Z.pos m < 2 ^ 53 /\
    (Z.pos m = mx / 2 ^ (Z.log2 mx - 52) /\ e = ex + (Z.log2 mx - 52) \/
     Z.pos m = mx / 2 ^ (Z.log2 mx - 52) + 1 /\ e = ex + (Z.log2 mx - 52) \/
     Z.pos m = 2 ^ 52 /\ mx / 2 ^ (Z.log2 mx - 52) + 1 = 2 ^ 53
       /\ e = ex + (Z.log2 mx - 52) + 1).
Proof.
  intros Hmx He.
  assert (Hpos : 0 < mx) by lia.
  assert (Hlog : 52 <= Z.log2 mx).
  { replace 52 with (Z.log2 (2 ^ 52)) by reflexivity. now apply Z.log2_le_mono. }
  set (n := Z.log2 mx - 52) in *.
  set (m1 := mx / 2 ^ n).
  assert (Hm1 : 2 ^ 52 <= m1 < 2 ^ 53) by (apply truncate_53; assumption).
  unfold binary_round_aux, shr_fexp.
  destruct mx as [|p|p]; try lia.
  rewrite Zdigits2_log2.
  replace (fexp prec emax (Z.log2 (Z.pos p) + 1 + ex) - ex) with n
    by (unfold fexp, SpecFloat.emin, prec, emax, n in *; lia).
  pose proof (shr_fst_snd (shr_record_of_loc (Z.pos p) lx) ex n
                ltac:(rewrite shr_record_of_loc_m; lia) ltac:(lia)) as [S1 S2].
  rewrite shr_record_of_loc_m, Z.shiftr_div_pow2 in S1 by lia. fold m1 in S1.
  destruct (shr (shr_record_of_loc (Z.pos p) lx) ex n) as [mrs' e'] eqn:E1.
  cbn [fst snd] in S1, S2. subst e'.
  set (m2 := round_nearest_even (shr_m mrs') (loc_of_shr_record mrs')).
  assert (C : m2 = m1 \/ m2 = m1 + 1).
  { unfold m2. rewrite <- S1. apply round_nearest_even_cases. }
  assert (Hm2 : m2 < 2 ^ 53 \/ m2 = 2 ^ 53) by lia.
  destruct Hm2 as [Hm2 | Hm2].
  - assert (L2 : Z.log2 m2 = 52) by (apply log2_52; lia).
    destruct m2 as [|p2|p2] eqn:Em2; try lia.
    rewrite Zdigits2_log2, L2.
    replace (fexp prec emax (52 + 1 + (ex + n)) - (ex + n)) with 0
      by (unfold fexp, SpecFloat.emin, prec, emax in *; lia).
    cbn [shr shr_record_of_loc shr_m].
    exists p2, (ex + n). split; [reflexivity|]. split; [lia|].
    destruct C; [left|right; left]; split; lia.
  - rewrite Hm2.
    change (Zdigits2 (2 ^ 53)) with 54.
    replace (fexp prec emax (54 + (ex + n)) - (ex + n)) with 1
      by (unfold fexp, SpecFloat.emin, prec, emax in *; lia).
    cbn [shr shr_record_of_loc SpecFloat.iter_pos shr_1 shr_m Z.pow Z.pow_pos Pos.iter Z.mul Pos.mul].
    eexists _, (ex + n + 1). split; [reflexivity|]. split; [cbn; lia|].
    right; right. repeat split; lia.
Qed.

(** The same with the relative error: the mantissa and exponent are within
    [eps] of the number rounded. *)
Lemma binary_round_aux_value (s : bool) (mx ex : Z) lx (v : R) :
  2 ^ 52 <= mx -> emin <= ex + (Z.log2 mx - 52) ->
  (F2R mx ex <= v <= F2R (mx + 1) ex)%R ->
  exists m e,
    binary_round_aux prec emax s mx ex lx =
      (if e <=? emax - prec then S754_finite s m e else S754_infinity s) /\
    2 ^ 52 <= Z.pos m < 2 ^ 53 /\
    ex + (Z.log2 mx - 52) <= e <= ex + (Z.log2 mx - 52) + 1 /\
    (v * (1 - eps) <= F2R (Z.pos m) e <= v * (1 + eps))%R.
Proof.
  intros Hmx He Hv.
  destruct (binary_round_aux_overflow s mx ex lx Hmx He) as (m & e & E & Hm & C).
  exists m, e. split; [exact E|]. split; [exact Hm|].
  assert (Hlog : 52 <= Z.log2 mx).
  { replace 52 with (Z.log2 (2 ^ 52)) by reflexivity. now apply Z.log2_le_mono. }
  set (n := Z.log2 mx - 52) in *.
  set (m1 := mx / 2 ^ n) in *.
  split; [lia|].
  destruct (F2R_truncate mx n ex ltac:(lia) ltac:(lia)) as [T1 T2]. fold m1 in T1, T2.
  set (u := powerRZ 2 (ex + n)).
  assert (Hu : (0 < u)%R) by apply powerRZ_2_pos.
  assert (Hlo : (2 ^ 52 * u <= F2R m1 (ex + n))%R).
  { unfold F2R. fold u. apply Rmult_le_compat_r; [lra|].
    assert (2 ^ 52 <= m1) by (apply truncate_53; assumption).
    apply IZR_le in H. rewrite pow_IZR. exact H. }
  assert (Hup : F2R (m1 + 1) (ex + n) = (F2R m1 (ex + n) + u)%R).
  { unfold F2R. rewrite plus_IZR. fold u. ring. }
  assert (R : F2R (Z.pos m) e = F2R m1 (ex + n) \/
              F2R (Z.pos m) e = (F2R m1 (ex + n) + u)%R).
  { destruct C as [[C ->]|[[C ->]|(C1 & C2 & ->)]].
    - left. now rewrite C.
    - right. now rewrite C, Hup.
    - right. rewrite <- Hup, C2, C1.
      replace (2 ^ 53) with (2 ^ 52 * 2 ^ 1) by reflexivity.
      now rewrite F2R_shift by lia. }
  unfold eps. assert (E52 : (0 < 2 ^ 52)%R) by (apply pow_lt; lra).
  assert (Q : (u <= F2R m1 (ex + n) * / 2 ^ 52)%R).
  { apply Rmult_le_reg_r with (2 ^ 52)%R; [exact E52|].
    rewrite Rmult_assoc, Rinv_l by lra. lra. }
  assert (Vpos : (0 <= v)%R).
  { apply Rle_trans with (F2R mx ex); [|lra].
    unfold F2R. apply Rmult_le_pos; [apply IZR_le; lia|left; apply powerRZ_2_pos]. }
  assert (I52 : (0 < / 2 ^ 52)%R) by now apply Rinv_0_lt_compat.
  assert (Q2 : (F2R m1 (ex + n) * / 2 ^ 52 <= v * / 2 ^ 52)%R)
    by (apply Rmult_le_compat_r; lra).
  destruct R as [-> | ->]; split; lra.
Qed.

(** Below the normal range the mantissa is brought to the exponent [emin]:
    the result is a zero or a subnormal number, at most one unit [2^emin]
    above the number rounded. *)
Lemma binary_round_aux_underflow (s : bool) (mx ex : Z) lx :
  2 ^ 52 <= mx -> ex + (Z.log2 mx - 52) < emin ->
  binary_round_aux prec emax s mx ex lx = S754_zero s \/
  exists m,
    binary_round_aux prec emax s mx ex lx = S754_finite s m emin /\
    Z.pos m <= 2 ^ 52 /\
    (F2R (Z.pos m) emin <= F2R mx ex + powerRZ 2 emin)%R.
Proof.
  intros Hmx He.
  assert (Hpos : 0 < mx) by lia.
  assert (Hlog : 52 <= Z.log2 mx).
  { replace 52 with (Z.log2 (2 ^ 52)) by reflexivity. now apply Z.log2_le_mono. }
  set (n := emin - ex).
  assert (Hn : Z.log2 mx - 52 < n) by (unfold n; lia).
  set (m1 := mx / 2 ^ n).
  assert (P2 : 0 < 2 ^ n) by (apply Z.pow_pos_nonneg; lia).
  assert (Hm1 : 0 <= m1 < 2 ^ 52).
  { split; [apply Z.div_pos; lia|].
    apply Z.div_lt_upper_bound; [lia|].
    pose proof (Z.log2_spec mx Hpos) as [_ U].
    apply Z.lt_le_trans with (1 := U).
    rewrite <- Z.pow_add_r by lia. apply Z.pow_le_mono_r; lia. }
  unfold binary_round_aux, shr_fexp.
  destruct mx as [|p|p]; try lia.
  rewrite Zdigits2_log2.
  replace (fexp prec emax (Z.log2 (Z.pos p) + 1 + ex) - ex) with n.
  2:{ clear - He Hlog. unfold n, fexp, SpecFloat.emin, prec, emax in *. lia. }
  pose proof (shr_fst_snd (shr_record_of_loc (Z.pos p) lx) ex n
                ltac:(rewrite shr_record_of_loc_m; lia) ltac:(lia)) as [S1 S2].
  rewrite shr_record_of_loc_m, Z.shiftr_div_pow2 in S1 by lia. fold m1 in S1.
  destruct (shr (shr_record_of_loc (Z.pos p) lx) ex n) as [mrs' e'] eqn:E1.
  cbn [fst snd] in S1, S2. subst e'.
  replace (ex + n) with emin by (unfold n; lia).
  set (m2 := round_nearest_even (shr_m mrs') (loc_of_shr_record mrs')).
  assert (C : m2 = m1 \/ m2 = m1 + 1).
  { unfold m2. rewrite <- S1. apply round_nearest_even_cases. }
  destruct m2 as [|p2|p2] eqn:Em2; try lia.
  - left. reflexivity.
  - right.
    assert (L2 : 0 <= Z.log2 (Z.pos p2) <= 52).
    { split; [apply Z.log2_nonneg|].
      replace 52 with (Z.log2 (2 ^ 52)) by reflexivity. apply Z.log2_le_mono. lia. }
    rewrite Zdigits2_log2.
    replace (fexp prec emax (Z.log2 (Z.pos p2) + 1 + emin) - emin) with 0
      by (unfold fexp, SpecFloat.emin, prec, emax in *; lia).
    cbn [shr shr_record_of_loc shr_m].
    exists p2. split; [reflexivity|]. split; [lia|].
    destruct (F2R_truncate (Z.pos p) n ex ltac:(lia) ltac:(lia)) as [T1 _].
    fold m1 in T1. replace (ex + n) with emin in T1 by (unfold n; lia).
    apply Rle_trans with (F2R (m1 + 1) emin); [apply F2R_le; lia|].
    unfold F2R in *. rewrite plus_IZR. lra.
Qed.

End GeneralRounding.

(** ** The values of binary64 products and sums *)

Section FloatValues.

(** A finite number of binary64 is in canonical form: its mantissa has 53
    bits, or its exponent is the least one. *)
Lemma valid_canonical (x : float) s m e :
  Prim2SF x = S754_finite s m e ->
  emin <= e <= emax - prec /\ Z.pos m < 2 ^ 53 /\
  (2 ^ 52 <= Z.pos m \/ e = emin).
Proof.
  intros E. pose proof (Prim2SF_valid x) as V. rewrite E in V.
  cbn [SpecFloat.valid_binary] in V. unfold bounded, canonical_mantissa in V.
  apply andb_prop in V as [V1 V2]. apply Z.eqb_eq in V1. apply Z.leb_le in V2.
  pose proof (Zdigits2_log2 m) as D0. cbn [Zdigits2] in D0. rewrite D0 in V1.
  pose proof (Z.log2_nonneg (Z.pos m)) as L0.
  pose proof (Z.log2_spec (Z.pos m) ltac:(lia)) as [L1 L2].
  assert (D : Z.log2 (Z.pos m) <= 52 /\ (Z.log2 (Z.pos m) = 52 \/ e = emin) /\ emin <= e).
  { unfold fexp, SpecFloat.emin, prec, emax in *. lia. }
  destruct D as (D1 & D2 & D3).
  split; [lia|]. split.
  - apply Z.lt_le_trans with (1 := L2). apply Z.pow_le_mono_r; lia.
  - destruct D2 as [D2|D2]; [left|right; exact D2].
    rewrite D2 in L1. exact L1.
Qed.

Lemma F2R_mul m1 e1 m2 e2 :
  F2R (Z.pos (m1 * m2)) (e1 + e2) = (F2R (Z.pos m1) e1 * F2R (Z.pos m2) e2)%R.
Proof.
  unfold F2R. rewrite Pos2Z.inj_mul, mult_IZR, powerRZ_2_add. ring.
Qed.

Lemma log2_product m1 m2 :
  2 ^ 52 <= Z.pos m2 < 2 ^ 53 ->
  Z.log2 (Z.pos m1) + 52 <= Z.log2 (Z.pos (m1 * m2)) <= Z.log2 (Z.pos m1) + 53.
Proof.
  intros H2. rewrite Pos2Z.inj_mul.
  pose proof (Z.log2_spec (Z.pos m1) ltac:(lia)) as [L1 U1].
  pose proof (Z.log2_nonneg (Z.pos m1)) as N1.
  split.
  - apply Z.log2_le_pow2; [lia|]. rewrite Z.pow_add_r by lia. nia.
  - assert (Z.log2 (Z.pos m1 * Z.pos m2) < Z.log2 (Z.pos m1) + 54); [|lia].
    apply Z.log2_lt_pow2; [lia|].
    replace (Z.log2 (Z.pos m1) + 54) with (Z.log2 (Z.pos m1) + 1 + 53) by lia.
    rewrite Z.pow_add_r by lia. nia.
Qed.

(** The product of two numbers with 53-bit mantissas, in the normal range
    and without overflow: the exact product up to the relative error. *)
Lemma mul_normal (x y : float) sx mx ex sy my ey :
  Prim2SF x = S754_finite sx mx ex -> Prim2SF y = S754_finite sy my ey ->
  2 ^ 52 <= Z.pos mx < 2 ^ 53 -> 2 ^ 52 <= Z.pos my < 2 ^ 53 ->
  emin <= ex + ey + 52 -> ex + ey + 54 <= emax - prec ->
  exists m e,
    Prim2SF (x * y)%float = S754_finite (xorb sx sy) m e /\
    2 ^ 52 <= Z.pos m < 2 ^ 53 /\
    ex + ey + 52 <= e <= ex + ey + 54 /\
    (F2R (Z.pos mx) ex * F2R (Z.pos my) ey * (1 - eps) <= F2R (Z.pos m) e
     <= F2R (Z.pos mx) ex * F2R (Z.pos my) ey * (1 + eps))%R.
Proof.
  intros Ex Ey Hx Hy Lo Hi.
  rewrite mul_spec, Ex, Ey. unfold SF64mul, SFmul.
  pose proof (log2_product mx my Hy) as L.
  rewrite (log2_52 (Z.pos mx) Hx) in L.
  destruct (binary_round_aux_value (xorb sx sy) (Z.pos (mx * my)) (ex + ey) loc_Exact
              (F2R (Z.pos (mx * my)) (ex + ey)))
    as (m & e & E & Hm & He & Hv).
  - rewrite Pos2Z.inj_mul. nia.
  - lia.
  - split; [apply Rle_refl|apply F2R_le; lia].
  - exists m, e. rewrite E.
    destruct (Z.leb_spec e (emax - prec)); [|lia].
    split; [reflexivity|]. split; [exact Hm|]. split; [lia|].
    rewrite <- F2R_mul. exact Hv.
Qed.

(** The product of a finite number and a number with a 53-bit mantissa,
    without overflow: a zero, or at most the exact product, its relative
    error and one unit of the least exponent. *)
Lemma mul_upper (x y : float) sx mx ex sy my ey :
  Prim2SF x = S754_finite sx mx ex -> Prim2SF y = S754_finite sy my ey ->
  2 ^ 52 <= Z.pos my < 2 ^ 53 ->
  ex + Z.log2 (Z.pos mx) + ey + 2 <= emax - prec ->
  Prim2SF (x * y)%float = S754_zero (xorb sx sy) \/
  exists m e,
    Prim2SF (x * y)%float = S754_finite (xorb sx sy) m e /\
    e + Z.log2 (Z.pos m) <= Z.max (ex + Z.log2 (Z.pos mx) + ey + 54) (emin + 52) /\
    (F2R (Z.pos m) e
     <= F2R (Z.pos mx) ex * F2R (Z.pos my) ey * (1 + eps) + powerRZ 2 emin)%R.
Proof.
  intros Ex Ey Hy Hi.
  rewrite mul_spec, Ex, Ey. unfold SF64mul, SFmul.
  pose proof (log2_product mx my Hy) as L.
  pose proof (Z.log2_nonneg (Z.pos mx)) as N1.
  assert (Hmx : 2 ^ 52 <= Z.pos (mx * my)) by (rewrite Pos2Z.inj_mul; nia).
  assert (P0 : (0 <= F2R (Z.pos mx) ex * F2R (Z.pos my) ey)%R).
  { apply Rmult_le_pos; left; apply F2R_pos; lia. }
  assert (Pe : (0 < powerRZ 2 emin)%R) by apply powerRZ_2_pos.
  assert (E0 : (0 < eps)%R) by apply eps_small.
  destruct (Z_lt_le_dec (ex + ey + (Z.log2 (Z.pos (mx * my)) - 52)) emin) as [U|N].
  - destruct (binary_round_aux_underflow (xorb sx sy) (Z.pos (mx * my)) (ex + ey)
                loc_Exact Hmx U) as [Z0 | (m & E & Hm & Hv)]; [left; exact Z0|right].
    exists m, emin. split; [exact E|]. split.
    + assert (Z.log2 (Z.pos m) <= 52); [|lia].
      replace 52 with (Z.log2 (2 ^ 52)) by reflexivity. now apply Z.log2_le_mono.
    + rewrite F2R_mul in Hv. nra.
  - right.
    destruct (binary_round_aux_value (xorb sx sy) (Z.pos (mx * my)) (ex + ey) loc_Exact
                (F2R (Z.pos (mx * my)) (ex + ey)) Hmx N)
      as (m & e & E & Hm & He & Hv).
    { split; [apply Rle_refl|apply F2R_le; lia]. }
    exists m, e. rewrite E.
    destruct (Z.leb_spec e (emax - prec)); [|lia].
    split; [reflexivity|]. split.
    + rewrite (log2_52 _ Hm). lia.
    + rewrite F2R_mul in Hv. lra.
Qed.

Lemma F2R_aligned m e e' :
  e' <= e -> F2R (Z.pos (fst (shl_align m e e'))) e' = F2R (Z.pos m) e.
Proof.
  intros H. rewrite shl_align_fst by assumption.
  rewrite F2R_shift by lia. f_equal. lia.
Qed.

(** The sum of a positive finite number and a positive number with a 53-bit
    mantissa: plus infinity, or the exact sum up to the relative error. *)
Lemma add_positive (x y : float) mx ex my ey :
  Prim2SF x = S754_finite false mx ex -> Prim2SF y = S754_finite false my ey ->
  2 ^ 52 <= Z.pos my < 2 ^ 53 ->
  Prim2SF (x + y)%float = S754_infinity false \/
  exists m e,
    Prim2SF (x + y)%float = S754_finite false m e /\
    2 ^ 52 <= Z.pos m < 2 ^ 53 /\
    ((F2R (Z.pos mx) ex + F2R (Z.pos my) ey) * (1 - eps) <= F2R (Z.pos m) e
     <= (F2R (Z.pos mx) ex + F2R (Z.pos my) ey) * (1 + eps))%R.
Proof.
  intros Ex Ey Hy.
  destruct (valid_canonical x _ _ _ Ex) as ((Vx & _) & _).
  destruct (valid_canonical y _ _ _ Ey) as ((Vy & _) & _).
  rewrite add_spec, Ex, Ey. unfold SF64add, SFadd. cbv zeta. cbn [cond_Zopp].
  set (ez := Z.min ex ey).
  pose proof (F2R_aligned mx ex ez ltac:(unfold ez; lia)) as Ax.
  pose proof (F2R_aligned my ey ez ltac:(unfold ez; lia)) as Ay.
  pose proof (shl_align_fst my ey ez ltac:(unfold ez; lia)) as Sy.
  set (ax := fst (shl_align mx ex ez)) in *.
  set (ay := fst (shl_align my ey ez)) in *.
  assert (P2 : 1 <= 2 ^ (ey - ez)).
  { assert (0 < 2 ^ (ey - ez)) by (apply Z.pow_pos_nonneg; unfold ez; lia). lia. }
  change (Z.pos ax + Z.pos ay) with (Z.pos (ax + ay)).
  cbn [binary_normalize]. unfold binary_round.
  assert (Hs : 2 ^ 52 <= Z.pos (ax + ay)) by (rewrite Pos2Z.inj_add; nia).
  assert (Hlog : 52 <= Z.log2 (Z.pos (ax + ay))).
  { replace 52 with (Z.log2 (2 ^ 52)) by reflexivity. now apply Z.log2_le_mono. }
  assert (Sh : shl_align (ax + ay) ez (fexp prec emax (Z.pos (digits2_pos (ax + ay)) + ez))
               = ((ax + ay)%positive, ez)).
  { unfold shl_align.
    pose proof (Zdigits2_log2 (ax + ay)) as D. cbn [Zdigits2] in D. rewrite D.
    assert (G : 0 <= fexp prec emax (Z.log2 (Z.pos (ax + ay)) + 1 + ez) - ez)
      by (unfold fexp, SpecFloat.emin, prec, emax in *; lia).
    destruct (fexp prec emax (Z.log2 (Z.pos (ax + ay)) + 1 + ez) - ez); try reflexivity.
    lia. }
  rewrite Sh.
  destruct (binary_round_aux_value false (Z.pos (ax + ay)) ez loc_Exact
              (F2R (Z.pos (ax + ay)) ez) Hs)
    as (m & e & E & Hm & He & Hv).
  - unfold ez, SpecFloat.emin, prec, emax in *. lia.
  - split; [apply Rle_refl|apply F2R_le; lia].
  - rewrite E. destruct (e <=? emax - prec); [right|left; reflexivity].
    exists m, e. split; [reflexivity|]. split; [exact Hm|].
    replace (F2R (Z.pos (ax + ay)) ez) with (F2R (Z.pos mx) ex + F2R (Z.pos my) ey)%R in Hv.
    + exact Hv.
    + rewrite <- Ax, <- Ay. unfold F2R. rewrite Pos2Z.inj_add, plus_IZR. ring.
Qed.

(** The sum of a positive finite number and a negative one that is not
    larger in magnitude is not negative. *)
Lemma add_dominated (x y : float) mx ex my ey :
  Prim2SF x = S754_finite false mx ex -> Prim2SF y = S754_finite true my ey ->
  (F2R (Z.pos my) ey <= F2R (Z.pos mx) ex)%R ->
  signed false (Prim2SF (x + y)%float).
Proof.
  intros Ex Ey H.
  rewrite add_spec, Ex, Ey. unfold SF64add, SFadd. cbv zeta. cbn [cond_Zopp].
  set (ez := Z.min ex ey).
  rewrite <- (F2R_aligned mx ex ez), <- (F2R_aligned my ey ez) in H by (unfold ez; lia).
  set (ax := fst (shl_align mx ex ez)) in *.
  set (ay := fst (shl_align my ey ez)) in *.
  assert (L : Z.pos ay <= Z.pos ax).
  { destruct (Z_lt_le_dec (Z.pos ax) (Z.pos ay)) as [C|C]; [|exact C]. exfalso.
    assert (F2R (Z.pos ax) ez < F2R (Z.pos ay) ez)%R; [|lra].
    unfold F2R. apply Rmult_lt_compat_r; [apply powerRZ_2_pos|now apply IZR_lt]. }
  destruct (Z.pos ax + - Z.pos ay) as [|d|d] eqn:D; try lia; cbn [binary_normalize].
  - reflexivity.
  - apply binary_round_signed.
Qed.

Lemma powerRZ_2_le a b : a <= b -> (powerRZ 2 a <= powerRZ 2 b)%R.
Proof.
  intros H. replace b with (a + (b - a)) by lia. rewrite powerRZ_2_add.
  rewrite <- (IZR_pow2 (b - a)) by lia.
  assert (H0 : 1 <= 2 ^ (b - a))
    by (assert (0 < 2 ^ (b - a)) by (apply Z.pow_pos_nonneg; lia); lia).
  apply IZR_le in H0. pose proof (powerRZ_2_pos a). nra.
Qed.

Lemma F2R_normal_bounds m e :
  2 ^ 52 <= Z.pos m < 2 ^ 53 ->
  (powerRZ 2 (e + 52) <= F2R (Z.pos m) e < powerRZ 2 (e + 53))%R.
Proof.
  intros [H1 H2]. unfold F2R. rewrite !powerRZ_2_add.
  rewrite <- (IZR_pow2 52), <- (IZR_pow2 53) by lia.
  apply IZR_le in H1. apply IZR_lt in H2. pose proof (powerRZ_2_pos e). nra.
Qed.

Lemma F2R_upper m e k :
  Z.pos m < 2 ^ 53 -> e + 53 <= k -> (F2R (Z.pos m) e < powerRZ 2 k)%R.
Proof.
  intros H1 H2. apply Rlt_le_trans with (powerRZ 2 (e + 53)); [|now apply powerRZ_2_le].
  unfold F2R. rewrite powerRZ_2_add, <- (IZR_pow2 53) by lia.
  apply IZR_lt in H1. pose proof (powerRZ_2_pos e). nra.
Qed.

(** The order of binary64 on positive finite numbers is the order of their
    values. *)
Lemma leb_of_values (x y : float) mx ex my ey :
  Prim2SF x = S754_finite false mx ex -> Prim2SF y = S754_finite false my ey ->
  (F2R (Z.pos mx) ex <= F2R (Z.pos my) ey)%R ->
  (x <=? y)%float = true.
Proof.
  intros Ex Ey H.
  destruct (valid_canonical x _ _ _ Ex) as (Vx & Mx & Cx).
  destruct (valid_canonical y _ _ _ Ey) as (Vy & My & Cy).
  rewrite leb_spec, Ex, Ey. unfold SFleb, SFcompare.
  destruct (Z.compare_spec ex ey) as [E|L|G]; [|reflexivity|exfalso].
  - subst ey. change (PosDef.Pos.compare_cont Eq mx my) with (Pos.compare mx my).
    destruct (Pos.compare_spec mx my) as [E|L|G]; [reflexivity|reflexivity|exfalso].
    assert (F2R (Z.pos my) ex < F2R (Z.pos mx) ex)%R; [|lra].
    unfold F2R. apply Rmult_lt_compat_r; [apply powerRZ_2_pos|apply IZR_lt; lia].
  - destruct Cx as [Cx|Cx]; [|lia].
    pose proof (F2R_normal_bounds mx ex ltac:(lia)) as [B1 _].
    pose proof (F2R_upper my ey (ex + 52) My ltac:(lia)). lra.
Qed.

(** *** The hypotheses on the rotation term and the weighted differences *)

(** [x] is a zero, or a number of magnitude between [2^-500] and [2^500]. *)
Definition magnitude_ok (x : float) : bool :=
  ((abs x =? 0) || ((0x1p-500 <=? abs x) && (abs x <=? 0x1p500)))%float.

Lemma magnitude_ok_cases x :
  magnitude_ok x = true ->
  (exists s, Prim2SF x = S754_zero s) \/
  exists s m e, Prim2SF x = S754_finite s m e /\
    2 ^ 52 <= Z.pos m < 2 ^ 53 /\ -552 <= e <= 448.
Proof.
  unfold magnitude_ok. rewrite eqb_spec, !leb_spec, abs_spec.
  change (Prim2SF 0) with (S754_zero false).
  change (Prim2SF 0x1p-500) with (S754_finite false 4503599627370496 (-552)).
  change (Prim2SF 0x1p500) with (S754_finite false 4503599627370496 448).
  destruct (Prim2SF x) as [s|s| |s m e] eqn:E; cbn [SFabs].
  - intros _. left. now exists s.
  - intros H. discriminate H.
  - intros H. discriminate H.
  - intros H. right. exists s, m, e. split; [reflexivity|].
    destruct (valid_canonical x _ _ _ E) as (V & M & C).
    unfold SFeqb, SFleb, SFcompare in H. cbn [orb] in H.
    apply andb_prop in H as [H1 H2].
    assert (L1 : -552 <= e).
    { destruct (Z.compare_spec (-552) e); first [lia | discriminate H1]. }
    assert (L2 : e <= 448).
    { destruct (Z.compare_spec e 448); first [lia | discriminate H2]. }
    split; [|lia].
    destruct C as [C|C]; [lia|]. unfold SpecFloat.emin, prec, emax in C. lia.
Qed.

Lemma SFleb_finite m e c ec :
  SFleb (S754_finite false m e) (S754_finite false c ec) = true ->
  e < ec \/ e = ec /\ Z.pos m <= Z.pos c.
Proof.
  unfold SFleb, SFcompare.
  destruct (Z.compare_spec e ec) as [Q|Q|Q]; intros H; try discriminate H.
  - right. split; [exact Q|].
    change (PosDef.Pos.compare_cont Eq m c) with (Pos.compare m c) in H.
    destruct (Pos.compare_spec m c); try discriminate H; lia.
  - left. exact Q.
Qed.

Lemma abs_le_cases r :
  (abs r <=? 1.75)%float = true ->
  (exists s, Prim2SF r = S754_zero s) \/
  exists s m e, Prim2SF r = S754_finite s m e /\
    e + Z.log2 (Z.pos m) <= 0 /\ (F2R (Z.pos m) e <= 7 / 4)%R.
Proof.
  rewrite leb_spec, abs_spec.
  change (Prim2SF 1.75) with (S754_finite false 7881299347898368 (-52)).
  destruct (Prim2SF r) as [s|s| |s m e] eqn:E; cbn [SFabs].
  - intros _. left. now exists s.
  - intros H. discriminate H.
  - intros H. discriminate H.
  - intros H. right. exists s, m, e. split; [reflexivity|].
    destruct (valid_canonical r _ _ _ E) as (V & M & C).
    apply SFleb_finite in H.
    assert (L : Z.log2 (Z.pos m) <= 52).
    { assert (Z.log2 (Z.pos m) < 53); [|lia]. apply Z.log2_lt_pow2; lia. }
    destruct H as [Q|[Q Hm]].
    + split; [lia|].
      pose proof (F2R_upper m e 0 M ltac:(lia)) as U. simpl powerRZ in U. lra.
    + subst e. split; [lia|].
      change (Z.pos 7881299347898368) with (7 * 2 ^ 50) in Hm.
      apply (F2R_le _ _ (-52)) in Hm.
      rewrite F2R_shift in Hm by lia. change (-52 + 50) with (-2) in Hm.
      unfold F2R at 2 in Hm. simpl powerRZ in Hm. lra.
Qed.

End FloatValues.

(** ** The interaction term of [cie2000distance] against the squares *)

Section Interaction.
#[local] Open Scope R_scope.

Lemma eps_le : eps <= 1 / 1000.
Proof.
  destruct eps_small as [[E0 _] E52].
  assert (H : 1000 <= 2 ^ 52).
  { rewrite pow_IZR. apply IZR_le. discriminate. }
  nra.
Qed.

Lemma least_unit_small :
  powerRZ 2 emin <= powerRZ 2 (-500) / 1000 /\
  powerRZ 2 emin <= powerRZ 2 (-500) * powerRZ 2 (-500) / 1000.
Proof.
  assert (T : 0 < powerRZ 2 (-500)) by apply powerRZ_2_pos.
  assert (K : powerRZ 2 (-74) <= 1 / 1000).
  { apply Rle_trans with (powerRZ 2 (-10)); [apply powerRZ_2_le; lia|].
    simpl powerRZ. lra. }
  assert (K' : powerRZ 2 (-574) <= 1 / 1000).
  { apply Rle_trans with (powerRZ 2 (-10)); [apply powerRZ_2_le; lia|].
    simpl powerRZ. lra. }
  split.
  - replace emin with (-500 + -574)%Z by reflexivity. rewrite powerRZ_2_add. nra.
  - replace emin with (-500 + (-500 + -74))%Z by reflexivity.
    rewrite !powerRZ_2_add.
    assert (0 < powerRZ 2 (-500) * powerRZ 2 (-500)) by nra. nra.
Qed.

(** The rounded product [(r * b) * c] against [b^2 + c^2], for [|r| <= 7/4]
    and [b], [c] not below [t]; [h] is the unit of the least exponent. *)
Lemma interaction_real (b c r p i e h t : R) :
  0 < e <= 1 / 1000 -> 0 < t -> 0 <= h -> h <= t / 1000 -> h <= t * t / 1000 ->
  t <= b -> t <= c -> 0 <= r <= 7 / 4 ->
  0 <= p <= r * b * (1 + e) + h ->
  i <= p * c * (1 + e) + h ->
  i <= (b * b + c * c) * (9 / 10).
Proof.
  intros He Ht Hh H1 H2 Hb Hc Hr Hp Hi.
  assert (Pb : 0 < b) by lra. assert (Pc : 0 < c) by lra.
  assert (Pbc : 0 <= b * c) by (apply Rmult_le_pos; lra).
  assert (A1 : r * b * c <= 7 / 4 * (b * c)).
  { rewrite Rmult_assoc. apply Rmult_le_compat_r; lra. }
  assert (A2 : b * c <= (b * b + c * c) / 2).
  { pose proof (Rle_0_sqr (b - c)) as Q. unfold Rsqr in Q.
    replace ((b - c) * (b - c)) with (b * b + c * c - 2 * (b * c)) in Q by ring. lra. }
  assert (A3 : (1 + e) * (1 + e) <= 1003 / 1000).
  { replace ((1 + e) * (1 + e)) with (1 + 2 * e + e * e) by ring.
    assert (e * e <= 1 / 1000 * e) by (apply Rmult_le_compat_r; lra). lra. }
  assert (A4 : h * c <= c * c / 1000).
  { assert (X1 : h * c <= t / 1000 * c) by (apply Rmult_le_compat_r; lra).
    assert (X2 : t / 1000 * c <= c / 1000 * c) by (apply Rmult_le_compat_r; lra).
    replace (c * c / 1000) with (c / 1000 * c) by (unfold Rdiv; ring). lra. }
  assert (A5 : h <= c * c / 1000).
  { apply Rle_trans with (1 := H2).
    assert (t * t <= c * c) by (apply Rmult_le_compat; lra). lra. }
  assert (A6 : p * c * (1 + e) <= (r * b * (1 + e) + h) * c * (1 + e)).
  { apply Rmult_le_compat_r; [lra|]. apply Rmult_le_compat_r; lra. }
  assert (A7 : (r * b * (1 + e) + h) * c * (1 + e)
               = r * b * c * ((1 + e) * (1 + e)) + h * c * (1 + e)) by ring.
  assert (Prbc : 0 <= r * b * c).
  { apply Rmult_le_pos; [apply Rmult_le_pos|]; lra. }
  assert (A8 : r * b * c * ((1 + e) * (1 + e)) <= 7 / 4 * (b * c) * (1003 / 1000)).
  { apply Rmult_le_compat; try lra.
    replace ((1 + e) * (1 + e)) with (1 + 2 * e + e * e) by ring.
    assert (0 <= e * e) by (apply Rmult_le_pos; lra). lra. }
  assert (A9 : h * c * (1 + e) <= c * c / 1000 * (1001 / 1000)).
  { apply Rmult_le_compat; try lra. apply Rmult_le_pos; lra. }
  assert (Pcc : 0 <= c * c) by (apply Rmult_le_pos; lra).
  assert (Pbb : 0 <= b * b) by (apply Rmult_le_pos; lra).
  lra.
Qed.

Lemma three_errors (q s e : R) :
  0 < e <= 1 / 1000 -> 0 <= q -> q * ((1 - e) * (1 - e) * (1 - e)) <= s ->
  q * (99 / 100) <= s.
Proof.
  intros He Hq H.
  assert (K : 99 / 100 <= (1 - e) * (1 - e) * (1 - e)).
  { replace ((1 - e) * (1 - e) * (1 - e))
      with (1 - 3 * e + e * e * (3 - e)) by ring.
    assert (0 <= e * e * (3 - e)).
    { apply Rmult_le_pos; [apply Rmult_le_pos|]; lra. }
    lra. }
  apply Rle_trans with (2 := H). apply Rmult_le_compat_l; lra.
Qed.

End Interaction.

Section WeightedSum.
#[local] Open Scope float_scope.

Lemma F2R_nonneg m e : (0 <= F2R (Z.pos m) e)%R.
Proof. left. apply F2R_pos. lia. Qed.

(** The square of a number in the range of [magnitude_ok]. *)
Lemma square_value (b : float) sb mb eb :
  Prim2SF b = S754_finite sb mb eb ->
  (2 ^ 52 <= Z.pos mb < 2 ^ 53)%Z -> (-552 <= eb <= 448)%Z ->
  exists m e,
    Prim2SF (b * b) = S754_finite false m e /\ (2 ^ 52 <= Z.pos m < 2 ^ 53)%Z /\
    (F2R (Z.pos mb) eb * F2R (Z.pos mb) eb * (1 - eps) <= F2R (Z.pos m) e)%R.
Proof.
  intros Eb Hb Rb.
  destruct (mul_normal b b sb mb eb sb mb eb Eb Eb Hb Hb) as (m & e & E & Hm & _ & Hv).
  - unfold SpecFloat.emin, prec, emax. lia.
  - unfold prec, emax. lia.
  - rewrite xorb_nilpotent in E. exists m, e. split; [exact E|]. split; [exact Hm|].
    apply Hv.
Qed.

Lemma magnitude_ok_value mb eb :
  (2 ^ 52 <= Z.pos mb < 2 ^ 53)%Z -> (-552 <= eb)%Z ->
  (powerRZ 2 (-500) <= F2R (Z.pos mb) eb)%R.
Proof.
  intros Hb Rb. destruct (F2R_normal_bounds mb eb Hb) as [L _].
  apply Rle_trans with (2 := L). apply powerRZ_2_le. lia.
Qed.

(** The sum of the squares of two such numbers. *)
Lemma squares_pair_value (b c : float) sb mb eb sc mc ec :
  Prim2SF b = S754_finite sb mb eb ->
  (2 ^ 52 <= Z.pos mb < 2 ^ 53)%Z -> (-552 <= eb <= 448)%Z ->
  Prim2SF c = S754_finite sc mc ec ->
  (2 ^ 52 <= Z.pos mc < 2 ^ 53)%Z -> (-552 <= ec <= 448)%Z ->
  Prim2SF (b * b + c * c) = S754_infinity false \/
  exists m e,
    Prim2SF (b * b + c * c) = S754_finite false m e /\
    ((F2R (Z.pos mb) eb * F2R (Z.pos mb) eb + F2R (Z.pos mc) ec * F2R (Z.pos mc) ec)
       * (99 / 100) <= F2R (Z.pos m) e)%R.
Proof.
  intros Eb Hb Rb Ec Hc Rc.
  destruct (square_value b sb mb eb Eb Hb Rb) as (mB & eB & EB & HB & VB).
  destruct (square_value c sc mc ec Ec Hc Rc) as (mC & eC & EC & HC & VC).
  destruct (add_positive (b * b) (c * c) mB eB mC eC EB EC HC)
    as [I | (m & e & E & _ & V & _)]; [left; exact I|right].
  exists m, e. split; [exact E|].
  pose proof (F2R_nonneg mb eb) as Pb. pose proof (F2R_nonneg mc ec) as Pc.
  set (bb := F2R (Z.pos mb) eb) in *. set (cc := F2R (Z.pos mc) ec) in *.
  pose proof eps_le as E1. destruct eps_small as [[E0 _] _].
  assert (Pbb : (0 <= bb * bb)%R) by (apply Rmult_le_pos; lra).
  assert (Pcc : (0 <= cc * cc)%R) by (apply Rmult_le_pos; lra).
  apply (three_errors _ _ eps); [lra|lra|].
  apply Rle_trans with (2 := V).
  apply Rle_trans with ((bb * bb + cc * cc) * (1 - eps) * (1 - eps))%R.
  - assert (K : ((bb * bb + cc * cc) * (1 - eps) * (1 - eps) * (1 - eps)
                 <= (bb * bb + cc * cc) * (1 - eps) * (1 - eps) * 1)%R).
    { apply Rmult_le_compat_l; [|lra].
      apply Rmult_le_pos; [apply Rmult_le_pos|]; lra. }
    lra.
  - apply Rmult_le_compat_r; lra.
Qed.

(** The sum of three squares when the last two are of such numbers. *)
Lemma squares_sum_value (a b c : float) sb mb eb sc mc ec :
  Prim2SF b = S754_finite sb mb eb ->
  (2 ^ 52 <= Z.pos mb < 2 ^ 53)%Z -> (-552 <= eb <= 448)%Z ->
  Prim2SF c = S754_finite sc mc ec ->
  (2 ^ 52 <= Z.pos mc < 2 ^ 53)%Z -> (-552 <= ec <= 448)%Z ->
  Prim2SF (a * a + b * b + c * c) = S754_nan \/
  Prim2SF (a * a + b * b + c * c) = S754_infinity false \/
  exists m e,
    Prim2SF (a * a + b * b + c * c) = S754_finite false m e /\
    ((F2R (Z.pos mb) eb * F2R (Z.pos mb) eb + F2R (Z.pos mc) ec * F2R (Z.pos mc) ec)
       * (99 / 100) <= F2R (Z.pos m) e)%R.
Proof.
  intros Eb Hb Rb Ec Hc Rc.
  destruct (square_value b sb mb eb Eb Hb Rb) as (mB & eB & EB & HB & VB).
  destruct (square_value c sc mc ec Ec Hc Rc) as (mC & eC & EC & HC & VC).
  pose proof (F2R_nonneg mb eb) as Pb. pose proof (F2R_nonneg mc ec) as Pc.
  set (bb := F2R (Z.pos mb) eb) in *. set (cc := F2R (Z.pos mc) ec) in *.
  pose proof eps_le as E1. destruct eps_small as [[E0 _] _].
  assert (Pbb : (0 <= bb * bb)%R) by (apply Rmult_le_pos; lra).
  assert (Pcc : (0 <= cc * cc)%R) by (apply Rmult_le_pos; lra).
  (* the first sum *)
  assert (S1 : Prim2SF (a * a + b * b) = S754_nan \/
               Prim2SF (a * a + b * b) = S754_infinity false \/
               exists m e, Prim2SF (a * a + b * b) = S754_finite false m e /\
                 (bb * bb * (1 - eps) * (1 - eps) <= F2R (Z.pos m) e)%R).
  { pose proof (SFmul_self_signed (Prim2SF a)) as SA. rewrite <- mul_spec in SA.
    destruct (Prim2SF (a * a)) as [s|s| |s mA eA] eqn:EA; cbn [signed] in SA;
      try subst s.
    - right; right. exists mB, eB. split.
      + rewrite add_spec, EA, EB. reflexivity.
      + apply Rle_trans with (2 := VB).
        assert (K : (bb * bb * (1 - eps) * (1 - eps) <= bb * bb * (1 - eps) * 1)%R).
        { apply Rmult_le_compat_l; [|lra]. apply Rmult_le_pos; lra. }
        lra.
    - right; left. rewrite add_spec, EA, EB. reflexivity.
    - left. rewrite add_spec, EA. reflexivity.
    - destruct (add_positive (a * a) (b * b) mA eA mB eB EA EB HB)
        as [I | (m & e & E & _ & V & _)]; [right; left; exact I|right; right].
      exists m, e. split; [exact E|].
      apply Rle_trans with (2 := V).
      pose proof (F2R_nonneg mA eA) as PA.
      apply Rmult_le_compat_r; lra. }
  destruct S1 as [N | [I | (m1 & e1 & E1' & V1)]].
  - left. rewrite add_spec, N. reflexivity.
  - right; left. rewrite add_spec, I, EC. reflexivity.
  - destruct (add_positive (a * a + b * b) (c * c) m1 e1 mC eC E1' EC HC)
      as [I | (m & e & E & _ & V & _)]; [right; left; exact I|right; right].
    exists m, e. split; [exact E|].
    apply (three_errors _ _ eps); [lra|lra|].
    apply Rle_trans with (2 := V).
    assert (G1 : (bb * bb * (1 - eps) * (1 - eps) + cc * cc * (1 - eps)
                  <= F2R (Z.pos m1) e1 + F2R (Z.pos mC) eC)%R) by lra.
    assert (G2 : ((bb * bb + cc * cc) * ((1 - eps) * (1 - eps))
                  <= bb * bb * (1 - eps) * (1 - eps) + cc * cc * (1 - eps))%R).
    { assert (K : (cc * cc * ((1 - eps) * (1 - eps)) <= cc * cc * (1 - eps))%R).
      { apply Rmult_le_compat_l; [lra|].
        assert ((1 - eps) * (1 - eps) <= (1 - eps) * 1)%R
          by (apply Rmult_le_compat_l; lra). lra. }
      lra. }
    replace ((bb * bb + cc * cc) * ((1 - eps) * (1 - eps) * (1 - eps)))%R
      with ((bb * bb + cc * cc) * ((1 - eps) * (1 - eps)) * (1 - eps))%R by ring.
    apply Rmult_le_compat_r; lra.
Qed.

(** The interaction term [(r * b) * c] for [|r| <= 7/4]: a zero, or a number
    of magnitude at most nine tenths of [b^2 + c^2]. *)
Lemma interaction_value (r b c : float) sr mr er sb mb eb sc mc ec :
  Prim2SF r = S754_finite sr mr er ->
  (er + Z.log2 (Z.pos mr) <= 0)%Z -> (F2R (Z.pos mr) er <= 7 / 4)%R ->
  Prim2SF b = S754_finite sb mb eb ->
  (2 ^ 52 <= Z.pos mb < 2 ^ 53)%Z -> (-552 <= eb <= 448)%Z ->
  Prim2SF c = S754_finite sc mc ec ->
  (2 ^ 52 <= Z.pos mc < 2 ^ 53)%Z -> (-552 <= ec <= 448)%Z ->
  (exists s, Prim2SF (r * b * c) = S754_zero s) \/
  exists s m e,
    Prim2SF (r * b * c) = S754_finite s m e /\
    (F2R (Z.pos m) e
     <= (F2R (Z.pos mb) eb * F2R (Z.pos mb) eb + F2R (Z.pos mc) ec * F2R (Z.pos mc) ec)
        * (9 / 10))%R.
Proof.
  intros Er Lr Vr Eb Hb Rb Ec Hc Rc.
  destruct (mul_upper r b sr mr er sb mb eb Er Eb Hb)
    as [Zp | (mp & ep & Ep & Lp & Vp)].
  { unfold prec, emax. lia. }
  { left. exists (xorb (xorb sr sb) sc). rewrite mul_spec, Zp, Ec. reflexivity. }
  destruct (mul_upper (r * b) c _ mp ep sc mc ec Ep Ec Hc)
    as [Zi | (mi & ei & Ei & _ & Vi)].
  { unfold SpecFloat.emin, prec, emax in *. lia. }
  { left. eexists. exact Zi. }
  right. exists (xorb (xorb sr sb) sc), mi, ei. split; [exact Ei|].
  destruct least_unit_small as [U1 U2].
  pose proof eps_le as E1. destruct eps_small as [[E0 _] _].
  apply (interaction_real (F2R (Z.pos mb) eb) (F2R (Z.pos mc) ec) (F2R (Z.pos mr) er)
           (F2R (Z.pos mp) ep) (F2R (Z.pos mi) ei) eps (powerRZ 2 emin)
           (powerRZ 2 (-500))); try assumption.
  - lra.
  - apply powerRZ_2_pos.
  - left. apply powerRZ_2_pos.
  - apply magnitude_ok_value; [assumption|lia].
  - apply magnitude_ok_value; [assumption|lia].
  - split; [apply F2R_nonneg|assumption].
  - split; [apply F2R_nonneg|assumption].
Qed.

Lemma SFadd_zero_signed x s :
  signed false x -> signed false (SF64add x (S754_zero s)).
Proof.
  destruct x as [[]|[]| |[] m e]; cbn [signed]; intros H; try discriminate H;
    destruct s; try reflexivity; exact I.
Qed.

Lemma SFadd_finite_not_nan x y :
  match x with S754_zero _ | S754_finite _ _ _ => True | _ => False end ->
  match y with S754_zero _ | S754_finite _ _ _ => True | _ => False end ->
  SF64add x y <> S754_nan.
Proof.
  destruct x as [sx|sx| |sx mx ex], y as [sy|sy| |sy my ey]; try contradiction;
    intros _ _; unfold SF64add, SFadd; try discriminate.
  - now destruct sx, sy.
  - cbv zeta.
    destruct (cond_Zopp sx (Z.pos (fst (shl_align mx ex (Z.min ex ey)))) +
              cond_Zopp sy (Z.pos (fst (shl_align my ey (Z.min ex ey)))))%Z;
      cbn [binary_normalize]; try discriminate;
      unfold binary_round; destruct (shl_align _ _ _); apply binary_round_aux_not_nan.
Qed.

(** A zero is not above a number that is neither negative nor NaN. *)
Lemma SFleb_zero x s :
  signed false x -> x <> S754_nan -> SFleb (S754_zero s) x = true.
Proof.
  destruct x as [[]|[]| |[] m e]; cbn [signed]; intros H N;
    try discriminate H; try contradiction; reflexivity.
Qed.

Lemma square_finite (b : float) :
  magnitude_ok b = true ->
  match Prim2SF (b * b) with S754_zero _ | S754_finite _ _ _ => True | _ => False end.
Proof.
  intros H. destruct (magnitude_ok_cases b H) as [(s & Z0)|(s & m & e & E & Hm & R)].
  - rewrite mul_spec, Z0. exact I.
  - destruct (square_value b s m e E Hm R) as (mB & eB & EB & _). now rewrite EB.
Qed.

(** The hypotheses of the claim on the sign of [cie2000distance]: the
    sum [a*a + b*b + c*c + r*b*c] is not negative, and the interaction term
    is at most the two squares in magnitude. *)
Lemma weighted_sum_dominated (a b c r : float) :
  (abs r <=? 1.75) = true -> magnitude_ok b = true -> magnitude_ok c = true ->
  signed false (Prim2SF (a * a + b * b + c * c + r * b * c)) /\
  (abs (r * b * c) <=? b * b + c * c) = true.
Proof.
  intros Hr Hb Hc.
  pose proof (sum_of_squares_signed a b c) as SS.
  assert (SP : signed false (Prim2SF (b * b + c * c))).
  { rewrite add_spec, !mul_spec. apply SFadd_signed; apply SFmul_self_signed. }
  assert (NP : Prim2SF (b * b + c * c) <> S754_nan).
  { rewrite add_spec. apply SFadd_finite_not_nan; now apply square_finite. }
  (* the term is a zero *)
  assert (Zero : forall s, Prim2SF (r * b * c) = S754_zero s ->
            signed false (Prim2SF (a * a + b * b + c * c + r * b * c)) /\
            (abs (r * b * c) <=? b * b + c * c) = true).
  { intros s Z0. split.
    - rewrite add_spec, Z0. now apply SFadd_zero_signed.
    - rewrite leb_spec, abs_spec, Z0. cbn [SFabs]. now apply SFleb_zero. }
  destruct (abs_le_cases r Hr) as [(sr & Zr)|(sr & mr & er & Er & Lr & Vr)].
  { (* r is a zero *)
    assert (Zp : exists s, Prim2SF (r * b) = S754_zero s).
    { destruct (magnitude_ok_cases b Hb) as [(s & Z0)|(s & m & e & E & _)];
        eexists; rewrite mul_spec, Zr, ?Z0, ?E; reflexivity. }
    destruct Zp as (sp & Zp).
    destruct (magnitude_ok_cases c Hc) as [(s & Z0)|(s & m & e & E & _)].
    - apply (Zero (xorb sp s)). rewrite mul_spec, Zp, Z0. reflexivity.
    - apply (Zero (xorb sp s)). rewrite mul_spec, Zp, E. reflexivity. }
  destruct (magnitude_ok_cases b Hb) as [(sb & Zb)|(sb & mb & eb & Eb & Mb & Rb)].
  { (* b is a zero *)
    assert (Zp : Prim2SF (r * b) = S754_zero (xorb sr sb))
      by (rewrite mul_spec, Er, Zb; reflexivity).
    destruct (magnitude_ok_cases c Hc) as [(s & Z0)|(s & m & e & E & _)].
    - apply (Zero (xorb (xorb sr sb) s)). rewrite mul_spec, Zp, Z0. reflexivity.
    - apply (Zero (xorb (xorb sr sb) s)). rewrite mul_spec, Zp, E. reflexivity. }
  destruct (magnitude_ok_cases c Hc) as [(sc & Zc)|(sc & mc & ec & Ec & Mc & Rc)].
  { (* c is a zero *)
    destruct (mul_upper r b sr mr er sb mb eb Er Eb Mb)
      as [Zp | (mp & ep & Ep & _)].
    - unfold prec, emax. lia.
    - apply (Zero (xorb (xorb sr sb) sc)). rewrite mul_spec, Zp, Zc. reflexivity.
    - apply (Zero (xorb (xorb sr sb) sc)). rewrite mul_spec, Ep, Zc. reflexivity. }
  (* none is a zero *)
  destruct (interaction_value r b c sr mr er sb mb eb sc mc ec Er Lr Vr Eb Mb Rb Ec Mc Rc)
    as [(s & Z0)|(si & mi & ei & Ei & Vi)]; [now apply (Zero s)|].
  pose proof (F2R_nonneg mb eb) as Pb. pose proof (F2R_nonneg mc ec) as Pc.
  set (q := (F2R (Z.pos mb) eb * F2R (Z.pos mb) eb
             + F2R (Z.pos mc) ec * F2R (Z.pos mc) ec)%R) in *.
  assert (Pq : (0 <= q)%R).
  { unfold q. assert (0 <= F2R (Z.pos mb) eb * F2R (Z.pos mb) eb)%R
      by (apply Rmult_le_pos; lra).
    assert (0 <= F2R (Z.pos mc) ec * F2R (Z.pos mc) ec)%R
      by (apply Rmult_le_pos; lra). lra. }
  split.
  - destruct (squares_sum_value a b c sb mb eb sc mc ec Eb Mb Rb Ec Mc Rc)
      as [N | [I | (m & e & E & V)]].
    + rewrite add_spec, N. exact I.
    + rewrite add_spec, I, Ei. reflexivity.
    + destruct si.
      * apply (add_dominated _ _ m e mi ei E Ei). fold q in V. lra.
      * rewrite add_spec. apply SFadd_signed; [exact SS|]. rewrite Ei. reflexivity.
  - destruct (squares_pair_value b c sb mb eb sc mc ec Eb Mb Rb Ec Mc Rc)
      as [I | (m & e & E & V)].
    + rewrite leb_spec, abs_spec, Ei, I. reflexivity.
    + apply (leb_of_values _ _ mi ei m e); [now rewrite abs_spec, Ei|exact E|].
      fold q in V. lra.
Qed.

End WeightedSum.

(** ** The claims on self-distance and sign *)

(** A platform with low-order approximations of the [math] functions: sample
    inputs of the distance functions that call them are evaluated on it. *)
Definition roughPlatform : Platform := {|
  Pow := fun x y => if (y =? 2)%float then (x * x)%float
                    else if (y =? 7)%float then (x * x * x * x * x * x * x)%float
                    else nan;
  Sin := fun x => (x * (1 - x * x / 6))%float;
  Cos := fun x => (1 - x * x / 2)%float;
  Exp := fun x => (1 / (1 - x + x * x / 2))%float;
  Atan2 := fun y x => (y / (abs x + abs y))%float;
  int_unrepresentable := fun _ => GoInt.minInt;
  uint8_unrepresentable := fun _ => 0
|}.



(** C8: the sign of [cie94distance] and [cie2000distance], in binary64.
    [cie94distance], a sum of three squares, is NaN or at least 0 for every
    pair of colours and every platform.  [cie2000distance] is NaN or at
    least 0, and its interaction term [xRT * xDC * xDH] is in magnitude at
    most [xDC * xDC + xDH * xDH], whenever the rotation term has
    [|xRT| <= 1.75] and each of the weighted differences [xDC], [xDH] is a
    zero or of magnitude between [2^-500] and [2^500]. *)
Theorem distances_not_negative (P : Platform) (c1 c2 : cielab.t float) :
  ((cie94distance (AF := binary64 P) c1 c2 <? 0)%float = false /\
   not_negative (cie94distance (AF := binary64 P) c1 c2)) /\
  ((abs (tRT (cie2000weighted (AF := binary64 P) c1 c2)) <=? 1.75)%float = true ->
   magnitude_ok (tDC (cie2000weighted (AF := binary64 P) c1 c2)) = true ->
   magnitude_ok (tDH (cie2000weighted (AF := binary64 P) c1 c2)) = true ->
   (cie2000distance (AF := binary64 P) c1 c2 <? 0)%float = false /\
   not_negative (cie2000distance (AF := binary64 P) c1 c2) /\
   (abs (tRT (cie2000weighted (AF := binary64 P) c1 c2)
         * tDC (cie2000weighted (AF := binary64 P) c1 c2)
         * tDH (cie2000weighted (AF := binary64 P) c1 c2))
    <=? tDC (cie2000weighted (AF := binary64 P) c1 c2)
        * tDC (cie2000weighted (AF := binary64 P) c1 c2)
        + tDH (cie2000weighted (AF := binary64 P) c1 c2)
          * tDH (cie2000weighted (AF := binary64 P) c1 c2))%float = true).
Proof.
  split; [apply cie94distance_not_negative|].
  intros Hr Hc Hh.
  destruct (weighted_sum_dominated
              (tDL (cie2000weighted (AF := binary64 P) c1 c2)) _ _ _ Hr Hc Hh)
    as [S B].
  destruct (signed_not_negative_float _ S) as [L N].
  split; [exact L|]. split; [exact N|exact B].
Qed.

(** C8 fails as stated.  The sample that [meanBlockColor] returns for an
    empty block has the Lab components [0 / 0], NaN: its distance to any
    colour is NaN under both methods, on every platform, and NaN is not at
    least 0. *)
Lemma distances_nan_sample :
  meanBlockColor samplePlatform (uniformImage 200 200 white)
    (blockRect samplePlatform (uniformImage 200 200 white) 3 4)
  = Some (cielab.mk nan nan nan, black) /\
  forall (P : Platform) (c : cielab.t float),
    (0 <=? cie94distance (AF := binary64 P) (cielab.mk nan nan nan) c)%float = false /\
    (0 <=? cie2000distance (AF := binary64 P) (cielab.mk nan nan nan) c)%float = false.
Proof.
  split; [lazy; reflexivity|]. intros P c. split; apply nan_not_nonneg.
  - apply cie94distance_nan_sample.
  - apply cie2000distance_nan_sample.
Qed.

(** Below the range of the theorem the sum itself goes below zero: for
    [xDL = 0], [xDC = xDH = 0x1.387ce204a35d2p-537] and [xRT = -1.73] the
    squares round to one unit of the least exponent each and the
    interaction term to three. *)
Lemma weighted_sum_underflow :
  let d := 0x1.387ce204a35d2p-537%float in
  (0 * 0 + d * d + d * d + -0x1.bae147ae147aep+0 * d * d <? 0)%float = true.
Proof. reflexivity. Qed.



Lemma distances_not_negative_witness :
  (cie2000distance (AF := binary64 roughPlatform)
     (cielab.mk 50 10 (-20))%float (cielab.mk 60 (-5) 30)%float <? 0)%float = false.
Proof.
  destruct (distances_not_negative roughPlatform
              (cielab.mk 50 10 (-20))%float (cielab.mk 60 (-5) 30)%float) as [_ H].
  apply H; vm_compute; reflexivity.
Defined.

(** ** Symmetry of [cie2000distance] in binary64

    Swapping the two colours negates the three differences and leaves the
    weights unchanged.  In binary64 a difference and its negation computed
    the other way round can differ in the sign of a zero ([x - x] is +0 and
    so is its swap, whose negation is -0); the squares and the interaction
    term absorb that sign. *)

Section SignOfZero.
#[local] Open Scope float_scope.

Definition SFis_zero (x : spec_float) : bool :=
  match x with S754_zero _ => true | _ => false end.

Definition SFzeq (a b : spec_float) : Prop :=
  a = b \/ (SFis_zero a = true /\ SFis_zero b = true).

(** [x] and [y] are the same float, or both are zeros. *)
Definition zeq (x y : float) : Prop := SFzeq (Prim2SF x) (Prim2SF y).

Lemma zeq_refl x : zeq x x.
Proof. left. reflexivity. Qed.

Lemma zeq_sym x y : zeq x y -> zeq y x.
Proof. intros [E|[A B]]; [left; now symmetry|right; now split]. Qed.

Lemma zeq_trans x y z : zeq x y -> zeq y z -> zeq x z.
Proof.
  unfold zeq, SFzeq. intros [E|[A B]] [E'|[A' B']].
  - left. congruence.
  - right. split; [congruence|assumption].
  - right. split; [assumption|congruence].
  - right. now split.
Qed.

Lemma zeq_cases x y :
  zeq x y -> x = y \/ (SFis_zero (Prim2SF x) = true /\ SFis_zero (Prim2SF y) = true).
Proof. intros [E|H]; [left; now apply Prim2SF_inj|right; exact H]. Qed.

(** Case analysis on the operands of an operation of [spec_float], the case
    of two finite numbers apart. *)
Ltac sf_auto :=
  lazymatch goal with
  | |- context [binary_normalize] => idtac
  | |- context [binary_round_aux] => idtac
  | |- context [SFdiv_core_binary] => idtac
  | |- _ =>
      repeat match goal with b : bool |- _ => destruct b end;
      try discriminate; try reflexivity;
      try (left; reflexivity); try (right; split; reflexivity)
  end.

Lemma binary_round_aux_opp s m e l :
  binary_round_aux prec emax (negb s) m e l
  = SFopp (binary_round_aux prec emax s m e l).
Proof.
  unfold binary_round_aux.
  destruct (shr_fexp prec emax m e l) as [mrs' e'].
  destruct (shr_fexp prec emax _ e' loc_Exact) as [mrs'' e''].
  destruct (shr_m mrs''); [reflexivity| |reflexivity].
  destruct (e'' <=? emax - prec)%Z; reflexivity.
Qed.

Lemma binary_round_opp s m e :
  binary_round prec emax (negb s) m e = SFopp (binary_round prec emax s m e).
Proof.
  unfold binary_round. destruct (shl_align m e _) as [mz ez].
  apply binary_round_aux_opp.
Qed.

Lemma binary_normalize_opp z e :
  SFzeq (binary_normalize prec emax (- z) e false)
        (SFopp (binary_normalize prec emax z e false)).
Proof.
  destruct z as [|p|p]; cbn [Z.opp binary_normalize].
  - right. split; reflexivity.
  - left. apply (binary_round_opp false).
  - left. apply (binary_round_opp true).
Qed.

Lemma cond_Zopp_negb s m : cond_Zopp (negb s) m = (- cond_Zopp s m)%Z.
Proof. destruct s; cbn [negb cond_Zopp]; lia. Qed.

Lemma SFadd_comm a b : SF64add a b = SF64add b a.
Proof.
  unfold SF64add, SFadd.
  destruct a as [sa|sa| |sa ma ea], b as [sb|sb| |sb mb eb]; cbv beta iota; sf_auto.
  rewrite (Z.min_comm eb ea), Z.add_comm. reflexivity.
Qed.

Lemma SFsub_add_opp a b : SF64sub a b = SF64add a (SFopp b).
Proof.
  unfold SF64sub, SF64add, SFsub, SFadd, SFopp.
  destruct a as [sa|sa| |sa ma ea], b as [sb|sb| |sb mb eb]; cbv beta iota; sf_auto.
  rewrite cond_Zopp_negb. reflexivity.
Qed.

Lemma SFopp_add a b :
  SFzeq (SFopp (SF64add a b)) (SF64add (SFopp a) (SFopp b)).
Proof.
  unfold SF64add, SFadd.
  destruct a as [sa|sa| |sa ma ea], b as [sb|sb| |sb mb eb];
    cbn [SFopp]; cbv beta iota; sf_auto.
  rewrite !cond_Zopp_negb, <- Z.opp_add_distr.
  destruct (binary_normalize_opp
              (cond_Zopp sa (Z.pos (fst (shl_align ma ea (Z.min ea eb))))
               + cond_Zopp sb (Z.pos (fst (shl_align mb eb (Z.min ea eb)))))
              (Z.min ea eb)) as [E|[A B]].
  - left. now symmetry.
  - right. now split.
Qed.

Lemma SFmul_comm a b : SF64mul a b = SF64mul b a.
Proof.
  unfold SF64mul, SFmul.
  destruct a as [sa|sa| |sa ma ea], b as [sb|sb| |sb mb eb]; cbv beta iota; sf_auto.
  rewrite (xorb_comm sb sa), (Pos.mul_comm mb ma), (Z.add_comm eb ea). reflexivity.
Qed.

Lemma SFmul_opp_l a b : SF64mul (SFopp a) b = SFopp (SF64mul a b).
Proof.
  unfold SF64mul, SFmul.
  destruct a as [sa|sa| |sa ma ea], b as [sb|sb| |sb mb eb];
    cbn [SFopp]; cbv beta iota; sf_auto.
  rewrite <- negb_xorb_l. apply binary_round_aux_opp.
Qed.

Lemma SFdiv_opp_l a b : SF64div (SFopp a) b = SFopp (SF64div a b).
Proof.
  unfold SF64div, SFdiv.
  destruct a as [sa|sa| |sa ma ea], b as [sb|sb| |sb mb eb];
    cbn [SFopp]; cbv beta iota; sf_auto.
  destruct (SFdiv_core_binary prec emax (Z.pos ma) ea (Z.pos mb) eb) as [[mz ez] lz].
  rewrite <- negb_xorb_l. apply binary_round_aux_opp.
Qed.

Lemma add_comm x y : x + y = y + x.
Proof. apply Prim2SF_inj. rewrite !add_spec. apply SFadd_comm. Qed.

Lemma mul_comm x y : x * y = y * x.
Proof. apply Prim2SF_inj. rewrite !mul_spec. apply SFmul_comm. Qed.

Lemma sub_add_opp x y : x - y = x + - y.
Proof. apply Prim2SF_inj. rewrite sub_spec, add_spec, opp_spec. apply SFsub_add_opp. Qed.

Lemma opp_opp x : - - x = x.
Proof.
  apply Prim2SF_inj. rewrite !opp_spec.
  destruct (Prim2SF x) as [s|s| |s m e]; cbn [SFopp]; rewrite ?negb_involutive;
    reflexivity.
Qed.

Lemma abs_opp x : abs (- x) = abs x.
Proof.
  apply Prim2SF_inj. rewrite !abs_spec, opp_spec.
  destruct (Prim2SF x) as [s|s| |s m e]; reflexivity.
Qed.

Lemma mul_opp_l x y : - x * y = - (x * y).
Proof. apply Prim2SF_inj. rewrite opp_spec, !mul_spec, opp_spec. apply SFmul_opp_l. Qed.

Lemma mul_opp_r x y : x * - y = - (x * y).
Proof. rewrite (mul_comm x (- y)), mul_opp_l, (mul_comm y x). reflexivity. Qed.

Lemma div_opp_l x y : - x / y = - (x / y).
Proof. apply Prim2SF_inj. rewrite opp_spec, !div_spec, opp_spec. apply SFdiv_opp_l. Qed.

(** Negation distributes over a sum, up to the sign of a zero sum. *)
Lemma opp_add x y : zeq (- (x + y)) (- x + - y).
Proof. unfold zeq. rewrite add_spec, !opp_spec, add_spec. apply SFopp_add. Qed.

(** The difference taken the other way round. *)
Lemma sub_swap x y : zeq (y - x) (- (x - y)).
Proof.
  apply zeq_sym. rewrite (sub_add_opp x y), (sub_add_opp y x), (add_comm y (- x)).
  pose proof (opp_add x (- y)) as H. rewrite opp_opp in H. exact H.
Qed.

Lemma zeq_opp x y : zeq x y -> zeq (- x) (- y).
Proof.
  intros H. destruct (zeq_cases _ _ H) as [->|[A B]]; [apply zeq_refl|].
  right. rewrite !opp_spec.
  destruct (Prim2SF x), (Prim2SF y); try discriminate. split; reflexivity.
Qed.

Lemma zeq_abs x y : zeq x y -> abs x = abs y.
Proof.
  intros H. destruct (zeq_cases _ _ H) as [->|[A B]]; [reflexivity|].
  apply Prim2SF_inj. rewrite !abs_spec.
  destruct (Prim2SF x), (Prim2SF y); try discriminate. reflexivity.
Qed.

Lemma zeq_mul_r x y y' : zeq y y' -> zeq (x * y) (x * y').
Proof.
  intros H. destruct (zeq_cases _ _ H) as [->|[A B]]; [apply zeq_refl|].
  unfold zeq. rewrite !mul_spec. unfold SF64mul, SFmul.
  destruct (Prim2SF y) as [sy| | |], (Prim2SF y') as [sy'| | |]; try discriminate.
  destruct (Prim2SF x) as [sx|sx| |sx mx ex]; cbv beta iota; sf_auto.
Qed.

Lemma zeq_mul_l x x' y : zeq x x' -> zeq (x * y) (x' * y).
Proof. rewrite (mul_comm x y), (mul_comm x' y). apply zeq_mul_r. Qed.

Lemma zeq_div_l x x' y : zeq x x' -> zeq (x / y) (x' / y).
Proof.
  intros H. destruct (zeq_cases _ _ H) as [->|[A B]]; [apply zeq_refl|].
  unfold zeq. rewrite !div_spec. unfold SF64div, SFdiv.
  destruct (Prim2SF x) as [sx| | |], (Prim2SF x') as [sx'| | |]; try discriminate.
  destruct (Prim2SF y) as [sy|sy| |sy my ey]; cbv beta iota; sf_auto.
Qed.

(** A square does not see the sign of its operand. *)
Lemma square_zopp x y : zeq y (- x) -> y * y = x * x.
Proof.
  intros H. destruct (zeq_cases _ _ H) as [->|[A B]].
  - rewrite mul_opp_l, mul_opp_r. apply opp_opp.
  - apply Prim2SF_inj. rewrite !mul_spec. rewrite opp_spec in B.
    destruct (Prim2SF x) as [sx| | |], (Prim2SF y) as [sy| | |]; try discriminate.
    destruct sx, sy; reflexivity.
Qed.

(** Nor does a product of two operands negated together. *)
Lemma product_zopp r x y x' y' :
  zeq x' (- x) -> zeq y' (- y) -> zeq (r * x' * y') (r * x * y).
Proof.
  intros Hx Hy.
  apply (zeq_trans _ (r * - x * y')).
  { apply zeq_mul_l, zeq_mul_r, Hx. }
  apply (zeq_trans _ (r * - x * - y)).
  { apply zeq_mul_r, Hy. }
  rewrite (mul_opp_r r x), mul_opp_r, mul_opp_l, opp_opp. apply zeq_refl.
Qed.

(** Added to a number that is not a negative zero, a zero of either sign
    gives the same sum. *)
Lemma add_zeq_signed s x y :
  signed false (Prim2SF s) -> zeq x y -> s + x = s + y.
Proof.
  intros S H. destruct (zeq_cases _ _ H) as [->|[A B]]; [reflexivity|].
  apply Prim2SF_inj. rewrite !add_spec. unfold SF64add, SFadd.
  destruct (Prim2SF x) as [sx| | |], (Prim2SF y) as [sy| | |]; try discriminate.
  destruct (Prim2SF s) as [ss|ss| |ss ms es]; cbn [signed] in S; subst;
    cbv beta iota; sf_auto.
Qed.

(** Comparisons with a positive number [k]. *)
Lemma leb_abs_zero k d mk ek :
  Prim2SF k = S754_finite false mk ek ->
  SFis_zero (Prim2SF (- d)) = true -> (abs d <=? k) = true.
Proof.
  intros K Z. rewrite leb_spec, abs_spec, K. rewrite opp_spec in Z.
  destruct (Prim2SF d); try discriminate. reflexivity.
Qed.

Lemma ltb_opp_excluded k d mk ek :
  Prim2SF k = S754_finite false mk ek ->
  (k <? d) = true -> (k <? - d) = true -> False.
Proof.
  intros K. rewrite !ltb_spec, opp_spec, K. unfold SFltb, SFcompare.
  destruct (Prim2SF d) as [[]|[]| |[] m e]; cbn [SFopp negb]; discriminate.
Qed.

Lemma outside_both_nan k d mk ek :
  Prim2SF k = S754_finite false mk ek ->
  (abs d <=? k) = false -> (k <? d) = false -> (k <? - d) = false ->
  F64.is_nan d = true.
Proof.
  intros K. unfold F64.is_nan.
  rewrite leb_spec, !ltb_spec, abs_spec, opp_spec, K.
  unfold SFleb, SFltb, SFcompare.
  destruct (Prim2SF d) as [[]|[]| |s m e] eqn:D; cbn [SFopp SFabs negb];
    try discriminate.
  - reflexivity.
  - intros A B C. exfalso.
    assert (T : match
                  match (ek ?= e)%Z with
                  | Eq => Pos.compare_cont Eq mk m
                  | Lt => Lt
                  | Gt => Gt
                  end
                with Lt => true | _ => false end = true).
    { rewrite (Z.compare_antisym ek e) in A.
      destruct (ek ?= e)%Z; cbn [CompOpp] in A; try discriminate; try reflexivity.
      change (PosDef.Pos.compare_cont Eq m mk) with (Pos.compare m mk) in A.
      change (Pos.compare_cont Eq mk m) with (Pos.compare mk m).
      rewrite (Pos.compare_antisym mk m) in A.
      destruct (mk ?= m)%positive; cbn [CompOpp] in A; try discriminate; reflexivity. }
    destruct s; cbn [negb] in B, C;
      [exact (eq_true_false_abs _ T C)|exact (eq_true_false_abs _ T B)].
Qed.

End SignOfZero.

Section Symmetry2000.
Context (P : Platform).
#[local] Instance sym_arith : Arith float := binary64 P.

(** [math.Sin] is odd and [Sin(0) = 0], as Go documents it ([Sin(±0) = ±0])
    and computes it (the sign of the argument is taken off first and put
    back on the result). *)
Definition Sin_odd : Prop :=
  Sin P 0%float = 0%float /\ forall x : float, Sin P (- x)%float = (- Sin P x)%float.

#[local] Open Scope arith_scope.

(** The hue difference and the mean hue of [cie2000distance], as functions
    of the two chromas and hues. *)
Definition hueDifference (xC1 xC2 xH1 xH2 : float) : float :=
  if almostZero (xC1 * xC2) then lit 0
  else
    let xNN := xH2 - xH1 in
    if mAbs xNN <=? lit 180 then xH2 - xH1
    else if xNN >? lit 180 then xH2 - xH1 - lit 360
    else xH2 - xH1 + lit 360.

Definition hueMean (xC1 xC2 xH1 xH2 : float) : float :=
  if almostZero (xC1 * xC2) then xH1 + xH2
  else
    let xNN := mAbs (xH1 - xH2) in
    let xHX :=
      if xNN >? lit 180 then
        if (xH2 + xH1) <? lit 360 then xH1 + xH2 + lit 360
        else xH1 + xH2 - lit 360
      else xH1 + xH2 in
    xHX / lit 2.

(** [cie2000weighted] from the adjusted chromas and hues on. *)
Definition cie2000core (l1 l2 xC1 xC2 xH1 xH2 : float) : cie2000terms (F := float) :=
  let xDL := l2 - l1 in
  let xDC := xC2 - xC1 in
  let xDH := hueDifference xC1 xC2 xH1 xH2 in
  let xDH := lit 2 * mSqrt (xC1 * xC2) * mSin (deg2rad * (xDH / lit 2)) in
  let xLX := (l1 + l2) / lit 2 in
  let xCY := (xC1 + xC2) / lit 2 in
  let xHX := hueMean xC1 xC2 xH1 xH2 in
  let xTX := lit 1 - lit 0.17 * mCos (deg2rad * (xHX - lit 30)) +
             lit 0.24 * mCos (deg2rad * (lit 2 * xHX)) +
             lit 0.32 * mCos (deg2rad * (lit 3 * xHX + lit 6)) -
             lit 0.20 * mCos (deg2rad * (lit 4 * xHX - lit 63)) in
  let xPH := lit 30 * mExp (- ((xHX - lit 275) / lit 25) * ((xHX - lit 275) / lit 25)) in
  let xRC := lit 2 * mSqrt (mPow xCY (lit 7) / (mPow xCY (lit 7) + mPow (lit 25) (lit 7))) in
  let xSL := lit 1 + (lit 0.015 * (xLX - lit 50) * (xLX - lit 50)) /
                     mSqrt (lit 20 + (xLX - lit 50) * (xLX - lit 50)) in
  let xSC := lit 1 + lit 0.045 * xCY in
  let xSH := lit 1 + lit 0.015 * xCY * xTX in
  let xRT := - mSin (deg2rad * lit 2 * xPH) * xRC in
  {| tDL := xDL / xSL; tDC := xDC / xSC; tDH := xDH / xSH; tRT := xRT |}.

(** The chroma adjustment [xGX] of the two colours. *)
Definition chromaAdjust (col1 col2 : cielab.t float) : float :=
  let xC1 := mSqrt (cielab.a col1 * cielab.a col1 + cielab.b col1 * cielab.b col1) in
  let xC2 := mSqrt (cielab.a col2 * cielab.a col2 + cielab.b col2 * cielab.b col2) in
  let xCX := (xC1 + xC2) / lit 2 in
  lit 0.5 * (lit 1 - mSqrt (mPow xCX (lit 7) / (mPow xCX (lit 7) + mPow (lit 25) (lit 7)))).

Definition adjustedChroma (g : float) (col : cielab.t float) : float :=
  let xNN := (lit 1 + g) * cielab.a col in
  mSqrt (xNN * xNN + cielab.b col * cielab.b col).

Definition adjustedHue (g : float) (col : cielab.t float) : float :=
  cielab2hue ((lit 1 + g) * cielab.a col) (cielab.b col).

Lemma cie2000weighted_core (col1 col2 : cielab.t float) :
  cie2000weighted col1 col2 =
  cie2000core (cielab.l col1) (cielab.l col2)
    (adjustedChroma (chromaAdjust col1 col2) col1)
    (adjustedChroma (chromaAdjust col1 col2) col2)
    (adjustedHue (chromaAdjust col1 col2) col1)
    (adjustedHue (chromaAdjust col1 col2) col2).
Proof. reflexivity. Qed.

#[local] Open Scope float_scope.

Lemma chromaAdjust_sym col1 col2 : chromaAdjust col1 col2 = chromaAdjust col2 col1.
Proof.
  unfold chromaAdjust. cbv zeta. cbn [sym_arith binary64 add mSqrt].
  now rewrite (add_comm (PrimFloat.sqrt _) (PrimFloat.sqrt _)).
Qed.

Lemma almostZero_sym (x y : float) :
  almostZero (mul x y) = almostZero (mul y x).
Proof. cbn [sym_arith binary64 mul]. now rewrite (mul_comm x y). Qed.

Lemma lit_180 :
  exists mk ek, Prim2SF (F64.of_Q 180) = S754_finite false mk ek.
Proof. eexists. eexists. vm_compute. reflexivity. Qed.

Lemma hueDifference_swap xC1 xC2 xH1 xH2 :
  zeq (hueDifference xC2 xC1 xH2 xH1) (- hueDifference xC1 xC2 xH1 xH2).
Proof.
  unfold hueDifference. rewrite (almostZero_sym xC2 xC1).
  destruct (almostZero _).
  - right. split; reflexivity.
  - cbv zeta.
    cbn [sym_arith binary64 sub add leb ltb
         mAbs lit].
    destruct lit_180 as (mk & ek & K).
    pose proof (sub_swap xH2 xH1) as Z.
    set (d := xH2 - xH1) in *. set (d' := xH1 - xH2) in *.
    rewrite (zeq_abs _ _ Z), abs_opp.
    destruct (abs d <=? F64.of_Q 180) eqn:T; [exact Z|].
    assert (E : d' = - d).
    { destruct (zeq_cases _ _ Z) as [E|[_ B]]; [exact E|].
      rewrite (leb_abs_zero _ _ _ _ K B) in T. discriminate. }
    rewrite E.
    destruct (F64.of_Q 180 <? d) eqn:A, (F64.of_Q 180 <? - d) eqn:B.
    + destruct (ltb_opp_excluded _ _ _ _ K A B).
    + rewrite (sub_add_opp d). apply zeq_sym.
      pose proof (opp_add d (- F64.of_Q 360)) as H. rewrite opp_opp in H. exact H.
    + rewrite (sub_add_opp (- d)). apply zeq_sym, opp_add.
    + rewrite (is_nan_eq _ (outside_both_nan _ _ _ _ K T A B)). left. reflexivity.
Qed.

Lemma hueMean_swap xC1 xC2 xH1 xH2 :
  hueMean xC2 xC1 xH2 xH1 = hueMean xC1 xC2 xH1 xH2.
Proof.
  unfold hueMean. rewrite (almostZero_sym xC2 xC1). cbv zeta.
  cbn [sym_arith binary64 sub add div ltb
       mAbs lit].
  rewrite (add_comm xH2 xH1).
  rewrite (zeq_abs _ _ (sub_swap xH1 xH2)), abs_opp. reflexivity.
Qed.

Lemma is_zero_cases x : SFis_zero (Prim2SF x) = true -> x = 0 \/ x = -0.
Proof.
  intros H. destruct (Prim2SF x) as [[]| | |] eqn:E; try discriminate;
    [right|left]; apply Prim2SF_inj; rewrite E; reflexivity.
Qed.

Lemma div_zopp a b s : zeq a (- b) -> zeq (a / s) (- (b / s)).
Proof. intros H. rewrite <- div_opp_l. now apply zeq_div_l. Qed.

Lemma mul_zopp_r k a b : zeq a (- b) -> zeq (k * a) (- (k * b)).
Proof. intros H. rewrite <- mul_opp_r. now apply zeq_mul_r. Qed.

Lemma Sin_zopp z z' : Sin_odd -> zeq z' (- z) -> zeq (Sin P z') (- Sin P z).
Proof.
  intros [S0 So] H. destruct (zeq_cases _ _ H) as [->|[A B]].
  - rewrite So. apply zeq_refl.
  - assert (Sm : Sin P (-0) = -0).
    { change (Sin P (- (0)) = - (0)). rewrite So, S0. reflexivity. }
    assert (Zz : SFis_zero (Prim2SF z) = true).
    { rewrite opp_spec in B. destruct (Prim2SF z); try discriminate. reflexivity. }
    right.
    destruct (is_zero_cases _ A) as [-> | ->], (is_zero_cases _ Zz) as [-> | ->];
      rewrite ?S0, ?Sm; split; reflexivity.
Qed.

(** Swapping the colours negates the three weighted differences, up to the
    sign of a zero, and leaves the rotation term unchanged. *)
Lemma cie2000core_swap l1 l2 xC1 xC2 xH1 xH2 :
  Sin_odd ->
  tRT (cie2000core l2 l1 xC2 xC1 xH2 xH1) = tRT (cie2000core l1 l2 xC1 xC2 xH1 xH2) /\
  zeq (tDL (cie2000core l2 l1 xC2 xC1 xH2 xH1))
      (- tDL (cie2000core l1 l2 xC1 xC2 xH1 xH2)) /\
  zeq (tDC (cie2000core l2 l1 xC2 xC1 xH2 xH1))
      (- tDC (cie2000core l1 l2 xC1 xC2 xH1 xH2)) /\
  zeq (tDH (cie2000core l2 l1 xC2 xC1 xH2 xH1))
      (- tDH (cie2000core l1 l2 xC1 xC2 xH1 xH2)).
Proof.
  intros HS. unfold cie2000core. cbv zeta. cbn [tDL tDC tDH tRT].
  rewrite (hueMean_swap xC1 xC2 xH1 xH2).
  cbn [sym_arith binary64 add sub mul div
       opp lit mSqrt mSin mCos mExp mPow deg2rad].
  rewrite (add_comm l2 l1), (add_comm xC2 xC1), (mul_comm xC2 xC1).
  split; [reflexivity|]. split; [|split].
  - apply div_zopp, sub_swap.
  - apply div_zopp, sub_swap.
  - apply div_zopp, mul_zopp_r, Sin_zopp; [exact HS|].
    apply mul_zopp_r, div_zopp, hueDifference_swap.
Qed.

Lemma cie2000distance_swap (c1 c2 : cielab.t float) :
  Sin_odd -> cie2000distance c1 c2 = cie2000distance c2 c1.
Proof.
  intros HS. unfold cie2000distance. cbv zeta.
  rewrite (cie2000weighted_core c2 c1), (cie2000weighted_core c1 c2),
    (chromaAdjust_sym c2 c1).
  destruct (cie2000core_swap (cielab.l c1) (cielab.l c2)
              (adjustedChroma (chromaAdjust c1 c2) c1)
              (adjustedChroma (chromaAdjust c1 c2) c2)
              (adjustedHue (chromaAdjust c1 c2) c1)
              (adjustedHue (chromaAdjust c1 c2) c2) HS) as (R & L & C & H).
  cbn [sym_arith binary64 add mul].
  rewrite R, (square_zopp _ _ L), (square_zopp _ _ C), (square_zopp _ _ H).
  apply add_zeq_signed; [apply sum_of_squares_signed|].
  apply zeq_sym, product_zopp; assumption.
Qed.

End Symmetry2000.

(** X21: in binary64, on every platform whose [math.Sin] is odd with
    [Sin(0) = 0], [cie2000distance] is symmetric: the two orders of the
    colours give the same float64, NaN included.  Swapping the colours
    negates the weighted differences of lightness, chroma and hue up to the
    sign of a zero and leaves the weights and the rotation term unchanged. *)
Theorem cie2000distance_symmetric (P : Platform) (c1 c2 : cielab.t float) :
  Sin_odd P ->
  cie2000distance (AF := binary64 P) c1 c2 = cie2000distance (AF := binary64 P) c2 c1.
Proof. apply cie2000distance_swap. Qed.

Lemma roughPlatform_Sin_odd : Sin_odd roughPlatform.
Proof.
  split; [reflexivity|]. intros x. cbn [roughPlatform Sin].
  rewrite (mul_opp_l x (- x)), (mul_opp_r x x), opp_opp, mul_opp_l. reflexivity.
Qed.

Lemma cie2000distance_symmetric_witness :
  cie2000distance (AF := binary64 roughPlatform)
    (cielab.mk 50 10 (-20))%float (cielab.mk 60 (-5) 30)%float
  = cie2000distance (AF := binary64 roughPlatform)
      (cielab.mk 60 (-5) 30)%float (cielab.mk 50 10 (-20))%float /\
  F64.is_nan (cie2000distance (AF := binary64 roughPlatform)
                (cielab.mk 50 10 (-20))%float (cielab.mk 60 (-5) 30)%float) = false.
Proof.
  split.
  - apply (cie2000distance_symmetric roughPlatform). exact roughPlatform_Sin_odd.
  - vm_compute. reflexivity.
Defined.

(** ** The further properties on sample inputs *)

Lemma sample_640x488_wf : image.wf (uniformImage 640 488 white).
Proof. apply uniformImage_wf; unfold GoInt.maxInt; lia. Qed.

Lemma sample_640x2_wf : image.wf (uniformImage 640 2 white).
Proof. apply uniformImage_wf; unfold GoInt.maxInt; lia. Qed.

Lemma sample_2x2_black_wf : image.wf (uniformImage 2 2 black).
Proof. apply uniformImage_wf; unfold GoInt.maxInt; lia. Qed.

Lemma ConvertImage_total_witness :
  exists out, ConvertImage samplePlatform (uniformImage 640 488 white) CIE2000 = Some out /\
    244 <= image.Y (image.Max (image.RGBA.Rect out)) <= 245.
Proof.
  destruct (ConvertImage_total samplePlatform (uniformImage 640 488 white) CIE2000
              sample_640x488_wf) as (out & E & R & B & _).
  - vm_compute. split; reflexivity.
  - vm_compute. split; reflexivity.
  - vm_compute. discriminate.
  - exists out. split; [exact E|]. rewrite R. exact B.
Defined.

Lemma block_size_floor_witness :
  blockWidth samplePlatform (uniformImage 640 488 white) = 4 /\
  blockHeight samplePlatform (uniformImage 640 488 white)
  = 488 / targetHeight samplePlatform (uniformImage 640 488 white).
Proof.
  apply (block_size_floor samplePlatform (uniformImage 640 488 white));
    vm_compute; split; reflexivity.
Defined.

Lemma sample_640x2_geometry :
  targetHeight samplePlatform (uniformImage 640 2 white) = 1 /\
  blockWidth samplePlatform (uniformImage 640 2 white) = 4 /\
  blockHeight samplePlatform (uniformImage 640 2 white) = 2.
Proof. lazy. repeat split. Qed.

(** A source of 640 by 2 white pixels and the same source with one pixel
    painted black: [(5, 1)] lies in the last row of its block, [(3, 0)] in
    the last column. *)
Lemma ConvertImage_reads_sampled_pixels_witness :
  exists img' : image.RGBA.t,
    image.RGBAAt (uniformImage 640 2 white) 5 1 = Some white /\
    image.RGBAAt img' 5 1 = Some black /\
    ConvertImage samplePlatform (uniformImage 640 2 white) CIE94
    = ConvertImage samplePlatform img' CIE94.
Proof.
  destruct (SetRGBA_spec (uniformImage 640 2 white) 5 1 black sample_640x2_wf)
    as (img' & _ & W' & R' & A).
  destruct sample_640x2_geometry as (Th & Bw & Bh).
  exists img'. split; [|split].
  - apply uniformImage_RGBAAt; try (unfold GoInt.maxInt; lia). reflexivity.
  - rewrite A. reflexivity.
  - apply (ConvertImage_reads_sampled_pixels samplePlatform
             (uniformImage 640 2 white) img' CIE94 sample_640x2_wf W' (eq_sym R')).
    intros u v (i & j & Hi & Hj & I).
    rewrite A.
    destruct (Z.eqb_spec v 1) as [->|Nv]; [|now rewrite andb_false_r].
    exfalso. rewrite Th in Hj.
    rewrite blockRect_small in I by (rewrite ?Bw, ?Bh; lia).
    apply In_spec in I. rewrite Bw, Bh in I.
    destruct (Rect_canonical (i * 4) (j * 2) ((i + 1) * 4 - 1) ((j + 1) * 2 - 1))
      as (_ & _ & Y0 & Y1).
    rewrite Y0, Y1 in I. lia.
Defined.

Lemma ConvertImage_skips_block_edges_witness :
  exists img' : image.RGBA.t,
    image.RGBAAt (uniformImage 640 2 white) 3 0 = Some white /\
    image.RGBAAt img' 3 0 = Some black /\
    ConvertImage samplePlatform (uniformImage 640 2 white) CIE76
    = ConvertImage samplePlatform img' CIE76.
Proof.
  destruct (SetRGBA_spec (uniformImage 640 2 white) 3 0 black sample_640x2_wf)
    as (img' & _ & W' & R' & A).
  destruct sample_640x2_geometry as (Th & Bw & Bh).
  exists img'. split; [|split].
  - apply uniformImage_RGBAAt; try (unfold GoInt.maxInt; lia). reflexivity.
  - rewrite A. reflexivity.
  - apply (ConvertImage_skips_block_edges samplePlatform
             (uniformImage 640 2 white) img' CIE76 sample_640x2_wf W' (eq_sym R')).
    + rewrite Bw. lia.
    + rewrite Bh. lia.
    + rewrite Th. lia.
    + rewrite Bw, Bh. intros u v Hu Hv. rewrite A.
      destruct (Z.eqb_spec u 3) as [->|Nu]; [|now rewrite andb_false_r].
      exfalso. apply Hu. reflexivity.
Defined.

Lemma sample_600x400_wf c : image.wf (uniformImage 600 400 c).
Proof. apply uniformImage_wf; unfold GoInt.maxInt; lia. Qed.

Lemma uniformImage_Rect w h c c' :
  image.RGBA.Rect (uniformImage w h c) = image.RGBA.Rect (uniformImage w h c').
Proof. reflexivity. Qed.

Lemma ConvertImage_narrow_source_witness :
  ConvertImage samplePlatform (uniformImage 600 400 white) CIE94
  = ConvertImage samplePlatform (uniformImage 600 400 black) CIE94.
Proof.
  apply (ConvertImage_narrow_source samplePlatform
           (uniformImage 600 400 white) (uniformImage 600 400 black) CIE94
           (sample_600x400_wf white) (sample_600x400_wf black)
           (uniformImage_Rect 600 400 white black)).
  - unfold uniformImage. cbn [image.RGBA.Rect image.Min image.Y]. lia.
  - unfold uniformImage. cbn [image.RGBA.Rect]. lazy. split; reflexivity.
  - unfold uniformImage. cbn [image.RGBA.Rect]. lazy. split; reflexivity.
Defined.

Lemma rgbDistance_exact_witness :
  rgbDistance (AF := binary64 samplePlatform) white black = F64.of_int 195075.
Proof.
  exact (proj1 (rgbDistance_exact samplePlatform white black
                  samplePlatform_Pow_squares white_wf black_wf)).
Defined.

Lemma closestC64Color_RGB_nearest_witness :
  sqDistance white
    (C64Color (closestC64Color samplePlatform (cielab.mk 0 0 0)%float white RGBMethod))
  <= sqDistance white (C64Color 7).
Proof.
  apply (closestC64Color_RGB_nearest samplePlatform (cielab.mk 0 0 0)%float white 7
           samplePlatform_Pow_squares white_wf). lia.
Defined.

Lemma closestC64Color_palette_fixed_witness :
  closestC64Color samplePlatform (cielab.mk 0 0 0)%float white RGBMethod = 1.
Proof.
  apply (closestC64Color_palette_fixed samplePlatform (cielab.mk 0 0 0)%float white 1
           samplePlatform_Pow_squares white_wf); [lia|reflexivity].
Defined.

Definition sample_rect_2x2 : image.Rectangle :=
  {| image.Min := {| image.X := 0; image.Y := 0 |};
     image.Max := {| image.X := 2; image.Y := 2 |} |}.

Lemma meanBlockColor_rgb_mean_witness :
  exists lab,
    meanBlockColor samplePlatform (uniformImage 2 2 white) sample_rect_2x2
    = Some (lab,
            color.mk (channelSum color.R (uniformImage 2 2 white) sample_rect_2x2 / 4)
                     (channelSum color.G (uniformImage 2 2 white) sample_rect_2x2 / 4)
                     (channelSum color.B (uniformImage 2 2 white) sample_rect_2x2 / 4)
                     255).
Proof.
  apply (meanBlockColor_rgb_mean samplePlatform (uniformImage 2 2 white) sample_rect_2x2
           sample_2x2_wf (uniformImage_bytes 2 2 white white_wf));
    cbn; unfold GoInt.minInt, GoInt.maxInt; lia.
Defined.

Lemma ConvertImage_uniform_RGB_witness :
  exists out, ConvertImage samplePlatform (uniformImage 640 2 white) RGBMethod = Some out /\
    image.RGBAAt out 100 0 =
      Some (C64Color (closestC64Color samplePlatform (cielab.mk 0 0 0)%float
                        (color.mk 255 255 255 255) RGBMethod)).
Proof.
  destruct (ConvertImage_uniform_RGB samplePlatform (uniformImage 640 2 white) white
              (cielab.mk 0 0 0)%float sample_640x2_wf
              (uniformImage_bytes 640 2 white white_wf) eq_refl) as (out & E & A).
  - vm_compute. split; [discriminate|reflexivity].
  - vm_compute. split; reflexivity.
  - lazy. discriminate.
  - intros x y I.
    apply uniformImage_RGBAAt; try exact I; unfold GoInt.maxInt; lia.
  - exists out. split; [exact E|]. apply A; [lia|]. lazy. split; [discriminate|reflexivity].
Defined.

Lemma closestC64Color_RGB_integer_witness :
  closestC64Color samplePlatform (cielab.mk 0 0 0)%float white RGBMethod
  = nearestIndex white.
Proof.
  exact (closestC64Color_RGB_integer samplePlatform (cielab.mk 0 0 0)%float white
           samplePlatform_Pow_squares white_wf).
Defined.

Lemma ConvertImage_RGB_integer_witness :
  exists out, ConvertImage samplePlatform (uniformImage 640 2 white) RGBMethod = Some out /\
    image.RGBAAt out 100 0 =
      Some (C64Color (nearestIndex (meanRGB (uniformImage 640 2 white)
              (cellRect (image.Dx (image.RGBA.Rect (uniformImage 640 2 white)))
                        (image.Dy (image.RGBA.Rect (uniformImage 640 2 white)))
                        (targetHeight samplePlatform (uniformImage 640 2 white))
                        (100 / 2) 0)))).
Proof.
  destruct (ConvertImage_RGB_integer samplePlatform (uniformImage 640 2 white)
              samplePlatform_Pow_squares sample_640x2_wf
              (uniformImage_bytes 640 2 white white_wf)) as (out & E & A).
  - vm_compute. split; [discriminate|reflexivity].
  - vm_compute. split; reflexivity.
  - lazy. discriminate.
  - exists out. split; [exact E|]. apply A; [lia|]. lazy. split; [discriminate|reflexivity].
Defined.

Lemma ConvertImage_zero_height_witness :
  ConvertImage samplePlatform (uniformImage 2 0 white) CIE94 =
    Some {| image.RGBA.Pix := [];
            image.RGBA.Stride := 1280;
            image.RGBA.Rect :=
              {| image.Min := {| image.X := 0; image.Y := 0 |};
                 image.Max := {| image.X := 320; image.Y := 0 |} |} |}.
Proof.
  apply (ConvertImage_zero_height samplePlatform (uniformImage 2 0 white) CIE94).
  - vm_compute. split; reflexivity.
  - reflexivity.
Defined.

Lemma ConvertImage_zero_width_witness :
  ConvertImage samplePlatform (uniformImage 0 2 white) CIE94 = None.
Proof.
  apply (ConvertImage_zero_width samplePlatform (uniformImage 0 2 white) CIE94).
  - reflexivity.
  - vm_compute. split; reflexivity.
  - left. reflexivity.
Defined.

Lemma LoadImage_stride_supported_witness :
  unsupportedStride
    {| image.RGBA.Pix := repeat 0 16%nat;
       image.RGBA.Stride := 8;
       image.RGBA.Rect := image.Rect 0 0 2 2 |} = false.
Proof.
  apply (LoadImage_stride_supported (image.Rect 0 0 2 2)). reflexivity.
Defined.

Section FileNameSamples.
Import Ascii String.

Lemma main_output_names_injective_witness :
  strings.lit "a.jpg" = strings.lit "a.jpg" /\ RGBMethod = RGBMethod.
Proof.
  apply (main_output_names_injective (strings.lit "a.jpg") (strings.lit "a.jpg")
           RGBMethod RGBMethod (strings.lit "c64_a_RGB.png"));
    cbn; auto.
Defined.

Lemma main_output_not_a_source_witness :
  strings.HasSuffix (strings.lit "c64_a_CIE94.png") (strings.lit ".jpg") = false.
Proof.
  apply (main_output_not_a_source (strings.lit "a.jpg") CIE94
           (strings.lit "c64_a_CIE94.png")).
  cbn. auto.
Defined.

Lemma legacy_main_output_names_collide_witness :
  legacyOutputName (strings.lit "pa.jpg") = legacyOutputName (strings.lit "a.jpg") /\
  legacyOutputName (strings.lit "a.jpg") <> None.
Proof.
  apply (legacy_main_output_names_collide (strings.lit "a.jpg") "p"%char);
    reflexivity.
Defined.

End FileNameSamples.
